(** * docetl map operations: a shallow embedding of [docetl/operations/map.py]

    The development models [render_jinja_template], [MapOperation] and
    [ParallelMapOperation]: their configuration checks ([syntax_check]) and
    their [execute] methods.  Python dictionaries are finite maps keyed by
    strings, exceptions are the left summand of a sum type, and the
    libraries the module calls (jinja2, pydantic, the runner's LLM api, the
    base operation class) are the fields of one interface, [Env]. *)

From stdpp Require Import base option list sorting gmap strings pretty fin_maps.
From Stdlib Require Import Ascii ZArith Lia.

Open Scope string_scope.

(** ** Python values *)

(** Configuration values and record fields are dynamically typed.  A [dict]
    has string keys, as the YAML/JSON documents the pipeline reads. *)
#[warnings="-register-all"]
Inductive pyval : Type :=
| PNone
| PBool (b : bool)
| PInt (z : Z)
| PStr (s : string)
| PList (l : list pyval)
| PDict (d : gmap string pyval).

(** A record of the data set, and an operation's configuration, are dicts. *)
Abbreviation record := (gmap string pyval).
Abbreviation config := (gmap string pyval).

(** Exceptions.  [External] is anything a collaborator raises that this
    module does not raise itself. *)
Inductive exn : Type :=
| ValueError (msg : string)
| TypeError (msg : string)
| KeyError (key : pyval)
| IndexError (msg : string)
| AttributeError (msg : string)
| ZeroDivisionError
| External (kind msg : string).

Definition result (A : Type) : Type := exn + A.

Definition ret {A} (a : A) : result A := inr a.
Definition raise {A} (e : exn) : result A := inl e.
Definition bind {A B} (m : result A) (k : A → result B) : result B :=
  match m with
  | inl e => inl e
  | inr a => k a
  end.

Declare Scope py_scope.
Delimit Scope py_scope with py.
Notation "x <- m ;; k" := (bind m (λ x, k))
  (at level 100, m at next level, right associativity,
   format "'[v' x  <-  m  ;;  '/' k ']'") : py_scope.
Notation "m ;;; k" := (bind m (λ _, k))
  (at level 100, right associativity) : py_scope.
Open Scope py_scope.

(** [str(e)] for the exceptions whose text the module embeds in messages. *)
Definition exn_str (e : exn) : string :=
  match e with
  | ValueError m | TypeError m | IndexError m | AttributeError m => m
  | KeyError (PStr k) => "'" +:+ k +:+ "'"
  | KeyError _ => "<key>"
  | ZeroDivisionError => "integer division or modulo by zero"
  | External _ m => m
  end.

(** Truth value of an object ([bool(v)]). *)
Definition truthy (v : pyval) : bool :=
  match v with
  | PNone => false
  | PBool b => b
  | PInt z => negb (z =? 0)%Z
  | PStr s => negb (String.eqb s "")
  | PList l => negb (bool_decide (length l = 0))
  | PDict d => negb (bool_decide (size d = 0))
  end.

Definition is_str (v : pyval) : bool :=
  match v with PStr _ => true | _ => false end.
Definition is_list (v : pyval) : bool :=
  match v with PList _ => true | _ => false end.
Definition is_dict (v : pyval) : bool :=
  match v with PDict _ => true | _ => false end.

(** [x == k] for a string [k]: only the same string is equal to it. *)
Definition eq_str (k : string) (x : pyval) : bool :=
  match x with PStr s => String.eqb s k | _ => false end.

(** [k in s] on strings is the substring test. *)
Fixpoint is_substring (k s : string) : bool :=
  String.prefix k s
  || match s with
     | EmptyString => false
     | String _ s' => is_substring k s'
     end.

(** [k in c] for a string [k]: membership in a list, key of a dict,
    substring of a string; other objects are not containers. *)
Definition py_in (k : string) (c : pyval) : result bool :=
  match c with
  | PList l => ret (existsb (eq_str k) l)
  | PDict d => ret (bool_decide (is_Some (d !! k)))
  | PStr s => ret (is_substring k s)
  | _ => raise (TypeError "argument is not iterable")
  end.

(** [c[k]] for a string [k]. *)
Definition py_getitem (c : pyval) (k : string) : result pyval :=
  match c with
  | PDict d =>
      match d !! k with
      | Some v => ret v
      | None => raise (KeyError (PStr k))
      end
  | PStr _ | PList _ => raise (TypeError "indices must be integers")
  | _ => raise (TypeError "object is not subscriptable")
  end.

(** [self.config[k]] on the configuration dict. *)
Definition cfg_item (cfg : config) (k : string) : result pyval :=
  match cfg !! k with
  | Some v => ret v
  | None => raise (KeyError (PStr k))
  end.

(** [d.get(k, dflt)]. *)
Definition dict_get (d : gmap string pyval) (k : string) (dflt : pyval) : pyval :=
  default dflt (d !! k).

Definition has_key (d : gmap string pyval) (k : string) : bool :=
  bool_decide (is_Some (d !! k)).

(** The characters of a string, each as a one-character string (what
    iterating a [str] yields). *)
Fixpoint chars (s : string) : list pyval :=
  match s with
  | EmptyString => []
  | String a s' => PStr (String a EmptyString) :: chars s'
  end.

(** [for x in c]. *)
Definition py_iter (c : pyval) : result (list pyval) :=
  match c with
  | PList l => ret l
  | PStr s => ret (chars s)
  | PDict d => ret (PStr <$> (map_to_list d).*1)
  | _ => raise (TypeError "object is not iterable")
  end.

(** [len(c)]. *)
Definition py_len (c : pyval) : result nat :=
  match c with
  | PList l => ret (length l)
  | PStr s => ret (String.length s)
  | PDict d => ret (size d)
  | _ => raise (TypeError "object has no len()")
  end.

Definition hashable (v : pyval) : bool :=
  match v with PList _ | PDict _ => false | _ => true end.

(** [type(v).__name__]. *)
Definition type_name (v : pyval) : string :=
  match v with
  | PNone => "NoneType"
  | PBool _ => "bool"
  | PInt _ => "int"
  | PStr _ => "str"
  | PList _ => "list"
  | PDict _ => "dict"
  end.

(** What hashing an object that cannot be hashed raises. *)
Definition unhashable_error (v : pyval) : exn :=
  TypeError ("unhashable type: '" +:+ type_name v +:+ "'").

(** Monadic list traversals: a [for] loop or comprehension whose body can
    raise stops at the first exception. *)
Fixpoint mapM {A B} (f : A → result B) (l : list A) : result (list B) :=
  match l with
  | [] => ret []
  | a :: l' => b <- f a ;; bs <- mapM f l' ;; ret (b :: bs)
  end.

Fixpoint filterM {A} (p : A → result bool) (l : list A) : result (list A) :=
  match l with
  | [] => ret []
  | a :: l' =>
      b <- p a ;; rest <- filterM p l' ;; ret (if b then a :: rest else rest)
  end.

Fixpoint foldlM {A B} (f : B → A → result B) (acc : B) (l : list A) : result B :=
  match l with
  | [] => ret acc
  | a :: l' => acc' <- f acc a ;; foldlM f acc' l'
  end.

(** [for a in l: check(a)], the checks raising or passing. *)
Fixpoint forM_ {A} (f : A → result unit) (l : list A) : result unit :=
  match l with
  | [] => ret ()
  | a :: l' => f a ;;; forM_ f l'
  end.

(** [{k: v for k, v in r.items() if k not in c}]. *)
Definition dict_without (c : pyval) (r : record) : result record :=
  kept <- filterM (λ kv : string * pyval, b <- py_in kv.1 c ;; ret (negb b))
                  (map_to_list r) ;;
  ret (list_to_map kept).

(** [l[0]]. *)
Definition first {A} (l : list A) : result A :=
  match l with
  | a :: _ => ret a
  | [] => raise (IndexError "list index out of range")
  end.

(** ** The collaborators *)

(** What the runner's [call_llm] returns. *)
Record llm_result (response cost : Type) : Type := LLMResult {
  response_of : response;
  total_cost : cost;
  validated : bool;
}.
Arguments LLMResult {_ _} _ _ _.
Arguments response_of {_ _} _.
Arguments total_cost {_ _} _.
Arguments validated {_ _} _.

(** The [validation_config] dict handed to [call_llm]. *)
Record validation_config (response : Type) : Type := ValidationConfig {
  num_retries : pyval;
  val_rule : pyval;
  validation_fn : response → result (record * bool);
}.
Arguments ValidationConfig {_} _ _ _.
Arguments num_retries {_} _.
Arguments val_rule {_} _.
Arguments validation_fn {_} _.

(** One chat message: a dict with a role and a content. *)
Record message : Type := Message { role : string; content : string }.

(** A [Tool] object of [docetl.base_schemas]: its [function] attribute is a
    [ToolFunction] or some other object. *)
Inductive tool_function : Type :=
| ToolFunction (name description parameters : pyval)
| NotToolFunction (v : pyval).

Record tool : Type := Tool { tool_code : pyval; tool_fn : tool_function }.

(** The object pydantic builds from the configuration for
    [MapOperation.schema]; only the fields [syntax_check] reads. *)
Record map_schema : Type := MapSchema {
  sc_output : pyval;
  sc_prompt : pyval;
  sc_model : pyval;
  sc_tools : pyval;
  sc_drop_keys : pyval;
}.

(** Everything [map.py] imports or inherits.  [from_string autoescape src]
    is [Environment(autoescape=...).from_string(src)]; [render t kwargs] is
    [t.render] applied to the keyword arguments [kwargs].  [call_llm] takes
    the positional arguments, the plain keyword arguments as a dict, and
    the validation directive.

    [render_item t item] is [t.render(input=item)] seen from the dict
    object [item]: what the call returns or raises, and the contents of the
    dict when the call is over.  The module uses jinja2's plain
    environment, in which an expression of the template can call a method
    of the dict, [input.pop('k')] for one.  [init_max_batch_size] is the
    keyword argument [max_batch_size] given to the constructor of the
    operation, if any. *)
Class Env : Type := {
  cost : Type;
  cost_zero : cost;
  cost_add : cost → cost → cost;
  response : Type;
  template : Type;
  from_string : bool → pyval → result template;
  render : template → gmap string pyval → result string;
  render_item : template → record → result string * record;
  init_max_batch_size : option pyval;
  call_llm : pyval → string → list message → pyval → gmap string pyval →
             option (validation_config response) →
             result (llm_result response cost);
  parse_llm_response : response → pyval → pyval → pyval → result (list record);
  validate_output : config → record → result bool;
  default_model : pyval;
  manually_fix_errors : pyval;
  num_retries_on_validate_failure : pyval;
  gleaning_check : config → result unit;
  pydantic_fields : config → result map_schema;
  tool_init : pyval → result tool;
}.

(** ** The module's functions *)

Section operations.
Context `{Env}.

(** [Template(src)]: jinja2's default environment, which does not escape. *)
Definition Template (src : pyval) : result template := from_string false src.

(** [render_jinja_template(template_string, data)]. *)
Definition render_jinja_template (template_string : pyval) (data : record)
  : result string :=
  if negb (truthy (PDict data)) then ret ""
  else
    tpl <- from_string true template_string ;;
    render tpl {["input" := PDict data]}.

(** *** MapOperation *)

(** The [field_validator] of [drop_keys]. *)
Definition validate_drop_keys (v : pyval) : pyval :=
  match v with
  | PStr _ => PList [v]
  | _ => v
  end.

(** Building [self.schema] from [self.config]: pydantic validates the declared fields,
    then runs the field validator on [drop_keys]. *)
Definition schema_init (cfg : config) : result map_schema :=
  c <- pydantic_fields cfg ;;
  ret (MapSchema (sc_output c) (sc_prompt c) (sc_model c) (sc_tools c)
                 (validate_drop_keys (sc_drop_keys c))).

(** The body of the loop over [config.tools]. *)
Definition check_tool (t : pyval) : result unit :=
  tool_obj <- match tool_init t with
              | inl _ => raise (TypeError "Tool must be a dictionary")
              | inr o => ret o
              end ;;
  let function_truthy :=
    match tool_fn tool_obj with
    | ToolFunction _ _ _ => true
    | NotToolFunction v => truthy v
    end in
  (if negb (truthy (tool_code tool_obj) && function_truthy)
   then raise (ValueError "Tool is missing required 'code' or 'function' key")
   else ret ()) ;;;
  match tool_fn tool_obj with
  | NotToolFunction _ => raise (TypeError "'function' in tool must be a dictionary")
  | ToolFunction name description parameters =>
      forM_ (λ kv : string * pyval,
               if negb (truthy kv.2)
               then raise (ValueError ("Tool is missing required '" +:+ kv.1
                                       +:+ "' in 'function'"))
               else ret ())
            [("name", name); ("description", description);
             ("parameters", parameters)]
  end.

(** [MapOperation.syntax_check], after the schema object is built. *)
Definition map_syntax_check_body (cfg : config) (c : map_schema) : result unit :=
  (if truthy (sc_drop_keys c) then
     keys <- py_iter (sc_drop_keys c) ;;
     if existsb (λ key, negb (is_str key)) keys
     then raise (TypeError "All items in 'drop_keys' must be strings")
     else ret ()
   else if negb (truthy (sc_prompt c) && truthy (sc_output c)) then
     raise (ValueError "If 'drop_keys' is not specified, both 'prompt' and 'output' must be present in the configuration")
   else ret ()) ;;;
  if truthy (sc_prompt c) || truthy (sc_output c) then
    forM_ (λ kv : string * pyval,
             if negb (truthy kv.2)
             then raise (ValueError ("Missing required key '" +:+ kv.1
                                     +:+ "' in MapOperation configuration"))
             else ret ())
          [("prompt", sc_prompt c); ("output", sc_output c)] ;;;
    (if truthy (sc_output c) then
       schema <- py_getitem (sc_output c) "schema" ;;
       if negb (truthy schema)
       then raise (ValueError "Missing 'schema' in 'output' configuration")
       else ret ()
     else ret ()) ;;;
    (if truthy (sc_prompt c) then
       match Template (sc_prompt c) with
       | inl e => raise (ValueError ("Invalid Jinja2 template in 'prompt': "
                                     +:+ exn_str e))
       | inr _ => ret ()
       end
     else ret ()) ;;;
    (if truthy (sc_model c) && negb (is_str (sc_model c))
     then raise (TypeError "'model' in configuration must be a string")
     else ret ()) ;;;
    (if truthy (sc_tools c) then
       tools <- py_iter (sc_tools c) ;; forM_ check_tool tools
     else ret ()) ;;;
    gleaning_check cfg
  else ret ().

Definition map_syntax_check (cfg : config) : result unit :=
  c <- schema_init cfg ;; map_syntax_check_body cfg c.

(** The plain keyword arguments of the [call_llm] call in
    [_process_map_item]. *)
Definition map_call_kwargs (cfg : config) : gmap string pyval :=
  list_to_map
    [("tools", dict_get cfg "tools" PNone);
     ("scratchpad", PNone);
     ("timeout_seconds", dict_get cfg "timeout" (PInt 120));
     ("max_retries_per_timeout", dict_get cfg "max_retries_per_timeout" (PInt 2));
     ("gleaning_config", dict_get cfg "gleaning" PNone);
     ("verbose", dict_get cfg "verbose" (PBool false));
     ("bypass_cache", dict_get cfg "bypass_cache" (PBool false))].

(** [self.config["output"]["schema"]]. *)
Definition cfg_output_schema (cfg : config) : result pyval :=
  out <- cfg_item cfg "output" ;; py_getitem out "schema".

(** The closure [validation_fn] of [_process_map_item]. *)
Definition map_validation_fn (cfg : config) (item : record) (resp : response)
  : result (record * bool) :=
  schema <- cfg_output_schema cfg ;;
  outs <- parse_llm_response resp schema (dict_get cfg "tools" PNone)
                             manually_fix_errors ;;
  output <- first outs ;;
  output <- foldlM (λ (out : record) (kv : string * pyval),
                      schema <- cfg_output_schema cfg ;;
                      b <- py_in kv.1 schema ;;
                      ret (if b then out else <[kv.1 := kv.2]> out))
                   output (map_to_list item) ;;
  ok <- validate_output cfg output ;;
  ret (output, ok).

(** The prompt [_process_map_item] renders for an item. *)
Definition map_item_prompt (cfg : config) (item : record) : result string :=
  src <- cfg_item cfg "prompt" ;;
  prompt_template <- Template src ;;
  render prompt_template {["input" := PDict item]}.

(** The [call_llm] call of [_process_map_item]: render the prompt, read
    the schema, invoke the model.  (The rate limiter's [try_acquire] before
    the call only delays it.) *)
Definition map_item_call (cfg : config) (item : record)
  : result (llm_result response cost) :=
  prompt <- map_item_prompt cfg item ;;
  schema <- cfg_output_schema cfg ;;
  call_llm (dict_get cfg "model" default_model) "map"
           [Message "user" prompt] schema (map_call_kwargs cfg)
           (if truthy (dict_get cfg "validate" PNone)
            then Some (ValidationConfig num_retries_on_validate_failure
                                        (dict_get cfg "validate" (PList []))
                                        (map_validation_fn cfg item))
            else None).

(** The same call, for a prompt that is already rendered. *)
Definition map_item_invoke (cfg : config) (item : record) (prompt : string)
  : result (llm_result response cost) :=
  schema <- cfg_output_schema cfg ;;
  call_llm (dict_get cfg "model" default_model) "map"
           [Message "user" prompt] schema (map_call_kwargs cfg)
           (if truthy (dict_get cfg "validate" PNone)
            then Some (ValidationConfig num_retries_on_validate_failure
                                        (dict_get cfg "validate" (PList []))
                                        (map_validation_fn cfg item))
            else None).

(** Parsing the final response of a validated result. *)
Definition map_item_parse (cfg : config) (resp : response) : result record :=
  schema <- cfg_output_schema cfg ;;
  outs <- parse_llm_response resp schema (dict_get cfg "tools" PNone)
                             manually_fix_errors ;;
  first outs.

(** [_process_map_item(item)]: the record to emit, if any, and the cost. *)
Definition process_map_item (cfg : config) (item : record)
  : result (option record * cost) :=
  llm_result <- map_item_call cfg item ;;
  if validated llm_result then
    output <- map_item_parse cfg (response_of llm_result) ;;
    ret (Some (output ∪ item), total_cost llm_result)
  else ret (None, total_cost llm_result).

(** *** The worker pool

    [executor.submit] is called for every unit up front; the units then
    complete in an order the pool chooses.  [order] lists the unit indices
    in completion order; a slot holds a unit's outcome once it completed. *)
Definition pool_run {T A} (order : list nat) (f : T → A) (units : list T)
  : list (option A) :=
  foldl (λ slots i,
           match units !! i with
           | Some u => <[i := Some (f u)]> slots
           | None => slots
           end)
        (replicate (length units) None) order.

(** [futures[i].result()]: the outcome of unit [i], re-raising what the unit
    raised.  The pool completes every unit, so no slot read here is empty in
    a run of the program; the model gives an empty slot an error value. *)
Definition future_result {A} (slots : list (option (result A))) (i : nat)
  : result A :=
  match slots !! i with
  | Some (Some r) => r
  | _ => raise (External "concurrent.futures" "future never completes")
  end.

(** The projection applied to a record before it is appended to the
    results. *)
Definition map_emit (cfg : config) (res : record) : result record :=
  match cfg !! "drop_keys" with
  | Some drop_keys => dict_without drop_keys res
  | None => ret res
  end.

(** The loop of [MapOperation.execute] that drains the futures. *)
Fixpoint map_collect (cfg : config)
    (slots : list (option (result (option record * cost))))
    (indices : list nat) (results : list record) (total : cost)
  : result (list record * cost) :=
  match indices with
  | [] => ret (results, total)
  | i :: rest =>
      r <- future_result slots i ;;
      results <-
        match r.1 with
        | Some res => res <- map_emit cfg res ;; ret (results ++ [res])%list
        | None => ret results
        end ;;
      map_collect cfg slots rest results (cost_add total r.2)
  end.

(** [self.max_batch_size], as [MapOperation.__init__] sets it:
    [config.get("max_batch_size", kwargs.get("max_batch_size", float("inf")))]. *)
Inductive pool_size : Type :=
| Unbounded
| Workers (v : pyval).

Definition map_max_batch_size (cfg : config) : pool_size :=
  match cfg !! "max_batch_size" with
  | Some v => Workers v
  | None =>
      match init_max_batch_size with
      | Some v => Workers v
      | None => Unbounded
      end
  end.

(** [ThreadPoolExecutor(max_workers=n)]: [None] stands for the default
    number of workers; any other value is compared with zero, which
    raises [TypeError] on a value that is not a number and [ValueError] on
    a number that is not positive. *)
Definition thread_pool (n : pool_size) : result unit :=
  match n with
  | Unbounded | Workers PNone => ret ()
  | Workers (PInt z) =>
      if (z <=? 0)%Z then raise (ValueError "max_workers must be greater than 0")
      else ret ()
  | Workers (PBool b) =>
      if b then ret ()
      else raise (ValueError "max_workers must be greater than 0")
  | Workers v =>
      raise (TypeError ("'<=' not supported between instances of '"
                        +:+ type_name v +:+ "' and 'int'"))
  end.

(** [MapOperation.execute(input_data)], the units completing in [order].
    Off the fast path the pool is built first, every unit is submitted,
    and the progress bar is built, with [self.config['name']] in its
    description, before the first future is awaited; when that read
    raises, the pool still completes the units before the exception
    leaves the [with] block. *)
Definition map_execute (order : list nat) (cfg : config)
    (input_data : list record) : result (list record * cost) :=
  match cfg !! "prompt", cfg !! "drop_keys" with
  | None, Some drop_keys =>
      dropped_results <- mapM (dict_without drop_keys) input_data ;;
      ret (dropped_results, cost_zero)
  | _, _ =>
      thread_pool (map_max_batch_size cfg) ;;;
      let futures := pool_run order (process_map_item cfg) input_data in
      cfg_item cfg "name" ;;;
      map_collect cfg futures (seq 0 (length input_data)) [] cost_zero
  end.

(** *** ParallelMapOperation *)

(** The per-entry checks of [ParallelMapOperation.syntax_check] on entry
    [i] of [prompts]. *)
Definition pm_check_prompt_config (i : nat) (prompt_config : pyval)
  : result unit :=
  match prompt_config with
  | PDict d =>
      forM_ (λ key : string,
               if negb (has_key d key)
               then raise (ValueError ("Missing required key '" +:+ key
                             +:+ "' in prompt configuration " +:+ pretty i))
               else ret ())
            ["prompt"; "output_keys"] ;;;
      prompt <- py_getitem prompt_config "prompt" ;;
      (if negb (is_str prompt)
       then raise (TypeError ("'prompt' in prompt configuration " +:+ pretty i
                              +:+ " must be a string"))
       else ret ()) ;;;
      output_keys <- py_getitem prompt_config "output_keys" ;;
      (if negb (is_list output_keys)
       then raise (TypeError ("'output_keys' in prompt configuration "
                              +:+ pretty i +:+ " must be a list"))
       else ret ()) ;;;
      (if negb (truthy output_keys)
       then raise (ValueError ("'output_keys' list in prompt configuration "
                               +:+ pretty i +:+ " cannot be empty"))
       else ret ()) ;;;
      match Template prompt with
      | inl e => raise (ValueError ("Invalid Jinja2 template in prompt configuration "
                                    +:+ pretty i +:+ ": " +:+ exn_str e))
      | inr _ => ret ()
      end ;;;
      match d !! "model" with
      | Some model =>
          if negb (is_str model)
          then raise (TypeError ("'model' in prompt configuration " +:+ pretty i
                                 +:+ " must be a string"))
          else ret ()
      | None => ret ()
      end
  | _ => raise (TypeError ("Prompt configuration " +:+ pretty i
                           +:+ " must be a dictionary"))
  end.

(** [output_keys_covered.update(prompt_config["output_keys"])].  The set
    collects the covered keys; an element that is not a string is hashed
    (an unhashable one raises) and can equal no key of the schema, so the
    model keeps the strings. *)
Definition pm_cover (covered : gset string) (prompt_config : pyval)
  : result (gset string) :=
  output_keys <- py_getitem prompt_config "output_keys" ;;
  keys <- py_iter output_keys ;;
  foldlM (λ (acc : gset string) (key : pyval),
            match key with
            | PStr k => ret (acc ∪ {[k]})
            | _ => if hashable key then ret acc
                   else raise (unhashable_error key)
            end)
         covered keys.

(** The text of a set of keys inside a message (Python prints the elements
    of a set in an order of its own). *)
Definition repr_keys (keys : gset string) : string :=
  "{" +:+ String.concat ", " ((λ k, "'" +:+ k +:+ "'") <$> elements keys) +:+ "}".

(** The coverage check that ends [ParallelMapOperation.syntax_check]. *)
Definition pm_check_coverage (cfg : config) (prompts : list pyval)
  : result unit :=
  output_schema <- cfg_output_schema cfg ;;
  output_keys_covered <- foldlM pm_cover ∅ prompts ;;
  schema_keys <- match output_schema with
                 | PDict d => ret (dom d)
                 | _ => raise (AttributeError "object has no attribute 'keys'")
                 end ;;
  let missing_keys : gset string := schema_keys ∖ output_keys_covered in
  if negb (bool_decide (missing_keys = ∅))
  then raise (ValueError ("The following output schema keys are not covered by any prompt: "
                          +:+ repr_keys missing_keys))
  else ret ().

(** The first block of [ParallelMapOperation.syntax_check]: [drop_keys], or
    the presence of [prompts]. *)
Definition pm_check_drop_keys (cfg : config) : result unit :=
  match cfg !! "drop_keys" with
  | Some drop_keys =>
      if negb (is_list drop_keys)
      then raise (TypeError "'drop_keys' in configuration must be a list of strings")
      else
        keys <- py_iter drop_keys ;;
        forM_ (λ key, if negb (is_str key)
                      then raise (TypeError "All items in 'drop_keys' must be strings")
                      else ret ())
              keys
  | None =>
      if negb (has_key cfg "prompts")
      then raise (ValueError "If 'drop_keys' is not specified, 'prompts' must be present in the configuration")
      else ret ()
  end.

(** The checks on the [prompts] list and on each of its entries. *)
Definition pm_check_entries (prompts : list pyval) : result unit :=
  (if negb (truthy (PList prompts))
   then raise (ValueError "The 'prompts' list cannot be empty")
   else ret ()) ;;;
  forM_ (λ ip : nat * pyval, pm_check_prompt_config ip.1 ip.2)
        (imap pair prompts).

(** [ParallelMapOperation.syntax_check]. *)
Definition pm_syntax_check (cfg : config) : result unit :=
  pm_check_drop_keys cfg ;;;
  match cfg !! "prompts" with
  | Some (PList prompts) =>
      pm_check_entries prompts ;;;
      pm_check_coverage cfg prompts
  | Some _ =>
      raise (ValueError "ParallelMapOperation requires a 'prompts' list in the configuration")
  | None => ret ()
  end.

(** [self.config.get("output", {}).get("schema", {})]. *)
Definition pm_output_schema (cfg : config) : result pyval :=
  match dict_get cfg "output" (PDict ∅) with
  | PDict d => ret (dict_get d "schema" (PDict ∅))
  | _ => raise (AttributeError "object has no attribute 'get'")
  end.

(** [output_schema[key]] for an element [key] of [output_keys].  In a dict
    a key that is not a string finds nothing.  Indexing a schema that is a
    str or a list by position is not modelled: the model raises the
    [TypeError] a string key gets there. *)
Definition schema_item (output_schema : pyval) (key : pyval) : result pyval :=
  match key with
  | PStr k => py_getitem output_schema k
  | _ =>
      match output_schema with
      | PDict _ => if hashable key then raise (KeyError key)
                   else raise (unhashable_error key)
      | PStr _ | PList _ => raise (TypeError "indices must be integers")
      | _ => raise (TypeError "object is not subscriptable")
      end
  end.

(** [{key: output_schema[key] for key in prompt_config["output_keys"]}]. *)
Definition local_schema (output_schema : pyval) (keys : list pyval)
  : result (gmap string pyval) :=
  foldlM (λ (acc : gmap string pyval) (key : pyval),
            v <- schema_item output_schema key ;;
            ret (match key with PStr k => <[k := v]> acc | _ => acc end))
         ∅ keys.

(** [prompt_config.get(k, dflt)]. *)
Definition py_get (c : pyval) (k : string) (dflt : pyval) : result pyval :=
  match c with
  | PDict d => ret (dict_get d k dflt)
  | _ => raise (AttributeError "object has no attribute 'get'")
  end.

(** What [process_prompt] does with the rendered prompt. *)
Definition process_prompt_call (cfg : config) (output_schema : pyval)
    (prompt_config : pyval) (prompt : string) : result (record * cost) :=
  output_keys <- py_getitem prompt_config "output_keys" ;;
  keys <- py_iter output_keys ;;
  local_output_schema <- local_schema output_schema keys ;;
  model <- py_get prompt_config "model" default_model ;;
  tools <- py_get prompt_config "tools" PNone ;;
  resp <- call_llm model "parallel_map" [Message "user" prompt]
            (PDict local_output_schema)
            (list_to_map
               [("tools", tools);
                ("timeout_seconds", dict_get cfg "timeout" (PInt 120));
                ("max_retries_per_timeout",
                 dict_get cfg "max_retries_per_timeout" (PInt 2));
                ("bypass_cache", dict_get cfg "bypass_cache" (PBool false))])
            None ;;
  tools <- py_get prompt_config "tools" PNone ;;
  outs <- parse_llm_response (response_of resp) (PDict local_output_schema)
                             tools manually_fix_errors ;;
  output <- first outs ;;
  ret (output, total_cost resp).

(** [process_prompt(item, prompt_config)]. *)
Definition process_prompt (cfg : config) (output_schema : pyval)
    (unit_ : record * pyval) : result (record * cost) :=
  let item := unit_.1 in
  let prompt_config := unit_.2 in
  src <- py_getitem prompt_config "prompt" ;;
  prompt <- render_jinja_template src item ;;
  output_keys <- py_getitem prompt_config "output_keys" ;;
  keys <- py_iter output_keys ;;
  local_output_schema <- local_schema output_schema keys ;;
  model <- py_get prompt_config "model" default_model ;;
  tools <- py_get prompt_config "tools" PNone ;;
  resp <- call_llm model "parallel_map" [Message "user" prompt]
            (PDict local_output_schema)
            (list_to_map
               [("tools", tools);
                ("timeout_seconds", dict_get cfg "timeout" (PInt 120));
                ("max_retries_per_timeout",
                 dict_get cfg "max_retries_per_timeout" (PInt 2));
                ("bypass_cache", dict_get cfg "bypass_cache" (PBool false))])
            None ;;
  tools <- py_get prompt_config "tools" PNone ;;
  outs <- parse_llm_response (response_of resp) (PDict local_output_schema)
                             tools manually_fix_errors ;;
  output <- first outs ;;
  ret (output, total_cost resp).

(** The units submitted to the pool: item-major, prompt-minor. *)
Definition pm_units (prompts : pyval) (input_data : list record)
  : result (list (record * pyval)) :=
  blocks <- mapM (λ item : record,
                    prompt_configs <- py_iter prompts ;;
                    ret ((λ pc, (item, pc)) <$> prompt_configs))
                 input_data ;;
  ret (concat blocks).

(** [input_data[i]]. *)
Definition list_item {A} (l : list A) (i : nat) : result A :=
  match l !! i with
  | Some a => ret a
  | None => raise (IndexError "list index out of range")
  end.

(** The loop of [ParallelMapOperation.execute] that folds the partial
    outputs into the per-item results. *)
Fixpoint pm_collect (prompts : pyval) (input_data : list record)
    (slots : list (option (result (record * cost)))) (indices : list nat)
    (results : gmap nat record) (total : cost)
  : result (gmap nat record * cost) :=
  match indices with
  | [] => ret (results, total)
  | i :: rest =>
      r <- future_result slots i ;;
      let total := cost_add total r.2 in
      n <- py_len prompts ;;
      (if bool_decide (n = 0) then raise ZeroDivisionError else ret ()) ;;;
      let item_index := i `div` n in
      let prompt_index := i `mod` n in
      results <-
        (if bool_decide (prompt_index = 0) then
           item <- list_item input_data item_index ;;
           ret (<[item_index := item]> results)
         else ret results) ;;
      item_result <- match results !! item_index with
                     | Some it => ret it
                     | None => raise (KeyError (PInt (Z.of_nat item_index)))
                     end ;;
      pm_collect prompts input_data slots rest
                 (<[item_index := r.1 ∪ item_result]> results) total
  end.

(** [item.pop(key, None)] for every [key] of [drop_keys].  On an empty
    dict [pop] returns the default without hashing the key; otherwise a
    key that cannot be hashed raises. *)
Definition pop_keys (drop_keys : pyval) (item : record) : result record :=
  keys <- py_iter drop_keys ;;
  foldlM (λ (it : record) (key : pyval),
            match key with
            | PStr k => ret (delete k it)
            | _ => if hashable key || bool_decide (it = ∅) then ret it
                   else raise (unhashable_error key)
            end)
         item keys.

(** [ParallelMapOperation.execute(input_data)], the units completing in
    [order].  The size of its pool, [self.max_threads], is set by
    [BaseOperation], which the module imports: the pool is taken as
    built. *)
Definition pm_execute (order : list nat) (cfg : config)
    (input_data : list record) : result (list record * cost) :=
  output_schema <- pm_output_schema cfg ;;
  match cfg !! "prompts", cfg !! "drop_keys" with
  | None, Some drop_keys =>
      dropped_results <- mapM (dict_without drop_keys) input_data ;;
      ret (dropped_results, cost_zero)
  | prompts_opt, drop_opt =>
      rc <- match prompts_opt with
            | Some prompts =>
                units <- pm_units prompts input_data ;;
                let all_futures :=
                  pool_run order (process_prompt cfg output_schema) units in
                pm_collect prompts input_data all_futures
                           (seq 0 (length units)) ∅ cost_zero
            | None => ret (map_seq 0 input_data, cost_zero)
            end ;;
      results <- match drop_opt with
                 | Some drop_keys =>
                     entries <- mapM (λ ir : nat * record,
                                        item <- pop_keys drop_keys ir.2 ;;
                                        ret (ir.1, item))
                                     (map_to_list rc.1) ;;
                     ret (list_to_map entries)
                 | None => ret rc.1
                 end ;;
      ret (omap (λ i, results !! i) (seq 0 (length input_data)), rc.2)
  end.

End operations.

(** ** The same operations on a store of records

    [execute] receives references to the caller's dicts.  To follow what
    happens to them, a store holds the dicts, a location is a position in
    it, and every step of [execute] is a read, an allocation or a write;
    the store is kept when an exception is raised. *)

Abbreviation loc := nat.
Abbreviation store := (list record).

Definition st (A : Type) : Type := store → result A * store.

Definition st_ret {A} (a : A) : st A := λ s, (inr a, s).
Definition st_bind {A B} (m : st A) (k : A → st B) : st B :=
  λ s, match m s with
       | (inl e, s') => (inl e, s')
       | (inr a, s') => k a s'
       end.
Definition st_lift {A} (r : result A) : st A := λ s, (r, s).

Notation "x <~ m ;; k" := (st_bind m (λ x, k))
  (at level 100, m at next level, right associativity,
   format "'[v' x  <~  m  ;;  '/' k ']'") : py_scope.

(** Reading the dict behind a reference. *)
Definition st_read (l : loc) : st record :=
  λ s, match s !! l with
       | Some r => (inr r, s)
       | None => (inl (External "store" "dangling reference"), s)
       end.

(** A new dict object. *)
Definition st_alloc (r : record) : st loc :=
  λ s, (inr (length s), s ++ [r])%list.

(** Mutating a dict in place. *)
Definition st_write (l : loc) (r : record) : st unit :=
  λ s, (inr (), <[l := r]> s).

Fixpoint st_mapM {A B} (f : A → st B) (l : list A) : st (list B) :=
  match l with
  | [] => st_ret []
  | a :: l' => b <~ f a ;; bs <~ st_mapM f l' ;; st_ret (b :: bs)
  end.

Fixpoint st_foldlM {A B} (f : B → A → st B) (acc : B) (l : list A) : st B :=
  match l with
  | [] => st_ret acc
  | a :: l' => acc' <~ f acc a ;; st_foldlM f acc' l'
  end.

Section store_operations.
Context `{Env}.

(** The dict comprehension of the fast path: a new dict per item. *)
Definition drop_item_st (drop_keys : pyval) (ref : loc) : st loc :=
  item <~ st_read ref ;;
  new_item <~ st_lift (dict_without drop_keys item) ;;
  st_alloc new_item.

(** [t.render(input=item)] for the dict at [ref]: the template is handed
    the dict itself, and the dict is afterwards what the rendering left. *)
Definition st_render (tpl : template) (ref : loc) : st string :=
  λ s, match s !! ref with
       | Some item =>
           let (r, item') := render_item tpl item in (r, <[ref := item']> s)
       | None => (inl (External "store" "dangling reference"), s)
       end.

(** [_process_map_item(item)]: the template renders the caller's dict; the
    validation function and the merge read that dict afterwards; the merge
    builds a new dict. *)
Definition process_map_item_st (cfg : config) (ref : loc)
  : st (option loc * cost) :=
  src <~ st_lift (cfg_item cfg "prompt") ;;
  prompt_template <~ st_lift (Template src) ;;
  prompt <~ st_render prompt_template ref ;;
  item <~ st_read ref ;;
  llm_result <~ st_lift (map_item_invoke cfg item prompt) ;;
  if validated llm_result then
    output <~ st_lift (map_item_parse cfg (response_of llm_result)) ;;
    merged <~ st_alloc (output ∪ item) ;;
    st_ret (Some merged, total_cost llm_result)
  else st_ret (None, total_cost llm_result).

(** The pool: the units run in [order], each on the store the units before
    it left; what a unit raises is kept in its slot. *)
Definition pool_run_st {T A} (order : list nat) (f : T → st A)
    (units : list T) (s : store) : list (option (result A)) * store :=
  foldl (λ (acc : list (option (result A)) * store) i,
           match units !! i with
           | Some u => let (r, s') := f u acc.2 in (<[i := Some r]> acc.1, s')
           | None => acc
           end)
        (replicate (length units) None, s) order.

Fixpoint map_collect_st (cfg : config)
    (slots : list (option (result (option loc * cost))))
    (indices : list nat) (results : list loc) (total : cost)
  : st (list loc * cost) :=
  match indices with
  | [] => st_ret (results, total)
  | i :: rest =>
      r <~ st_lift (future_result slots i) ;;
      results <~
        match r.1 with
        | Some ref =>
            match cfg !! "drop_keys" with
            | Some drop_keys =>
                new <~ drop_item_st drop_keys ref ;;
                st_ret (results ++ [new])%list
            | None => st_ret (results ++ [ref])%list
            end
        | None => st_ret results
        end ;;
      map_collect_st cfg slots rest results (cost_add total r.2)
  end.

(** [MapOperation.execute] on references to the input records. *)
Definition map_execute_st (order : list nat) (cfg : config)
    (input_data : list loc) : st (list loc * cost) :=
  match cfg !! "prompt", cfg !! "drop_keys" with
  | None, Some drop_keys =>
      dropped_results <~ st_mapM (drop_item_st drop_keys) input_data ;;
      st_ret (dropped_results, cost_zero)
  | _, _ =>
      _ <~ st_lift (thread_pool (map_max_batch_size cfg)) ;;
      λ s,
        let (futures, s') :=
          pool_run_st order (process_map_item_st cfg) input_data s in
        (_ <~ st_lift (cfg_item cfg "name") ;;
         map_collect_st cfg futures (seq 0 (length input_data)) [] cost_zero)
          s'
  end.

(** [render_jinja_template(template_string, data)] for the dict at [ref]. *)
Definition render_jinja_template_st (template_string : pyval) (ref : loc)
  : st string :=
  data <~ st_read ref ;;
  if negb (truthy (PDict data)) then st_ret ""
  else
    tpl <~ st_lift (from_string true template_string) ;;
    st_render tpl ref.

(** [process_prompt(item, prompt_config)]: the template renders the
    caller's dict; the parsed output is a value of its own. *)
Definition process_prompt_st (cfg : config) (output_schema : pyval)
    (unit_ : loc * pyval) : st (record * cost) :=
  src <~ st_lift (py_getitem unit_.2 "prompt") ;;
  prompt <~ render_jinja_template_st src unit_.1 ;;
  st_lift (process_prompt_call cfg output_schema unit_.2 prompt).

Definition pm_units_st (prompts : pyval) (input_data : list loc)
  : result (list (loc * pyval)) :=
  blocks <- mapM (λ ref : loc,
                    prompt_configs <- py_iter prompts ;;
                    ret ((λ pc, (ref, pc)) <$> prompt_configs))
                 input_data ;;
  ret (concat blocks).

(** The reassembly loop: [results] maps an item index to the reference of
    its accumulator, a copy of the input dict that [update] mutates. *)
Fixpoint pm_collect_st (prompts : pyval) (input_data : list loc)
    (slots : list (option (result (record * cost)))) (indices : list nat)
    (results : gmap nat loc) (total : cost) : st (gmap nat loc * cost) :=
  match indices with
  | [] => st_ret (results, total)
  | i :: rest =>
      r <~ st_lift (future_result slots i) ;;
      let total := cost_add total r.2 in
      n <~ st_lift (py_len prompts) ;;
      _ <~ st_lift (if bool_decide (n = 0) then raise ZeroDivisionError
                    else ret ()) ;;
      let item_index := i `div` n in
      let prompt_index := i `mod` n in
      results <~
        (if bool_decide (prompt_index = 0) then
           ref <~ st_lift (list_item input_data item_index) ;;
           item <~ st_read ref ;;
           item_result <~ st_alloc item ;;
           st_ret (<[item_index := item_result]> results)
         else st_ret results) ;;
      item_result <~ st_lift (match results !! item_index with
                              | Some l => ret l
                              | None => raise (KeyError (PInt (Z.of_nat item_index)))
                              end) ;;
      current <~ st_read item_result ;;
      _ <~ st_write item_result (r.1 ∪ current) ;;
      pm_collect_st prompts input_data slots rest results total
  end.

(** [for key in drop_keys: item.pop(key, None)] on the dict at [ref]. *)
Definition pop_keys_st (drop_keys : pyval) (ref : loc) : st unit :=
  keys <~ st_lift (py_iter drop_keys) ;;
  _ <~ st_foldlM (λ (_ : unit) (key : pyval),
                    match key with
                    | PStr k =>
                        item <~ st_read ref ;; st_write ref (delete k item)
                    | _ =>
                        if hashable key then st_ret ()
                        else
                          item <~ st_read ref ;;
                          if bool_decide (item = ∅) then st_ret ()
                          else st_lift (raise (unhashable_error key))
                    end)
                 () keys ;;
  st_ret ().

(** [ParallelMapOperation.execute] on references to the input records. *)
Definition pm_execute_st (order : list nat) (cfg : config)
    (input_data : list loc) : st (list loc * cost) :=
  output_schema <~ st_lift (pm_output_schema cfg) ;;
  match cfg !! "prompts", cfg !! "drop_keys" with
  | None, Some drop_keys =>
      dropped_results <~ st_mapM (drop_item_st drop_keys) input_data ;;
      st_ret (dropped_results, cost_zero)
  | prompts_opt, drop_opt =>
      rc <~ match prompts_opt with
            | Some prompts =>
                units <~ st_lift (pm_units_st prompts input_data) ;;
                λ s,
                  let (all_futures, s') :=
                    pool_run_st order (process_prompt_st cfg output_schema)
                                units s in
                  pm_collect_st prompts input_data all_futures
                                (seq 0 (length units)) ∅ cost_zero s'
            | None =>
                copies <~ st_mapM (λ ref, item <~ st_read ref ;; st_alloc item)
                                  input_data ;;
                st_ret (map_seq 0 copies, cost_zero)
            end ;;
      _ <~ match drop_opt with
           | Some drop_keys =>
               refs <~ st_mapM (pop_keys_st drop_keys) (map_to_list rc.1).*2 ;;
               st_ret ()
           | None => st_ret ()
           end ;;
      st_ret (omap (λ i, rc.1 !! i) (seq 0 (length input_data)), rc.2)
  end.

End store_operations.

(** ** What the operations are compared with *)

(** The strings among the elements of a list. *)
Definition str_elements (l : list pyval) : list string :=
  omap (λ v, match v with PStr k => Some k | _ => None end) l.

(** A record with the fields named in [names] removed. *)
Definition remove_fields (names : list string) (r : record) : record :=
  foldr delete r names.

(** The keys an entry of [prompts] declares, and their union over the
    entries. *)
Definition prompt_output_keys (prompt_config : pyval) : gset string :=
  match prompt_config with
  | PDict d =>
      match d !! "output_keys" with
      | Some (PList keys) => list_to_set (str_elements keys)
      | _ => ∅
      end
  | _ => ∅
  end.

Definition output_keys_union (prompts : list pyval) : gset string :=
  ⋃ (prompt_output_keys <$> prompts).

(** Every declared output key can be put in a set. *)
Definition output_keys_hashable (prompts : list pyval) : bool :=
  forallb (λ pc, match pc with
                 | PDict d =>
                     match d !! "output_keys" with
                     | Some (PList keys) => forallb hashable keys
                     | _ => true
                     end
                 | _ => true
                 end) prompts.


Section item_functions.
Context `{Env}.






(** An entry of [prompts] that the per-entry checks accept. *)
Definition pm_entry_ok (prompt_config : pyval) : Prop :=
  ∃ d src keys,
    prompt_config = PDict d
    ∧ d !! "prompt" = Some (PStr src)
    ∧ d !! "output_keys" = Some (PList keys)
    ∧ keys ≠ []
    ∧ (∃ tpl, Template (PStr src) = inr tpl)
    ∧ (∀ model, d !! "model" = Some model → is_str model = true).



(** The unit in slot [i] returned the reference [l]. *)
Definition slot_ref (slots : list (option (result (option loc * cost))))
    (i : nat) (l : loc) : Prop :=
  ∃ r : option loc * cost, slots !! i = Some (Some (inr r)) ∧ r.1 = Some l.

(** The references in the slots are dicts among the first [n] of the
    store, and no two slots hold the same one. *)
Definition slots_distinct (slots : list (option (result (option loc * cost))))
    (n : nat) : Prop :=
  (∀ i l, slot_ref slots i l → l < n)
  ∧ (∀ i j l, slot_ref slots i l → slot_ref slots j l → i = j).

End item_functions.

(** The collaborators [E], with the [validated] flag of every invocation
    result replaced by [b] and [validate_output] replaced by [v]. *)
Definition with_validation (E : Env) (b : bool)
    (v : config → record → result bool) : Env :=
  {| cost := @cost E;
     cost_zero := @cost_zero E;
     cost_add := @cost_add E;
     response := @response E;
     template := @template E;
     from_string := @from_string E;
     render := @render E;
     render_item := @render_item E;
     init_max_batch_size := @init_max_batch_size E;
     call_llm := λ model op messages schema kwargs vc,
       r <- @call_llm E model op messages schema kwargs vc ;;
       ret (LLMResult (response_of r) (total_cost r) b);
     parse_llm_response := @parse_llm_response E;
     validate_output := v;
     default_model := @default_model E;
     manually_fix_errors := @manually_fix_errors E;
     num_retries_on_validate_failure := @num_retries_on_validate_failure E;
     gleaning_check := @gleaning_check E;
     pydantic_fields := @pydantic_fields E;
     tool_init := @tool_init E |}.

(** Rendering leaves the record it is given as it was, whatever the
    template. *)
Definition render_keeps_record `{Env} : Prop :=
  ∀ tpl item, (render_item tpl item).2 = item.

(** The template that the single-prompt variant renders for [cfg]. *)
Definition map_template `{Env} (cfg : config) (tpl : template) : Prop :=
  ∃ src, cfg !! "prompt" = Some src ∧ Template src = inr tpl.

(** The templates that the multi-prompt variant renders for [cfg], one for
    each entry of [prompts]. *)
Definition pm_template `{Env} (cfg : config) (tpl : template) : Prop :=
  ∃ prompts pcs pc src,
    cfg !! "prompts" = Some prompts
    ∧ py_iter prompts = inr pcs
    ∧ pc ∈ pcs
    ∧ py_getitem pc "prompt" = inr src
    ∧ from_string true src = inr tpl.

(** Rendering a template of [T] leaves the record it is given as it
    was. *)
Definition templates_keep_record `{Env} (T : template → Prop) : Prop :=
  ∀ tpl item, T tpl → (render_item tpl item).2 = item.

(** Rendering the record as a dict object returns what [render] returns
    for the record. *)
Definition render_item_agrees `{Env} : Prop :=
  ∀ tpl item, (render_item tpl item).1 = render tpl {["input" := PDict item]}.

(** The declared type of the field [drop_keys], [Optional[List[str]]]. *)
Definition drop_keys_declared (v : pyval) : bool :=
  match v with
  | PNone => true
  | PList l => forallb is_str l
  | _ => false
  end.

(** Pydantic checks the declared type of [drop_keys] before it runs the
    field validator, which is declared without a mode: a schema it accepts
    holds the [drop_keys] of the configuration, [None] when there is none,
    and that value is of the declared type. *)
Definition pydantic_checks_drop_keys `{Env} : Prop :=
  ∀ cfg c, pydantic_fields cfg = inr c →
           drop_keys_declared (dict_get cfg "drop_keys" PNone) = true
           ∧ sc_drop_keys c = dict_get cfg "drop_keys" PNone.

(** Every dict of the store [s0] is still there, unchanged, in [s]. *)
Definition store_preserved (s0 s : store) : Prop :=
  ∀ l r, s0 !! l = Some r → s !! l = Some r.

(** A computation that, from any store preserving [s0], leaves a store
    preserving [s0] and returns a value satisfying [Q]. *)
Definition st_frame {A} (s0 : store) (m : st A) (Q : A → Prop) : Prop :=
  ∀ s, store_preserved s0 s →
       store_preserved s0 (m s).2 ∧ ∀ a, (m s).1 = inr a → Q a.

(** A computation that, from any store with at least [n0] dicts, leaves a
    store with at least [n0] dicts and returns a value satisfying [Q]. *)
Definition st_grows {A} (n0 : nat) (m : st A) (Q : A → Prop) : Prop :=
  ∀ s, (n0 ≤ length s)%nat →
       (n0 ≤ length (m s).2)%nat ∧ ∀ a, (m s).1 = inr a → Q a.

(** *** The store model against the functional model *)

(** The dicts behind the references [refs], in the store [s]. *)
Definition reads (s : store) (refs : list loc) (items : list record) : Prop :=
  Forall2 (λ ref item, s !! ref = Some item) refs items.

(** A run on the store agrees with a result of the functional model: the
    same exception, or values related by [Rel] in the final store. *)
Definition st_refines {A B} (Rel : store → A → B → Prop)
    (run : result A * store) (p : result B) : Prop :=
  match run.1 with
  | inr a => ∃ b, p = inr b ∧ Rel run.2 a b
  | inl e => p = inl e
  end.

(** The outcome of a single-prompt unit on the store and in the functional
    model: the same cost, and the same record behind the reference. *)
Definition outcome_rel `{Env} (s : store) (x : option loc * cost)
    (y : option record * cost) : Prop :=
  option_Forall2 (λ l r, s !! l = Some r) x.1 y.1 ∧ x.2 = y.2.

(** Two results that raise the same exception or return related values. *)
Definition result_rel {A B} (R : A → B → Prop) (x : result A) (y : result B)
  : Prop :=
  match x, y with
  | inl e, inl e' => e = e'
  | inr a, inr b => R a b
  | _, _ => False
  end.

Definition slot_rel `{Env} (s : store)
  : option (result (option loc * cost)) →
    option (result (option record * cost)) → Prop :=
  option_Forall2 (result_rel (outcome_rel s)).

(** A unit of the multi-prompt variant on the store and in the functional
    model: the same prompt entry, for the record behind the reference. *)
Definition unit_rel (s : store) (a : loc * pyval) (b : record * pyval) : Prop :=
  s !! a.1 = Some b.1 ∧ a.2 = b.2.

(** The accumulators of the reassembly loop on the store and in the
    functional model: the same indices, the dict behind each reference is
    the accumulated record, and the references are distinct dicts allocated
    after the first [n0] of the store. *)
Definition acc_rel (n0 : nat) (s : store) (results_st : gmap nat loc)
    (results : gmap nat record) : Prop :=
  (∀ k, option_Forall2 (λ l r, s !! l = Some r)
                       (results_st !! k) (results !! k))
  ∧ (∀ k l, results_st !! k = Some l → (n0 ≤ l)%nat)
  ∧ (∀ k k' l, results_st !! k = Some l → results_st !! k' = Some l → k = k').

(** What the reassembly loop maintains: the input references still read the
    input records, the store has at least its first [n0] dicts, and the
    accumulators agree. *)
Definition pm_inv (n0 : nat) (refs : list loc) (items : list record)
    (s : store) (results_st : gmap nat loc) (results : gmap nat record)
  : Prop :=
  reads s refs items ∧ (n0 ≤ length s)%nat ∧ acc_rel n0 s results_st results.

(** The record left by [pop_keys], or the record itself when it raises. *)
Definition popped `{Env} (drop_keys : pyval) (r : record) : record :=
  match pop_keys drop_keys r with
  | inr r' => r'
  | inl _ => r
  end.

(** ** A test environment

    Stub collaborators, as a test of the module would supply them: a small
    jinja2 that renders literal text and [{{ input.NAME }}] expressions, a
    model call given as a function of the prompt, costs counted in whole
    units, and parsing that returns the response dict itself. *)
Module TestEnv.

(** markupsafe's escaping of one character. *)
Definition escape_char (a : ascii) : string :=
  if Ascii.eqb a "&"%char then "&amp;"
  else if Ascii.eqb a "<"%char then "&lt;"
  else if Ascii.eqb a ">"%char then "&gt;"
  else if Ascii.eqb a "'"%char then "&#39;"
  else if Ascii.eqb a (ascii_of_nat 34) then "&#34;"
  else String a EmptyString.

Fixpoint escape (s : string) : string :=
  match s with
  | EmptyString => EmptyString
  | String a s' => escape_char a +:+ escape s'
  end.

Fixpoint remove_spaces (s : string) : string :=
  match s with
  | EmptyString => EmptyString
  | String a s' =>
      if Ascii.eqb a " "%char then remove_spaces s' else String a (remove_spaces s')
  end.

(** The value of the expression [input.NAME]; an undefined name prints as
    the empty string. *)
Definition eval_expr (autoescape : bool) (kwargs : gmap string pyval)
    (e : string) : result string :=
  let e := remove_spaces e in
  if String.prefix "input." e then
    let name := String.substring 6 (String.length e - 6) e in
    match kwargs !! "input" with
    | Some (PDict d) =>
        match d !! name with
        | Some (PStr s) => ret (if autoescape then escape s else s)
        | Some (PInt z) => ret (pretty z)
        | Some _ => raise (External "jinja2" "value not supported by the stub")
        | None => ret ""
        end
    | _ => ret ""
    end
  else raise (External "jinja2" "expression not supported by the stub").

(** Rendering: [mode] is the text of the expression being read, if the
    scan is inside [{{ ... }}]. *)
Fixpoint scan (autoescape : bool) (kwargs : gmap string pyval)
    (mode : option string) (s : string) : result string :=
  match mode, s with
  | None, EmptyString => ret ""
  | None, String a (String b rest as tail) =>
      if Ascii.eqb a "{"%char && Ascii.eqb b "{"%char
      then scan autoescape kwargs (Some "") rest
      else if Ascii.eqb a "{"%char
              && (Ascii.eqb b "%"%char || Ascii.eqb b "#"%char)
      then raise (External "jinja2" "statement not supported by the stub")
      else r <- scan autoescape kwargs None tail ;; ret (String a r)
  | None, String a rest =>
      r <- scan autoescape kwargs None rest ;; ret (String a r)
  | Some e, String a (String b rest as tail) =>
      if Ascii.eqb a "}"%char && Ascii.eqb b "}"%char
      then v <- eval_expr autoescape kwargs e ;;
           r <- scan autoescape kwargs None rest ;;
           ret (v +:+ r)
      else scan autoescape kwargs (Some (e +:+ String a EmptyString)) tail
  | Some e, _ => raise (External "jinja2" "unexpected end of template")
  end.

Definition stub_from_string (autoescape : bool) (src : pyval)
  : result (bool * string) :=
  match src with
  | PStr s =>
      match scan autoescape ∅ None s with
      | inl e => raise e
      | inr _ => ret (autoescape, s)
      end
  | _ => raise (TypeError "Can't compile non template nodes")
  end.

Definition stub_render (t : bool * string) (kwargs : gmap string pyval)
  : result string :=
  scan t.1 kwargs None t.2.

(** pydantic on the fields of [MapOperation.schema]: a missing field is
    [None]; a value of another type than the declared one is refused
    (pydantic's [ValidationError] is a [ValueError]). *)
Definition stub_field (ok : pyval → bool) (cfg : config) (k : string)
  : result pyval :=
  match cfg !! k with
  | None | Some PNone => ret PNone
  | Some v => if ok v then ret v
              else raise (ValueError ("validation error for " +:+ k))
  end.

Definition is_list_of (p : pyval → bool) (v : pyval) : bool :=
  match v with PList l => forallb p l | _ => false end.

Definition stub_pydantic (cfg : config) : result map_schema :=
  output <- stub_field is_dict cfg "output" ;;
  prompt <- stub_field is_str cfg "prompt" ;;
  model <- stub_field is_str cfg "model" ;;
  tools <- stub_field (is_list_of is_dict) cfg "tools" ;;
  drop_keys <- stub_field (is_list_of is_str) cfg "drop_keys" ;;
  ret (MapSchema output prompt model tools drop_keys).

(** The test environment for a model stub [llm], a function of the
    rendered prompt. *)
Definition env (llm : string → result (llm_result record Z)) : Env := {|
  cost := Z;
  cost_zero := 0%Z;
  cost_add := Z.add;
  response := record;
  template := bool * string;
  from_string := stub_from_string;
  render := stub_render;
  render_item := λ t item, (stub_render t {["input" := PDict item]}, item);
  init_max_batch_size := None;
  call_llm := λ _ _ messages _ _ _,
    match messages with
    | [m] => llm (content m)
    | _ => raise (External "llm" "one message expected")
    end;
  parse_llm_response := λ resp _ _ _, ret [resp];
  validate_output := λ _ _, ret true;
  default_model := PStr "gpt-4o-mini";
  manually_fix_errors := PBool false;
  num_retries_on_validate_failure := PInt 0;
  gleaning_check := λ _, ret ();
  pydantic_fields := stub_pydantic;
  tool_init := λ _, raise (External "pydantic" "tools are not used by the tests");
|}.

(** The same jinja2 with one more expression, [input.pop('NAME')], the
    method call that removes the field from the dict and prints its value:
    the rendering is followed with the dict it works on. *)
Definition eval_expr_item (autoescape : bool) (item : record) (e : string)
  : result string * record :=
  let e' := remove_spaces e in
  if String.prefix "input.pop('" e' then
    let name := String.substring 11 (String.length e' - 13) e' in
    match item !! name with
    | Some (PStr s) => (ret (if autoescape then escape s else s), delete name item)
    | Some (PInt z) => (ret (pretty z), delete name item)
    | Some _ => (raise (External "jinja2" "value not supported by the stub"),
                 delete name item)
    | None => (raise (KeyError (PStr name)), item)
    end
  else (eval_expr autoescape {["input" := PDict item]} e, item).

Fixpoint scan_item (autoescape : bool) (mode : option string) (s : string)
    (item : record) : result string * record :=
  match mode, s with
  | None, EmptyString => (ret "", item)
  | None, String a (String b rest as tail) =>
      if Ascii.eqb a "{"%char && Ascii.eqb b "{"%char
      then scan_item autoescape (Some "") rest item
      else if Ascii.eqb a "{"%char
              && (Ascii.eqb b "%"%char || Ascii.eqb b "#"%char)
      then (raise (External "jinja2" "statement not supported by the stub"), item)
      else let (r, item') := scan_item autoescape None tail item in
           (r <- r ;; ret (String a r), item')
  | None, String a rest =>
      let (r, item') := scan_item autoescape None rest item in
      (r <- r ;; ret (String a r), item')
  | Some e, String a (String b rest as tail) =>
      if Ascii.eqb a "}"%char && Ascii.eqb b "}"%char
      then match eval_expr_item autoescape item e with
           | (inl x, item') => (inl x, item')
           | (inr v, item') =>
               let (r, item'') := scan_item autoescape None rest item' in
               (r <- r ;; ret (v +:+ r), item'')
           end
      else scan_item autoescape (Some (e +:+ String a EmptyString)) tail item
  | Some e, _ => (raise (External "jinja2" "unexpected end of template"), item)
  end.

(** Compilation refuses what the scan of the text refuses. *)
Definition stub_from_string_item (autoescape : bool) (src : pyval)
  : result (bool * string) :=
  match src with
  | PStr s =>
      match (scan_item autoescape None s ∅).1 with
      | inl (External kind msg) => raise (External kind msg)
      | _ => ret (autoescape, s)
      end
  | _ => raise (TypeError "Can't compile non template nodes")
  end.

Definition stub_render_item (t : bool * string) (item : record)
  : result string * record :=
  scan_item t.1 None t.2 item.

(** The test environment whose templates can call [pop] on the record. *)
Definition env_pop (llm : string → result (llm_result record Z)) : Env := {|
  cost := Z;
  cost_zero := 0%Z;
  cost_add := Z.add;
  response := record;
  template := bool * string;
  from_string := stub_from_string_item;
  render := λ t kwargs,
    match kwargs !! "input" with
    | Some (PDict item) => (stub_render_item t item).1
    | _ => stub_render t kwargs
    end;
  render_item := stub_render_item;
  init_max_batch_size := None;
  call_llm := λ _ _ messages _ _ _,
    match messages with
    | [m] => llm (content m)
    | _ => raise (External "llm" "one message expected")
    end;
  parse_llm_response := λ resp _ _ _, ret [resp];
  validate_output := λ _ _, ret true;
  default_model := PStr "gpt-4o-mini";
  manually_fix_errors := PBool false;
  num_retries_on_validate_failure := PInt 0;
  gleaning_check := λ _, ret ();
  pydantic_fields := stub_pydantic;
  tool_init := λ _, raise (External "pydantic" "tools are not used by the tests");
|}.

(** A model that answers every prompt with the dict [out], at cost [c],
    validated or not. *)
Definition const_llm (out : record) (c : Z) (ok : bool)
  : string → result (llm_result record Z) :=
  λ _, ret (LLMResult out c ok).

(** A model that echoes the text after ["Echo: "] at cost 1 and fails
    validation on the text ["bad"]. *)
Definition echo_llm : string → result (llm_result record Z) :=
  λ prompt,
    let text := String.substring 6 (String.length prompt - 6) prompt in
    ret (LLMResult {["echo" := PStr text]} 1%Z
                   (negb (String.eqb text "bad"))).

End TestEnv.

(** Records and configurations used as examples. *)
Module Fixtures.

Definition item_hello : record := {["id" := PInt 1; "text" := PStr "hello"]}.
Definition item_bad : record := {["id" := PInt 2; "text" := PStr "bad"]}.
Definition item_markup : record := {["text" := PStr "<b>"]}.
Definition item_t : record :=
  {["id" := PInt 1; "t" := PInt 1; "text" := PStr "x"]}.

Definition schema_echo : pyval := PDict {["echo" := PStr "string"]}.
Definition output_echo : pyval := PDict {["schema" := schema_echo]}.

Definition cfg_echo : config :=
  {["name" := PStr "echo"; "type" := PStr "map";
    "prompt" := PStr "Echo: {{input.text}}"; "output" := output_echo]}.
Definition cfg_hello : config :=
  {["name" := PStr "hello"; "type" := PStr "map"; "prompt" := PStr "Hello";
    "output" := output_echo]}.
Definition cfg_no_schema : config :=
  {["name" := PStr "hello"; "type" := PStr "map"; "prompt" := PStr "Hello";
    "output" := PDict {["foo" := PStr "string"]} ]}.

Definition drop_id : pyval := PList [PStr "id"].
Definition cfg_drop : config :=
  {["name" := PStr "drop"; "type" := PStr "map"; "drop_keys" := drop_id]}.
Definition cfg_echo_drop : config := <["drop_keys" := drop_id]> cfg_echo.

Definition drop_text_list : pyval := PList [PStr "text"].
Definition cfg_drop_str : config :=
  {["name" := PStr "drop"; "type" := PStr "map"; "drop_keys" := PStr "text"]}.
Definition cfg_drop_list : config :=
  {["name" := PStr "drop"; "type" := PStr "map"; "drop_keys" := drop_text_list]}.

Definition keys_echo : pyval := PList [PStr "echo"].
Definition keys_echo_b : pyval := PList [PStr "echo"; PStr "b"].
Definition pc_echo : pyval :=
  PDict {["prompt" := PStr "Echo: {{ input.text }}"; "output_keys" := keys_echo]}.
Definition pc_echo_b : pyval :=
  PDict {["prompt" := PStr "Echo: {{ input.text }}"; "output_keys" := keys_echo_b]}.
Definition cfg_pm : config :=
  {["name" := PStr "pm"; "type" := PStr "parallel_map";
    "prompts" := PList [pc_echo]; "output" := output_echo]}.
Definition cfg_pm_superset : config :=
  {["name" := PStr "pm"; "type" := PStr "parallel_map";
    "prompts" := PList [pc_echo_b]; "output" := output_echo]}.

Definition cfg_pm_drop : config := <["drop_keys" := drop_id]> cfg_pm.

(** A store with two records of the caller. *)
Definition store2 : store := [item_hello; item_bad].

(** A record whose [text] the template stub cannot print. *)
Definition item_unprintable : record := {["text" := PList [] ]}.

(** Single-prompt configurations that the check refuses, or should. *)
Definition cfg_broken : config :=
  <["prompt" := PStr "Echo: {{input.text"]> cfg_echo.
Definition cfg_prompt_only : config :=
  {["name" := PStr "p"; "type" := PStr "map"; "prompt" := PStr "Hello";
    "drop_keys" := drop_id]}.
Definition cfg_empty_prompt : config :=
  {["name" := PStr "p"; "type" := PStr "map"; "prompt" := PStr "";
    "drop_keys" := drop_id]}.
Definition cfg_bare : config :=
  {["name" := PStr "bare"; "type" := PStr "parallel_map"]}.

Definition cfg_pm_no_output : config :=
  {["name" := PStr "pm"; "type" := PStr "parallel_map";
    "prompts" := PList [pc_echo] ]}.
Definition cfg_pm_no_entries : config := <["prompts" := PList [] ]> cfg_pm.


(** A prompt that pops the field it prints, and a pool of no worker. *)
Definition cfg_pop : config :=
  {["name" := PStr "pop"; "type" := PStr "map";
    "prompt" := PStr "Echo: {{ input.pop('text') }}"; "output" := output_echo]}.
Definition pc_pop : pyval :=
  PDict {["prompt" := PStr "Echo: {{ input.pop('text') }}";
          "output_keys" := keys_echo]}.
Definition cfg_pm_pop : config :=
  {["name" := PStr "pm"; "type" := PStr "parallel_map";
    "prompts" := PList [pc_pop]; "output" := output_echo]}.
Definition cfg_echo_no_worker : config :=
  <["max_batch_size" := PInt 0]> cfg_echo.
Definition cfg_echo_unnamed : config := delete "name" cfg_echo.

End Fixtures.

(** * Properties *)

Open Scope list_scope.
Open Scope nat_scope.
Set Warnings "-clear-no-such-hyp".

(** ** The error monad and the traversals *)

Lemma bind_inr {A B} (m : result A) (k : A → result B) (b : B) :
  bind m k = inr b ↔ ∃ a, m = inr a ∧ k a = inr b.
Proof.
  split.
  - destruct m as [e|a]; simpl; [discriminate | eauto].
  - intros (a & -> & Hk). exact Hk.
Qed.

Lemma bind_inl {A B} (m : result A) (k : A → result B) (e : exn) :
  bind m k = inl e ↔ m = inl e ∨ ∃ a, m = inr a ∧ k a = inl e.
Proof.
  split.
  - destruct m as [e'|a]; simpl; [intros [= ->]; by left | eauto].
  - intros [-> | (a & -> & Hk)]; [done | exact Hk].
Qed.

Lemma filterM_total {A} (p : A → bool) (l : list A) :
  filterM (λ a, ret (p a)) l = ret (filter (λ a, p a) l).
Proof.
  induction l as [|a l IH]; [done|].
  simpl. rewrite IH. simpl. rewrite filter_cons.
  destruct (decide (p a)) as [Hp|Hp]; by destruct (p a).
Qed.

Lemma mapM_total {A B} (f : A → B) (l : list A) :
  mapM (λ a, ret (f a)) l = ret (f <$> l).
Proof. induction l as [|a l IH]; [done|]. simpl. by rewrite IH. Qed.

Lemma mapM_ext {A B} (f g : A → result B) (l : list A) :
  (∀ a, a ∈ l → f a = g a) → mapM f l = mapM g l.
Proof.
  induction l as [|a l IH]; [done|]. intros Hfg. simpl.
  rewrite Hfg by left. destruct (g a); [done|]. simpl.
  rewrite IH; [done|]. intros a' Ha'. apply Hfg. by right.
Qed.


(** ** Dropping fields *)

Lemma existsb_eq_str (k : string) (l : list pyval) :
  existsb (eq_str k) l = true ↔ k ∈ str_elements l.
Proof.
  unfold str_elements. rewrite existsb_exists, list_elem_of_omap.
  split.
  - intros (v & Hv%list_elem_of_In & Heq). exists v. split; [done|].
    destruct v; try discriminate. simpl in Heq.
    apply String.eqb_eq in Heq. by subst.
  - intros (v & Hv%list_elem_of_In & Heq). exists v. split; [done|].
    destruct v; try discriminate. injection Heq as ->. apply String.eqb_refl.
Qed.

Lemma lookup_remove_fields (names : list string) (r : record) (k : string) :
  remove_fields names r !! k = if decide (k ∈ names) then None else r !! k.
Proof.
  induction names as [|n names IH].
  - destruct (decide (k ∈ [])) as [Hin|_]; [by apply not_elem_of_nil in Hin | done].
  - change (remove_fields (n :: names) r) with (delete n (remove_fields names r)).
    destruct (decide (n = k)) as [->|Hne].
    + rewrite lookup_delete_eq.
      destruct (decide (k ∈ k :: names)) as [_|Hin]; [done|].
      exfalso. apply Hin. by left.
    + rewrite lookup_delete_ne by done. rewrite IH.
      destruct (decide (k ∈ names)) as [Hin|Hin],
               (decide (k ∈ n :: names)) as [Hin'|Hin']; try done.
      * exfalso. apply Hin'. by right.
      * exfalso. apply elem_of_cons in Hin' as [->|?]; done.
Qed.

Lemma dict_without_list (l : list pyval) (r : record) :
  dict_without (PList l) r = inr (remove_fields (str_elements l) r).
Proof.
  unfold dict_without. simpl.
  rewrite (filterM_total (λ kv : string * pyval, negb (existsb (eq_str kv.1) l))).
  simpl. f_equal. rewrite <- map_filter_alt.
  apply map_eq. intros k. apply option_eq. intros v.
  rewrite map_lookup_filter_Some, lookup_remove_fields. simpl.
  destruct (decide (k ∈ str_elements l)) as [Hin|Hin].
  - apply existsb_eq_str in Hin. rewrite Hin. simpl.
    split; [by intros [_ []] | discriminate].
  - destruct (existsb (eq_str k) l) eqn:E.
    + by apply existsb_eq_str in E.
    + simpl. split; [by intros [? _] | done].
Qed.

Lemma dict_without_str (c : string) (r : record) :
  dict_without (PStr c) r
  = inr (filter (λ kv : string * pyval, negb (is_substring kv.1 c)) r).
Proof.
  unfold dict_without. simpl.
  rewrite (filterM_total (λ kv : string * pyval, negb (is_substring kv.1 c))).
  simpl. by rewrite <- map_filter_alt.
Qed.


(** ** The template renderer *)

Lemma render_jinja_template_empty `{Env} (tpl : pyval) :
  render_jinja_template tpl ∅ = inr "".
Proof. done. Qed.

(** C8: [render_jinja_template] returns the empty string on the empty
    record whatever the template is, without compiling or rendering it; on
    a non-empty record it compiles the template in an auto-escaping
    environment and renders it with the record bound to [input], the one
    variable of the namespace. *)
Theorem render_jinja_template_contract `{Env} (tpl : pyval) (data : record) :
  render_jinja_template tpl ∅ = inr ""
  ∧ (data ≠ ∅ →
     render_jinja_template tpl data
     = (t <- from_string true tpl ;; render t {["input" := PDict data]})).
Proof.
  split; [apply render_jinja_template_empty|].
  intros Hne. unfold render_jinja_template. simpl.
  rewrite bool_decide_eq_false_2; [done|].
  by rewrite map_size_empty_iff.
Qed.

Lemma render_jinja_template_contract_witness :
  render_jinja_template (H:=TestEnv.env TestEnv.echo_llm)
                        (PStr "Echo: {{ input.text }}") ∅ = inr ""
  ∧ render_jinja_template (H:=TestEnv.env TestEnv.echo_llm)
                          (PStr "Echo: {{ input.text }}") Fixtures.item_markup
    = inr "Echo: &lt;b&gt;".
Proof.
  destruct (render_jinja_template_contract (H:=TestEnv.env TestEnv.echo_llm)
              (PStr "Echo: {{ input.text }}") Fixtures.item_markup)
    as [Hempty Hrender].
  split; [exact Hempty|].
  rewrite Hrender; [vm_compute; reflexivity|].
  intros Heq. apply (f_equal (λ m : record, m !! "text")) in Heq.
  vm_compute in Heq. discriminate.
Defined.

(** ** The single-prompt item processor *)



(** The item processor returns no record for an invocation result that is
    not validated, and does not raise. *)
Lemma process_map_item_unvalidated `{Env} (cfg : config) (item : record)
    (r : llm_result response cost) :
  map_item_call cfg item = inr r →
  validated r = false →
  process_map_item cfg item = inr (None, total_cost r).
Proof.
  intros Hcall Hval. unfold process_map_item. rewrite Hcall. simpl.
  by rewrite Hval.
Qed.

(** C6: the prompt of the single-prompt item processor is not what
    [render_jinja_template] gives.  The processor compiles the template in
    jinja2's default environment and renders it for every record: on the
    empty record it passes on whatever the template renders to, where
    [render_jinja_template] returns the empty string. *)
Theorem map_item_prompt_empty_record `{Env} (cfg : config) (src : pyval)
    (tpl : template) (p : string) :
  cfg !! "prompt" = Some src →
  from_string false src = inr tpl →
  render tpl {["input" := PDict ∅]} = inr p →
  p ≠ "" →
  map_item_prompt cfg ∅ = inr p
  ∧ render_jinja_template src ∅ = inr ""
  ∧ map_item_prompt cfg ∅ ≠ render_jinja_template src ∅.
Proof.
  intros Hsrc Htpl Hrender Hp.
  assert (map_item_prompt cfg ∅ = inr p) as Hprompt.
  { unfold map_item_prompt, cfg_item, Template. rewrite Hsrc. simpl.
    rewrite Htpl. simpl. exact Hrender. }
  split; [done|]. split; [done|].
  rewrite Hprompt, render_jinja_template_empty.
  intros [= ->]. by apply Hp.
Qed.

Lemma map_item_prompt_empty_record_witness :
  map_item_prompt (H:=TestEnv.env TestEnv.echo_llm) Fixtures.cfg_hello ∅
  = inr "Hello"
  ∧ render_jinja_template (H:=TestEnv.env TestEnv.echo_llm) (PStr "Hello") ∅
    = inr ""
  ∧ map_item_prompt (H:=TestEnv.env TestEnv.echo_llm) Fixtures.cfg_hello ∅
    ≠ render_jinja_template (H:=TestEnv.env TestEnv.echo_llm) (PStr "Hello") ∅.
Proof.
  apply (map_item_prompt_empty_record (H:=TestEnv.env TestEnv.echo_llm)
           Fixtures.cfg_hello (PStr "Hello") (false, "Hello") "Hello");
    [vm_compute; reflexivity .. | discriminate].
Defined.

(** The values of a record reach the prompt of the item processor as they
    are, where [render_jinja_template] escapes them. *)
Lemma map_item_prompt_not_escaped :
  map_item_prompt (H:=TestEnv.env TestEnv.echo_llm)
                  Fixtures.cfg_echo Fixtures.item_markup
  = inr "Echo: <b>"
  ∧ render_jinja_template (H:=TestEnv.env TestEnv.echo_llm)
                          (PStr "Echo: {{input.text}}") Fixtures.item_markup
    = inr "Echo: &lt;b&gt;".
Proof. split; vm_compute; reflexivity. Qed.

(** ** MapOperation.syntax_check *)

Lemma existsb_not_str_names (names : list string) :
  existsb (λ key, negb (is_str key)) (PStr <$> names) = false.
Proof. induction names as [|n names IH]; [done|]. exact IH. Qed.

(** C7: a configuration with a prompt whose [output] is a non-empty dict
    without a ["schema"] key makes [MapOperation.syntax_check] raise
    [KeyError], which is neither of the two exceptions the check documents:
    the test [config.output["schema"]] subscripts the dict before the
    [ValueError] for a missing schema can be raised. *)
Theorem map_syntax_check_schema_key_missing `{Env} (cfg : config)
    (c : map_schema) (out : gmap string pyval) :
  schema_init cfg = inr c →
  (sc_drop_keys c = PNone ∨ ∃ names, sc_drop_keys c = PList (PStr <$> names)) →
  truthy (sc_prompt c) = true →
  sc_output c = PDict out →
  out ≠ ∅ →
  out !! "schema" = None →
  map_syntax_check cfg = inl (KeyError (PStr "schema")).
Proof.
  intros Hinit Hdrop Hprompt Hout Hne Hschema.
  assert (truthy (sc_output c) = true) as Houtput.
  { rewrite Hout. simpl. rewrite bool_decide_eq_false_2; [done|].
    by rewrite map_size_empty_iff. }
  unfold map_syntax_check. rewrite Hinit. simpl.
  unfold map_syntax_check_body.
  assert ((if truthy (sc_drop_keys c)
           then keys <- py_iter (sc_drop_keys c) ;;
                if existsb (λ key, negb (is_str key)) keys
                then raise (TypeError "All items in 'drop_keys' must be strings")
                else ret ()
           else if negb (truthy (sc_prompt c) && truthy (sc_output c))
                then raise (ValueError "If 'drop_keys' is not specified, both 'prompt' and 'output' must be present in the configuration")
                else ret ()) = inr ()) as ->.
  { destruct Hdrop as [-> | [names ->]].
    - simpl. by rewrite Hprompt, Houtput.
    - destruct (truthy (PList (PStr <$> names))).
      + simpl. by rewrite existsb_not_str_names.
      + by rewrite Hprompt, Houtput. }
  simpl. rewrite Hprompt, Houtput. simpl.
  rewrite Hout. simpl. by rewrite Hschema.
Qed.

Lemma map_syntax_check_schema_key_missing_witness :
  map_syntax_check (H:=TestEnv.env TestEnv.echo_llm) Fixtures.cfg_no_schema
  = inl (KeyError (PStr "schema")).
Proof.
  apply (map_syntax_check_schema_key_missing (H:=TestEnv.env TestEnv.echo_llm)
           Fixtures.cfg_no_schema
           (MapSchema (PDict {["foo" := PStr "string"]}) (PStr "Hello")
                      PNone PNone PNone)
           {["foo" := PStr "string"]}).
  - vm_compute; reflexivity.
  - left; reflexivity.
  - reflexivity.
  - reflexivity.
  - intros Heq. apply (f_equal (λ m : gmap string pyval, m !! "foo")) in Heq.
    vm_compute in Heq. discriminate.
  - vm_compute; reflexivity.
Defined.

(** When the dict has no usable schema under the key, the check raises the
    [ValueError] it documents. *)
Lemma map_syntax_check_schema_empty `{Env} (cfg : config) (c : map_schema)
    (out : gmap string pyval) (schema : pyval) :
  schema_init cfg = inr c →
  sc_drop_keys c = PNone →
  truthy (sc_prompt c) = true →
  sc_output c = PDict out →
  out !! "schema" = Some schema →
  truthy schema = false →
  map_syntax_check cfg
  = inl (ValueError "Missing 'schema' in 'output' configuration").
Proof.
  intros Hinit Hdrop Hprompt Hout Hschema Hfalsy.
  assert (truthy (sc_output c) = true) as Houtput.
  { rewrite Hout. simpl. rewrite bool_decide_eq_false_2; [done|].
    rewrite map_size_empty_iff. intros ->. by rewrite lookup_empty in Hschema. }
  unfold map_syntax_check. rewrite Hinit. simpl.
  unfold map_syntax_check_body. rewrite Hdrop. simpl.
  rewrite Hprompt, Houtput. simpl. rewrite Hout. simpl.
  rewrite Hschema. simpl. by rewrite Hfalsy.
Qed.

(** ** MapOperation.execute *)

Lemma map_execute_fast_path `{Env} (order : list nat) (cfg : config)
    (drop_keys : pyval) (input_data : list record) :
  cfg !! "prompt" = None →
  cfg !! "drop_keys" = Some drop_keys →
  map_execute order cfg input_data
  = (dropped <- mapM (dict_without drop_keys) input_data ;;
     ret (dropped, cost_zero)).
Proof. intros Hp Hd. unfold map_execute. by rewrite Hp, Hd. Qed.

(** With a string for [drop_keys], the fast path drops every field whose
    name occurs in the string. *)
Lemma map_execute_drop_keys_str `{Env} (order : list nat) (c : string)
    (input_data : list record) :
  map_execute order {["drop_keys" := PStr c]} input_data
  = inr (filter (λ kv : string * pyval, negb (is_substring kv.1 c)) <$> input_data,
         cost_zero).
Proof.
  rewrite (map_execute_fast_path _ _ (PStr c)); [|done|done].
  rewrite (mapM_ext _ (λ r, ret (filter (λ kv : string * pyval,
                                           negb (is_substring kv.1 c)) r))).
  - by rewrite mapM_total.
  - intros r _. apply dict_without_str.
Qed.

(** The schema of the test environment checks the declared type of
    [drop_keys]. *)
Lemma stub_pydantic_checks_drop_keys
    (llm : string → result (llm_result record Z)) :
  pydantic_checks_drop_keys (H:=TestEnv.env llm).
Proof.
  intros cfg c. cbn [pydantic_fields TestEnv.env]. unfold TestEnv.stub_pydantic.
  destruct (TestEnv.stub_field is_dict cfg "output") as [e|o]; [done|].
  cbn [bind].
  destruct (TestEnv.stub_field is_str cfg "prompt") as [e|p]; [done|].
  cbn [bind].
  destruct (TestEnv.stub_field is_str cfg "model") as [e|m]; [done|].
  cbn [bind].
  destruct (TestEnv.stub_field (TestEnv.is_list_of is_dict) cfg "tools")
    as [e|t]; [done|].
  cbn [bind]. unfold TestEnv.stub_field, dict_get.
  destruct (cfg !! "drop_keys") as [v|]; [|by intros [= <-] ].
  destruct v as [ |b|z|k|l|d]; try done; try (by intros [= <-]).
  cbn [TestEnv.is_list_of default drop_keys_declared id].
  destruct (forallb is_str l) eqn:Hl; [by intros [= <-]|done].
Qed.

(** C10: [validate_drop_keys] would turn a string into a one-element list,
    but it runs after the declared type of the field, a list of strings,
    has been checked.  A configuration whose [drop_keys] is a string is
    refused when [syntax_check] builds the schema, with the exception of
    that check; and for every configuration the schema accepts, the
    validator returns the [drop_keys] of the configuration as it is: its
    branch for strings is never taken. *)
Theorem map_syntax_check_drop_keys_str `{Env} (cfg : config) (s : string) :
  pydantic_checks_drop_keys →
  cfg !! "drop_keys" = Some (PStr s) →
  validate_drop_keys (PStr s) = PList [PStr s]
  ∧ (∃ e, pydantic_fields cfg = inl e
          ∧ schema_init cfg = inl e
          ∧ map_syntax_check cfg = inl e)
  ∧ (∀ cfg' c, schema_init cfg' = inr c →
               sc_drop_keys c = dict_get cfg' "drop_keys" PNone
               ∧ ∀ s', sc_drop_keys c ≠ PStr s').
Proof.
  intros Hpyd Hstr. split; [done|]. split.
  - unfold map_syntax_check, schema_init.
    destruct (pydantic_fields cfg) as [e|c] eqn:Hc; [by exists e|].
    destruct (Hpyd cfg c Hc) as [Hdecl _].
    unfold dict_get in Hdecl. rewrite Hstr in Hdecl. discriminate.
  - intros cfg' c. unfold schema_init.
    destruct (pydantic_fields cfg') as [e|c0] eqn:Hc0; [done|].
    cbn [bind ret]. intros [= <-]. cbn [sc_drop_keys].
    destruct (Hpyd cfg' c0 Hc0) as [Hdecl ->].
    by destruct (dict_get cfg' "drop_keys" PNone).
Qed.

Lemma map_syntax_check_drop_keys_str_witness :
  (∃ e, map_syntax_check (H:=TestEnv.env TestEnv.echo_llm)
                         Fixtures.cfg_drop_str = inl e)
  ∧ map_syntax_check (H:=TestEnv.env TestEnv.echo_llm) Fixtures.cfg_drop_list
    = inr ().
Proof.
  split; [|vm_compute; reflexivity].
  destruct (map_syntax_check_drop_keys_str
              (H:=TestEnv.env TestEnv.echo_llm) Fixtures.cfg_drop_str "text"
              (stub_pydantic_checks_drop_keys TestEnv.echo_llm) eq_refl)
    as (_ & (e & _ & _ & Hcheck) & _).
  by exists e.
Defined.

(** ** Ordered selections *)








(** ** The worker pool *)

Section pool.
Context {T A : Type} (f : T → A) (units : list T).

Let step := λ (slots : list (option A)) (i : nat),
  match units !! i with
  | Some u => <[i := Some (f u)]> slots
  | None => slots
  end.

Lemma pool_step_length slots i : length (step slots i) = length slots.
Proof. unfold step. destruct (units !! i); [apply length_insert | done]. Qed.

Lemma pool_fold_lookup (order : list nat) (slots : list (option A)) (i : nat) :
  length slots = length units →
  foldl step slots order !! i
  = if decide (i ∈ order) then (λ u, Some (f u)) <$> units !! i else slots !! i.
Proof.
  revert slots. induction order as [|a order IH]; intros slots Hlen.
  - simpl. destruct (decide (i ∈ [])) as [Hin|_]; [|done].
    by apply not_elem_of_nil in Hin.
  - simpl. rewrite IH by (by rewrite pool_step_length).
    destruct (decide (i ∈ order)) as [Hin|Hin].
    + destruct (decide (i ∈ a :: order)) as [_|Hn]; [done|].
      exfalso. apply Hn. by right.
    + destruct (decide (i ∈ a :: order)) as [Hin'|Hin'].
      * apply elem_of_cons in Hin' as [->|?]; [|done].
        unfold step. destruct (units !! a) as [u|] eqn:Hu; simpl.
        -- apply list_lookup_insert_eq. rewrite Hlen.
           by eapply lookup_lt_Some.
        -- apply lookup_ge_None. rewrite Hlen. by apply lookup_ge_None.
      * unfold step. destruct (units !! a) as [u|]; [|done].
        apply list_lookup_insert_ne. intros ->. apply Hin'. by left.
Qed.

End pool.

Lemma pool_run_lookup {T A} (f : T → A) (units : list T) (order : list nat)
    (i : nat) (u : T) :
  (∀ j, j < length units → j ∈ order) →
  units !! i = Some u →
  pool_run order f units !! i = Some (Some (f u)).
Proof.
  intros Hall Hu. unfold pool_run.
  rewrite pool_fold_lookup by apply length_replicate.
  rewrite decide_True by (apply Hall; by eapply lookup_lt_Some).
  by rewrite Hu.
Qed.

(** Once every unit has completed, the future of a unit holds what the unit
    computes, whatever the order of completion was. *)
Lemma future_result_pool {T B} (g : T → result B) (units : list T)
    (order : list nat) (i : nat) (u : T) :
  (∀ j, j < length units → j ∈ order) →
  units !! i = Some u →
  future_result (pool_run order g units) i = g u.
Proof.
  intros Hall Hu. unfold future_result.
  by rewrite (pool_run_lookup g units order i u).
Qed.

Lemma perm_seq_covers (order : list nat) (n : nat) :
  order ≡ₚ seq 0 n → ∀ j, j < n → j ∈ order.
Proof. intros Hperm j Hj. rewrite Hperm. apply elem_of_seq. lia. Qed.

(** ** The single-prompt executor *)

Section map_executor.
Context `{Env}.


Lemma omap_fst_cons_Some {A B} (a : A) (b : B) (l : list (option A * B)) :
  omap fst ((Some a, b) :: l) = a :: omap fst l.
Proof. done. Qed.

Lemma mapM_cons {A B} (f : A → result B) (a : A) (l : list A) :
  mapM f (a :: l) = (b <- f a ;; bs <- mapM f l ;; ret (b :: bs)).
Proof. done. Qed.

(** The loop returns exactly when every unit returned and every emitted
    record could be projected; it then returns the emitted records in the
    order of the items, after the records gathered so far, and the costs
    added to the running total from left to right. *)
Lemma map_collect_inr (cfg : config)
    (slots : list (option (result (option record * cost))))
    (items : list record) (k : nat) (results : list record) (total : cost)
    (outs : list record) (tot : cost) :
  (∀ j item, items !! j = Some item →
             future_result slots (k + j) = process_map_item cfg item) →
  map_collect cfg slots (seq k (length items)) results total = inr (outs, tot)
  ↔ ∃ (rs : list (option record * cost)) (emitted : list record),
      Forall2 (λ item r, process_map_item cfg item = inr r) items rs
      ∧ mapM (map_emit cfg) (omap fst rs) = inr emitted
      ∧ outs = (results ++ emitted)%list
      ∧ tot = foldl cost_add total rs.*2.
Proof.
  revert k results total outs tot.
  induction items as [|item items IH]; intros k results total outs tot Hslots.
  - simpl. split.
    + intros [= <- <-]. exists [], []. simpl.
      by rewrite app_nil_r.
    + intros (rs & emitted & Hrs & Hem & -> & ->).
      inversion Hrs; subst. simpl in Hem. injection Hem as <-.
      simpl. by rewrite app_nil_r.
  - assert (∀ j it, items !! j = Some it →
                    future_result slots (S k + j) = process_map_item cfg it)
      as Hslots'.
    { intros j it Hj. rewrite <- (Hslots (S j) it) by done. f_equal. lia. }
    change (seq k (length (item :: items)))
      with (k :: seq (S k) (length items)).
    cbn [map_collect].
    rewrite <- (Nat.add_0_r k) at 1.
    rewrite (Hslots 0 item) by done.
    split.
    + intros (r & Hr & (results' & Hres & Hrest)%bind_inr)%bind_inr.
      apply (IH _ _ _ _ _ Hslots') in Hrest
        as (rs & emitted & Hrs & Hem & -> & ->).
      destruct r as [[res|] c]; cbn [fst snd] in *.
      * apply bind_inr in Hres as (res' & Hres' & [= <-]).
        exists ((Some res, c) :: rs), (res' :: emitted).
        split; [by constructor|]. split; [|split].
        -- rewrite omap_fst_cons_Some, mapM_cons, Hres'. cbn [bind].
           by rewrite Hem.
        -- by rewrite <- app_assoc.
        -- done.
      * injection Hres as <-.
        exists ((None, c) :: rs), emitted.
        split; [by constructor|]. done.
    + intros (rs & emitted & Hrs & Hem & -> & ->).
      inversion Hrs as [|? r ? rs' Hr Hrs']; subst.
      rewrite Hr. cbn [bind].
      destruct r as [[res|] c]; cbn [fst snd] in *.
      * rewrite omap_fst_cons_Some, mapM_cons in Hem.
        apply bind_inr in Hem as (res' & Hres' & (em' & Hem' & [= <-])%bind_inr).
        rewrite Hres'. cbn [bind ret].
        apply (IH _ _ _ _ _ Hslots'). exists rs', em'.
        split; [done|]. split; [done|]. by rewrite <- app_assoc.
      * cbn [bind ret]. apply (IH _ _ _ _ _ Hslots'). by exists rs', emitted.
Qed.

(** [execute] off the fast path: the pool, the units, the name of the
    operation, the loop over the futures. *)
Lemma map_execute_main (order : list nat) (cfg : config)
    (input_data : list record) :
  (cfg !! "prompt" = None → cfg !! "drop_keys" = None) →
  map_execute order cfg input_data
  = (thread_pool (map_max_batch_size cfg) ;;;
     cfg_item cfg "name" ;;;
     map_collect cfg (pool_run order (process_map_item cfg) input_data)
                 (seq 0 (length input_data)) [] cost_zero).
Proof.
  intros Hmain. unfold map_execute. destruct (cfg !! "prompt"); [done|].
  by rewrite Hmain.
Qed.

Lemma cfg_item_inr (cfg : config) (k : string) :
  (∃ v, cfg_item cfg k = inr v) ↔ is_Some (cfg !! k).
Proof.
  unfold cfg_item. destruct (cfg !! k) as [v|].
  - split; [by eexists|]. intros _. by exists v.
  - split; [by intros [? ?]|by intros [? ?] ].
Qed.

(** [execute] off the fast path: the result, when there is one, for any
    order of completion that completes every unit. *)
Lemma map_execute_inr (order : list nat) (cfg : config)
    (input_data outs : list record) (tot : cost) :
  (cfg !! "prompt" = None → cfg !! "drop_keys" = None) →
  (∀ j, j < length input_data → j ∈ order) →
  map_execute order cfg input_data = inr (outs, tot)
  ↔ thread_pool (map_max_batch_size cfg) = inr ()
    ∧ is_Some (cfg !! "name")
    ∧ ∃ rs : list (option record * cost),
        Forall2 (λ item r, process_map_item cfg item = inr r) input_data rs
        ∧ mapM (map_emit cfg) (omap fst rs) = inr outs
        ∧ tot = foldl cost_add cost_zero rs.*2.
Proof.
  intros Hmain Hall. rewrite map_execute_main by done.
  assert (map_collect cfg (pool_run order (process_map_item cfg) input_data)
                      (seq 0 (length input_data)) [] cost_zero = inr (outs, tot)
          ↔ ∃ rs : list (option record * cost),
              Forall2 (λ item r, process_map_item cfg item = inr r) input_data rs
              ∧ mapM (map_emit cfg) (omap fst rs) = inr outs
              ∧ tot = foldl cost_add cost_zero rs.*2) as Hcollect.
  { rewrite map_collect_inr.
    - split.
      + intros (rs & emitted & ? & ? & -> & ->). by exists rs.
      + intros (rs & ? & ? & ->). by exists rs, outs.
    - intros j item Hj. simpl. by apply future_result_pool. }
  rewrite <- Hcollect, <- cfg_item_inr.
  destruct (thread_pool (map_max_batch_size cfg)) as [e|[] ]; cbn [bind];
    [by split; [|intros [? _] ]|].
  destruct (cfg_item cfg "name") as [e|v]; cbn [bind].
  - split; [done|]. by intros (_ & [? ?] & _).
  - split; [intros Hc; repeat split; [by exists v|done]|by intros (_ & _ & ?)].
Qed.





End map_executor.

(** C2: an item whose invocation result is not validated is processed
    without an exception and yields no record; [execute] on a collection
    containing it returns exactly when the pool can be built from
    [max_batch_size], the configuration has a [name], and the other items
    are processed and projected without an exception; it then returns the
    records of the other items only, with the result's cost added to the
    total at the item's place. *)
Theorem map_execute_unvalidated_item `{Env} (order : list nat) (cfg : config)
    (before : list record) (x : record) (after : list record)
    (r : llm_result response cost) :
  order ≡ₚ seq 0 (length (before ++ x :: after)) →
  map_item_call cfg x = inr r →
  validated r = false →
  process_map_item cfg x = inr (None, total_cost r)
  ∧ ∀ outs tot,
      map_execute order cfg (before ++ x :: after) = inr (outs, tot)
      ↔ thread_pool (map_max_batch_size cfg) = inr ()
        ∧ is_Some (cfg !! "name")
        ∧ ∃ rs1 rs2 : list (option record * cost),
            Forall2 (λ item o, process_map_item cfg item = inr o) before rs1
            ∧ Forall2 (λ item o, process_map_item cfg item = inr o) after rs2
            ∧ mapM (map_emit cfg) (omap fst (rs1 ++ rs2)) = inr outs
            ∧ tot = foldl cost_add cost_zero
                          (rs1.*2 ++ total_cost r :: rs2.*2).
Proof.
  intros Hperm Hcall Hval.
  pose proof (process_map_item_unvalidated cfg x r Hcall Hval) as Hx.
  split; [done|]. intros outs tot.
  assert (∃ src, cfg !! "prompt" = Some src) as [src Hsrc].
  { unfold map_item_call, map_item_prompt, cfg_item in Hcall.
    destruct (cfg !! "prompt") as [src|]; [by exists src | done]. }
  rewrite (map_execute_inr order cfg) by
    (by rewrite Hsrc || by apply perm_seq_covers).
  split.
  - intros (Hpool & Hname & rs & Hrs & Hem & ->).
    split; [done|]. split; [done|].
    apply Forall2_app_inv_l in Hrs as (rs1 & rs' & Hrs1 & Hrs' & ->).
    inversion Hrs' as [|? o ? rs2 Ho Hrs2]; subst.
    rewrite Hx in Ho. injection Ho as <-.
    exists rs1, rs2. split; [done|]. split; [done|].
    rewrite omap_app in Hem. simpl in Hem.
    rewrite omap_app. split; [done|].
    by rewrite fmap_app.
  - intros (Hpool & Hname & rs1 & rs2 & Hrs1 & Hrs2 & Hem & ->).
    split; [done|]. split; [done|].
    exists (rs1 ++ (None, total_cost r) :: rs2).
    split; [|split].
    + apply Forall2_app; [done|]. by constructor.
    + rewrite omap_app. simpl. by rewrite <- omap_app.
    + by rewrite fmap_app.
Qed.

Lemma map_execute_unvalidated_item_witness :
  process_map_item (H:=TestEnv.env TestEnv.echo_llm)
                   Fixtures.cfg_echo Fixtures.item_bad
  = inr (None, 1%Z)
  ∧ map_execute (H:=TestEnv.env TestEnv.echo_llm) [2; 0; 1] Fixtures.cfg_echo
                [Fixtures.item_hello; Fixtures.item_bad; Fixtures.item_hello]
    = inr ([ <["echo" := PStr "hello"]> Fixtures.item_hello;
             <["echo" := PStr "hello"]> Fixtures.item_hello ], 3%Z)
  ∧ ∀ outs tot,
      map_execute (H:=TestEnv.env TestEnv.echo_llm) [2; 0; 1]
                  Fixtures.cfg_echo_no_worker
                  [Fixtures.item_hello; Fixtures.item_bad; Fixtures.item_hello]
      ≠ inr (outs, tot).
Proof.
  split; [|split].
  - apply (map_execute_unvalidated_item (H:=TestEnv.env TestEnv.echo_llm)
             [2; 0; 1] Fixtures.cfg_echo
             [Fixtures.item_hello] Fixtures.item_bad [Fixtures.item_hello]
             (LLMResult {["echo" := PStr "bad"]} 1%Z false)).
    + apply (bool_decide_unpack _). vm_compute. exact I.
    + vm_compute; reflexivity.
    + reflexivity.
  - destruct (map_execute_unvalidated_item (H:=TestEnv.env TestEnv.echo_llm)
                [2; 0; 1] Fixtures.cfg_echo
                [Fixtures.item_hello] Fixtures.item_bad [Fixtures.item_hello]
                (LLMResult {["echo" := PStr "bad"]} 1%Z false))
      as [_ Hexec].
    + apply (bool_decide_unpack _). vm_compute. exact I.
    + vm_compute; reflexivity.
    + reflexivity.
    + apply Hexec.
      split; [reflexivity|]. split; [by eexists|].
      exists [(Some (<["echo" := PStr "hello"]> Fixtures.item_hello), 1%Z)],
             [(Some (<["echo" := PStr "hello"]> Fixtures.item_hello), 1%Z)].
      repeat split.
      * constructor; [vm_compute; reflexivity | constructor].
      * constructor; [vm_compute; reflexivity | constructor].
  - intros outs tot Hrun.
    destruct (map_execute_unvalidated_item (H:=TestEnv.env TestEnv.echo_llm)
                [2; 0; 1] Fixtures.cfg_echo_no_worker
                [Fixtures.item_hello] Fixtures.item_bad [Fixtures.item_hello]
                (LLMResult {["echo" := PStr "bad"]} 1%Z false))
      as [_ Hexec].
    + apply (bool_decide_unpack _). vm_compute. exact I.
    + vm_compute; reflexivity.
    + reflexivity.
    + apply Hexec in Hrun as [Hpool _]. vm_compute in Hpool.
      discriminate Hpool.
Defined.

(** ** The fast-path projector *)

Lemma pm_execute_fast_path `{Env} (order : list nat) (cfg : config)
    (drop_keys : pyval) (input_data : list record) :
  is_dict (dict_get cfg "output" (PDict ∅)) = true →
  cfg !! "prompts" = None →
  cfg !! "drop_keys" = Some drop_keys →
  pm_execute order cfg input_data
  = (dropped <- mapM (dict_without drop_keys) input_data ;;
     ret (dropped, cost_zero)).
Proof.
  intros Hout Hp Hd. unfold pm_execute, pm_output_schema.
  destruct (dict_get cfg "output" (PDict ∅)); try discriminate.
  simpl. by rewrite Hp, Hd.
Qed.

Lemma mapM_dict_without_list (l : list pyval) (input_data : list record) :
  mapM (dict_without (PList l)) input_data
  = inr (remove_fields (str_elements l) <$> input_data).
Proof.
  rewrite (mapM_ext _ (λ r, ret (remove_fields (str_elements l) r))).
  - apply mapM_total.
  - intros r _. apply dict_without_list.
Qed.

(** C3: with [drop_keys] a list and no prompt, [MapOperation.execute]
    returns, for any environment and so without using any collaborator,
    the input records in their order, each without the fields named in the
    list (a name the record does not have changes nothing), and the cost
    zero.  So does [ParallelMapOperation.execute] when [prompts] is absent
    and [output], if present, is a dict. *)
Theorem drop_keys_only_execute `{Env} (order : list nat) (cfg : config)
    (l : list pyval) (input_data : list record) :
  cfg !! "drop_keys" = Some (PList l) →
  (cfg !! "prompt" = None →
   map_execute order cfg input_data
   = inr (remove_fields (str_elements l) <$> input_data, cost_zero))
  ∧ (cfg !! "prompts" = None →
     is_dict (dict_get cfg "output" (PDict ∅)) = true →
     pm_execute order cfg input_data
     = inr (remove_fields (str_elements l) <$> input_data, cost_zero)).
Proof.
  intros Hdrop. split.
  - intros Hprompt.
    rewrite (map_execute_fast_path _ _ (PList l)) by done.
    by rewrite mapM_dict_without_list.
  - intros Hprompts Hout.
    rewrite (pm_execute_fast_path _ _ (PList l)) by done.
    by rewrite mapM_dict_without_list.
Qed.

Lemma drop_keys_only_execute_witness :
  map_execute (H:=TestEnv.env TestEnv.echo_llm) [] Fixtures.cfg_drop
              [Fixtures.item_hello; Fixtures.item_markup]
  = inr ([ {["text" := PStr "hello"]}; Fixtures.item_markup ], 0%Z)
  ∧ pm_execute (H:=TestEnv.env TestEnv.echo_llm) [] Fixtures.cfg_drop
               [Fixtures.item_hello; Fixtures.item_markup]
    = inr ([ {["text" := PStr "hello"]}; Fixtures.item_markup ], 0%Z).
Proof.
  destruct (drop_keys_only_execute (H:=TestEnv.env TestEnv.echo_llm) []
              Fixtures.cfg_drop [PStr "id"]
              [Fixtures.item_hello; Fixtures.item_markup])
    as [Hmap Hpm].
  - vm_compute; reflexivity.
  - split.
    + rewrite Hmap; [vm_compute; reflexivity | vm_compute; reflexivity].
    + rewrite Hpm; vm_compute; reflexivity.
Defined.


Lemma remove_fields_lookup_kept (names : list string) (r : record) (k : string) :
  k ∉ names → remove_fields names r !! k = r !! k.
Proof. intros Hin. rewrite lookup_remove_fields. by rewrite decide_False. Qed.


(** ** ParallelMapOperation.syntax_check *)

Lemma forM__inr {A} (f : A → result unit) (l : list A) :
  forM_ f l = inr () ↔ Forall (λ a, f a = inr ()) l.
Proof.
  induction l as [|a l IH]; simpl.
  - split; [constructor | done].
  - split.
    + intros ([] & Ha & Hl)%bind_inr. constructor; [done | by apply IH].
    + inversion 1 as [|? ? Ha Hl]; subst. rewrite Ha. simpl. by apply IH.
Qed.

Section coverage.
Context `{Env}.

(** An entry that passes the per-entry checks is a dict whose
    [output_keys] is a list. *)
Lemma pm_check_prompt_config_inr (i : nat) (pc : pyval) :
  pm_check_prompt_config i pc = inr () →
  ∃ d keys, pc = PDict d ∧ d !! "output_keys" = Some (PList keys).
Proof.
  destruct pc as [| | | | |d]; try discriminate.
  unfold pm_check_prompt_config.
  intros (_ & _ & (prompt & _ & (_ & _ & Hrest)%bind_inr)%bind_inr)%bind_inr.
  apply bind_inr in Hrest as (oks & Hoks & ([] & Hlist & _)%bind_inr).
  simpl in Hoks. destruct (d !! "output_keys") as [v|] eqn:Hv; [|done].
  injection Hoks as ->. destruct oks; try discriminate.
  by eexists _, _.
Qed.

Lemma pm_check_entries_inr (prompts : list pyval) :
  pm_check_entries prompts = inr () →
  Forall (λ pc, ∃ d keys, pc = PDict d ∧ d !! "output_keys" = Some (PList keys))
         prompts.
Proof.
  unfold pm_check_entries. intros (_ & _ & Hall)%bind_inr.
  apply forM__inr in Hall. apply Forall_forall. intros pc Hpc.
  apply list_elem_of_lookup in Hpc as [i Hi].
  rewrite Forall_forall in Hall.
  apply (pm_check_prompt_config_inr i). apply (Hall (i, pc)).
  apply list_elem_of_lookup. exists i. by rewrite list_lookup_imap, Hi.
Qed.

Lemma cover_keys (keys : list pyval) (acc : gset string) :
  forallb hashable keys = true →
  foldlM (λ (acc : gset string) (key : pyval),
            match key with
            | PStr k => ret (acc ∪ {[k]})
            | _ => if hashable key then ret acc
                   else raise (unhashable_error key)
            end) acc keys
  = inr (acc ∪ list_to_set (str_elements keys)).
Proof.
  revert acc. induction keys as [|key keys IH]; intros acc Hh.
  - simpl. f_equal. set_solver.
  - simpl in Hh. apply andb_true_iff in Hh as [Hkey Hh].
    destruct key; simpl in *; try discriminate;
      rewrite IH by done; f_equal; unfold str_elements; simpl; set_solver.
Qed.

Lemma pm_cover_union (prompts : list pyval) (acc : gset string) :
  Forall (λ pc, ∃ d keys, pc = PDict d ∧ d !! "output_keys" = Some (PList keys))
         prompts →
  output_keys_hashable prompts = true →
  foldlM pm_cover acc prompts = inr (acc ∪ output_keys_union prompts).
Proof.
  intros Hall. revert acc.
  induction Hall as [|pc prompts (d & keys & -> & Hkeys) _ IH]; intros acc Hh.
  - simpl. f_equal. unfold output_keys_union. simpl. set_solver.
  - simpl in Hh. rewrite Hkeys in Hh. apply andb_true_iff in Hh as [Hk Hh].
    simpl. unfold pm_cover at 1. simpl. rewrite Hkeys. simpl.
    rewrite cover_keys by done. simpl. rewrite IH by done. f_equal.
    unfold output_keys_union. simpl. rewrite Hkeys. set_solver.
Qed.

(** C1, as the code has it: for a configuration that passes the checks
    before the coverage check and whose [output_keys] can be collected,
    [ParallelMapOperation.syntax_check] accepts exactly when every key of
    [output.schema] is among the [output_keys] of some prompt; otherwise it
    raises the [ValueError] that names the keys left uncovered.  Keys
    declared by the prompts beyond those of the schema are not checked. *)
Theorem pm_syntax_check_coverage (cfg : config) (prompts : list pyval)
    (schema : gmap string pyval) :
  cfg !! "prompts" = Some (PList prompts) →
  pm_check_drop_keys cfg = inr () →
  pm_check_entries prompts = inr () →
  output_keys_hashable prompts = true →
  cfg_output_schema cfg = inr (PDict schema) →
  (pm_syntax_check cfg = inr () ↔ dom schema ⊆ output_keys_union prompts)
  ∧ (dom schema ⊈ output_keys_union prompts →
     pm_syntax_check cfg
     = inl (ValueError
              ("The following output schema keys are not covered by any prompt: "
               +:+ repr_keys (dom schema ∖ output_keys_union prompts)))).
Proof.
  intros Hprompts Hdrop Hentries Hhash Hschema.
  assert (pm_syntax_check cfg
          = if bool_decide (dom schema ∖ output_keys_union prompts = ∅)
            then inr ()
            else inl (ValueError
              ("The following output schema keys are not covered by any prompt: "
               +:+ repr_keys (dom schema ∖ output_keys_union prompts)))) as ->.
  { unfold pm_syntax_check. rewrite Hdrop, Hprompts. simpl.
    rewrite Hentries. simpl. unfold pm_check_coverage.
    rewrite Hschema. simpl.
    rewrite pm_cover_union by (done || by apply pm_check_entries_inr).
    simpl. rewrite union_empty_l_L.
    by destruct (bool_decide (dom schema ∖ output_keys_union prompts = ∅)). }
  split; [split|].
  - destruct (bool_decide _) eqn:E; [|discriminate].
    intros _. apply bool_decide_eq_true in E. set_solver.
  - intros Hsub. rewrite bool_decide_eq_true_2; [done|]. set_solver.
  - intros Hsub. rewrite bool_decide_eq_false_2; [done|].
    intros Hempty. apply Hsub. intros k Hk.
    destruct (decide (k ∈ output_keys_union prompts)); [done|].
    exfalso. set_solver.
Qed.

End coverage.

Lemma pm_syntax_check_coverage_witness :
  pm_syntax_check (H:=TestEnv.env TestEnv.echo_llm) Fixtures.cfg_pm_superset
  = inr ().
Proof.
  destruct (pm_syntax_check_coverage (H:=TestEnv.env TestEnv.echo_llm)
              Fixtures.cfg_pm_superset [Fixtures.pc_echo_b]
              {["echo" := PStr "string"]})
    as [[_ Haccept] _]; [vm_compute; reflexivity ..|].
  apply Haccept. apply (bool_decide_unpack _). vm_compute. exact I.
Defined.

(** C1 as stated fails: the prompt of [cfg_pm_superset] declares the keys
    [echo] and [b], the schema has the key [echo] only, and the
    configuration is accepted. *)
Lemma pm_syntax_check_accepts_superset :
  cfg_output_schema Fixtures.cfg_pm_superset = inr Fixtures.schema_echo
  ∧ ¬ (pm_syntax_check (H:=TestEnv.env TestEnv.echo_llm)
                       Fixtures.cfg_pm_superset ≠ inr ()
       ↔ output_keys_union [Fixtures.pc_echo_b]
         ≠ dom ({["echo" := PStr "string"]} : gmap string pyval)).
Proof.
  split; [vm_compute; reflexivity|].
  intros [_ Hreject]. apply Hreject; [|vm_compute; reflexivity].
  intros Heq.
  apply (f_equal (λ keys : gset string, bool_decide ("b" ∈ keys))) in Heq.
  vm_compute in Heq. discriminate.
Qed.

(** Such a configuration fails later, when the first unit builds the schema
    of its prompt. *)
Lemma pm_execute_superset_key_error :
  pm_execute (H:=TestEnv.env TestEnv.echo_llm) [0] Fixtures.cfg_pm_superset
             [Fixtures.item_hello]
  = inl (KeyError (PStr "b")).
Proof. vm_compute; reflexivity. Qed.

(** ** The multi-prompt executor *)




Lemma units_nil {A B} (input : list A) :
  concat ((λ item, (λ pc : B, (item, pc)) <$> []) <$> input) = [].
Proof. induction input as [|a l IH]; [done|]. exact IH. Qed.

Lemma omap_lookup_empty {B} (l : list nat) :
  omap (λ i, (∅ : gmap nat B) !! i) l = [].
Proof.
  induction l as [|i l IH]; [done|]. simpl. by rewrite lookup_empty.
Qed.

Lemma pm_units_inr (prompts : pyval) (pcs : list pyval) (input : list record) :
  py_iter prompts = inr pcs →
  pm_units prompts input
  = inr (concat ((λ item, (λ pc, (item, pc)) <$> pcs) <$> input)).
Proof.
  intros Hiter. unfold pm_units. rewrite Hiter. simpl.
  by rewrite (mapM_total (λ item : record, (λ pc, (item, pc)) <$> pcs)).
Qed.


Section reassembly.
Context `{Env}.
Context (cfg : config) (output_schema : pyval) (prompts : pyval)
        (pcs : list pyval) (input : list record)
        (slots : list (option (result (record * cost)))).
Hypothesis Hiter : py_iter prompts = inr pcs.
Hypothesis Hslots : ∀ k j item pc,
  input !! k = Some item → pcs !! j = Some pc →
  future_result slots (k * length pcs + j)
  = process_prompt cfg output_schema (item, pc).






End reassembly.

Section pm_executor.
Context `{Env}.






End pm_executor.

Section schedule.
Context `{Env}.



End schedule.

(** ** Order and length of the output *)



(** ** The caller's records *)

Section frame.
Context (s0 : store).

Lemma store_preserved_refl : store_preserved s0 s0.
Proof. by intros l r. Qed.

Lemma store_preserved_length (s : store) :
  store_preserved s0 s → length s0 ≤ length s.
Proof.
  intros Hp. destruct (decide (length s0 ≤ length s)) as [|Hlt]; [done|].
  destruct (lookup_lt_is_Some_2 s0 (length s)) as [r Hr]; [lia|].
  apply Hp, lookup_lt_Some in Hr. lia.
Qed.

Lemma st_frame_ret {A} (a : A) (Q : A → Prop) :
  Q a → st_frame s0 (st_ret a) Q.
Proof. intros HQ s Hs. split; [done|]. by intros ? [= <-]. Qed.

Lemma st_frame_lift {A} (r : result A) (Q : A → Prop) :
  (∀ a, r = inr a → Q a) → st_frame s0 (st_lift r) Q.
Proof. intros HQ s Hs. split; [done|]. exact HQ. Qed.

Lemma st_frame_bind {A B} (m : st A) (k : A → st B) (P : A → Prop)
    (Q : B → Prop) :
  st_frame s0 m P →
  (∀ a, P a → st_frame s0 (k a) Q) →
  st_frame s0 (st_bind m k) Q.
Proof.
  intros Hm Hk s Hs. unfold st_bind.
  destruct (Hm s Hs) as [Hs' HP].
  destruct (m s) as [[e|a] s']; simpl in *; [by split|].
  apply Hk; [by apply HP | done].
Qed.

Lemma st_frame_weaken {A} (m : st A) (P Q : A → Prop) :
  st_frame s0 m P → (∀ a, P a → Q a) → st_frame s0 m Q.
Proof.
  intros Hm HPQ s Hs. destruct (Hm s Hs) as [Hs' HP].
  split; [done|]. intros a Ha. by apply HPQ, HP.
Qed.

Lemma st_frame_read (l : loc) : st_frame s0 (st_read l) (λ _, True).
Proof.
  intros s Hs. unfold st_read. by destruct (s !! l).
Qed.

(** A new dict is none of the caller's. *)
Lemma st_frame_alloc (r : record) :
  st_frame s0 (st_alloc r) (λ l, length s0 ≤ l).
Proof.
  intros s Hs. unfold st_alloc. simpl. split.
  - intros l r' Hl. apply lookup_app_l_Some. by apply Hs.
  - intros a [= <-]. by apply store_preserved_length.
Qed.

(** A write to a dict allocated since [s0] changes none of the caller's. *)
Lemma st_frame_write (l : loc) (r : record) :
  length s0 ≤ l → st_frame s0 (st_write l r) (λ _, True).
Proof.
  intros Hl s Hs. unfold st_write. simpl. split; [|done].
  intros l' r' Hl'. rewrite list_lookup_insert_ne.
  - by apply Hs.
  - apply lookup_lt_Some in Hl'. lia.
Qed.

Lemma st_frame_mapM {A B} (f : A → st B) (l : list A) (Q : B → Prop) :
  (∀ a, a ∈ l → st_frame s0 (f a) Q) →
  st_frame s0 (st_mapM f l) (Forall Q).
Proof.
  induction l as [|a l IH]; intros Hf.
  - by apply st_frame_ret.
  - simpl. eapply st_frame_bind; [apply Hf; by left|].
    intros b Hb. eapply st_frame_bind.
    + apply IH. intros a' Ha'. apply Hf. by right.
    + intros bs Hbs. apply st_frame_ret. by constructor.
Qed.

Lemma st_frame_foldlM {A B} (f : B → A → st B) (l : list A) (acc : B)
    (Q : B → Prop) :
  Q acc →
  (∀ b a, Q b → st_frame s0 (f b a) Q) →
  st_frame s0 (st_foldlM f acc l) Q.
Proof.
  intros Hacc Hf. revert acc Hacc.
  induction l as [|a l IH]; intros acc Hacc.
  - by apply st_frame_ret.
  - simpl. eapply st_frame_bind; [by apply Hf|]. intros b Hb. by apply IH.
Qed.

End frame.

Section preserved.
Context `{Env} (s0 : store) (T : template → Prop).
Hypothesis Hkeeps : templates_keep_record T.

Local Abbreviation fresh := (λ l : loc, length s0 ≤ l).

(** Rendering a template that leaves the record as it was leaves the store
    as it was. *)
Lemma st_frame_render (tpl : template) (ref : loc) :
  T tpl → st_frame s0 (st_render tpl ref) (λ _, True).
Proof.
  intros HT s Hs. unfold st_render.
  destruct (s !! ref) as [item|] eqn:Href; [|done].
  pose proof (Hkeeps tpl item HT) as Hitem.
  destruct (render_item tpl item) as [r item']. simpl in Hitem. subst item'.
  by rewrite list_insert_id.
Qed.

Lemma drop_item_st_frame (drop_keys : pyval) (ref : loc) :
  st_frame s0 (drop_item_st drop_keys ref) fresh.
Proof.
  unfold drop_item_st.
  eapply st_frame_bind; [apply st_frame_read|]. intros item _.
  eapply st_frame_bind; [by apply (st_frame_lift _ _ (λ _, True))|].
  intros new_item _. apply st_frame_alloc.
Qed.

Lemma process_map_item_st_frame (cfg : config) (ref : loc) :
  (∀ tpl, map_template cfg tpl → T tpl) →
  st_frame s0 (process_map_item_st cfg ref) (λ _, True).
Proof.
  intros HT. unfold process_map_item_st.
  eapply (st_frame_bind _ _ _ (λ src, cfg !! "prompt" = Some src)).
  { apply st_frame_lift. intros src. unfold cfg_item.
    destruct (cfg !! "prompt"); [by intros [= ->]|done]. }
  intros src Hsrc.
  eapply (st_frame_bind _ _ _ (λ tpl, Template src = inr tpl));
    [by apply st_frame_lift|].
  intros tpl Htpl.
  eapply st_frame_bind; [apply st_frame_render, HT; by exists src|].
  intros prompt _.
  eapply st_frame_bind; [apply st_frame_read|]. intros item _.
  eapply st_frame_bind; [by apply (st_frame_lift _ _ (λ _, True))|].
  intros llm_result _. destruct (validated llm_result).
  - eapply st_frame_bind; [by apply (st_frame_lift _ _ (λ _, True))|].
    intros output _. eapply st_frame_bind; [apply st_frame_alloc|].
    intros merged _. by apply st_frame_ret.
  - by apply st_frame_ret.
Qed.

(** The pool preserves the store when every unit does. *)
Lemma pool_run_st_preserved {U A} (order : list nat) (f : U → st A)
    (units : list U) (s : store) :
  (∀ u, u ∈ units → st_frame s0 (f u) (λ _, True)) →
  store_preserved s0 s →
  store_preserved s0 (pool_run_st order f units s).2.
Proof.
  intros Hf. unfold pool_run_st.
  generalize (replicate (length units) (@None (result A))).
  revert s. induction order as [|i order IH]; intros s slots Hs; [done|].
  simpl. destruct (units !! i) as [u|] eqn:Hu; [|by apply IH].
  assert (u ∈ units) as Hin by (apply list_elem_of_lookup; by exists i).
  destruct (Hf u Hin s Hs) as [Hs' _].
  destruct (f u s) as [r s']. by apply IH.
Qed.

Lemma map_collect_st_frame (cfg : config)
    (slots : list (option (result (option loc * cost))))
    (indices : list nat) (results : list loc) (total : cost) :
  st_frame s0 (map_collect_st cfg slots indices results total) (λ _, True).
Proof.
  revert results total.
  induction indices as [|i indices IH]; intros results total.
  - by apply st_frame_ret.
  - cbn [map_collect_st].
    eapply st_frame_bind; [by apply (st_frame_lift _ _ (λ _, True))|].
    intros r _. eapply st_frame_bind; [|intros results' _; apply IH].
    instantiate (1 := λ _, True).
    destruct r.1 as [ref|]; [|by apply st_frame_ret].
    destruct (cfg !! "drop_keys") as [drop_keys|]; [|by apply st_frame_ret].
    eapply st_frame_bind; [apply drop_item_st_frame|].
    intros new _. by apply st_frame_ret.
Qed.

Lemma map_execute_st_frame (order : list nat) (cfg : config)
    (input_data : list loc) :
  (∀ tpl, map_template cfg tpl → T tpl) →
  st_frame s0 (map_execute_st order cfg input_data) (λ _, True).
Proof.
  intros HT.
  assert (st_frame s0
            (_ <~ st_lift (thread_pool (map_max_batch_size cfg)) ;;
             λ s, let (futures, s') :=
                    pool_run_st order (process_map_item_st cfg) input_data s in
                  (_ <~ st_lift (cfg_item cfg "name") ;;
                   map_collect_st cfg futures (seq 0 (length input_data)) []
                                  cost_zero) s')
            (λ _, True)) as Hmain.
  { eapply st_frame_bind; [by apply (st_frame_lift _ _ (λ _, True))|].
    intros _ _ s Hs.
    pose proof (pool_run_st_preserved order (process_map_item_st cfg)
                  input_data s
                  (λ u _, process_map_item_st_frame cfg u HT) Hs) as Hpool.
    destruct (pool_run_st order (process_map_item_st cfg) input_data s)
      as [futures s'].
    assert (st_frame s0
              (_ <~ st_lift (cfg_item cfg "name") ;;
               map_collect_st cfg futures (seq 0 (length input_data)) []
                              cost_zero) (λ _, True)) as Hcollect.
    { eapply st_frame_bind; [by apply (st_frame_lift _ _ (λ _, True))|].
      intros _ _. apply map_collect_st_frame. }
    exact (Hcollect s' Hpool). }
  unfold map_execute_st.
  destruct (cfg !! "prompt"); [done|].
  destruct (cfg !! "drop_keys") as [drop_keys|]; [|done].
  eapply st_frame_bind.
  - apply st_frame_mapM. intros ref _. apply drop_item_st_frame.
  - intros dropped _. by apply st_frame_ret.
Qed.

Lemma process_prompt_st_frame (cfg : config) (output_schema : pyval)
    (u : loc * pyval) :
  (∀ src tpl, py_getitem u.2 "prompt" = inr src →
              from_string true src = inr tpl → T tpl) →
  st_frame s0 (process_prompt_st cfg output_schema u) (λ _, True).
Proof.
  intros HT. unfold process_prompt_st, render_jinja_template_st.
  eapply (st_frame_bind _ _ _ (λ src, py_getitem u.2 "prompt" = inr src));
    [by apply st_frame_lift|].
  intros src Hsrc.
  eapply st_frame_bind; [|intros prompt _; by apply st_frame_lift].
  instantiate (1 := λ _, True).
  eapply st_frame_bind; [apply st_frame_read|]. intros data _.
  destruct (negb (truthy (PDict data))); [by apply st_frame_ret|].
  eapply (st_frame_bind _ _ _ (λ tpl, from_string true src = inr tpl));
    [by apply st_frame_lift|].
  intros tpl Htpl. apply st_frame_render. by apply (HT src).
Qed.

(** Every unit of the pool pairs a reference with an entry of [prompts]. *)
Lemma pm_units_st_elem (prompts : pyval) (input_data : list loc)
    (units : list (loc * pyval)) (u : loc * pyval) :
  pm_units_st prompts input_data = inr units →
  u ∈ units →
  ∃ pcs, py_iter prompts = inr pcs ∧ u.2 ∈ pcs.
Proof.
  unfold pm_units_st. destruct (py_iter prompts) as [e|pcs].
  - destruct input_data as [|ref refs]; [|done].
    intros [= <-] Hu. by apply elem_of_nil in Hu.
  - rewrite (mapM_ext _ (λ ref, ret ((λ pc, (ref, pc)) <$> pcs))) by done.
    rewrite mapM_total. cbn [bind ret]. intros [= <-] Hu.
    exists pcs. split; [done|].
    induction input_data as [|ref refs IH]; simpl in Hu;
      [by apply elem_of_nil in Hu|].
    apply elem_of_app in Hu as [Hu|Hu]; [|by apply IH].
    by apply list_elem_of_fmap in Hu as (pc & -> & Hpc).
Qed.

(** The accumulators of the reassembly loop are dicts allocated by the
    loop, and the loop writes to them only. *)
Lemma pm_collect_st_frame (prompts : pyval) (input_data : list loc)
    (slots : list (option (result (record * cost)))) (indices : list nat)
    (results : gmap nat loc) (total : cost) :
  map_Forall (λ _, fresh) results →
  st_frame s0 (pm_collect_st prompts input_data slots indices results total)
           (λ rc, map_Forall (λ _, fresh) rc.1).
Proof.
  revert results total.
  induction indices as [|i indices IH]; intros results total Hfresh.
  - by apply st_frame_ret.
  - cbn [pm_collect_st].
    eapply st_frame_bind; [by apply (st_frame_lift _ _ (λ _, True))|].
    intros r _.
    eapply st_frame_bind; [by apply (st_frame_lift _ _ (λ _, True))|].
    intros n _.
    eapply st_frame_bind; [by apply (st_frame_lift _ _ (λ _, True))|].
    intros _ _.
    eapply (st_frame_bind _ _ _ (λ results', map_Forall (λ _, fresh) results')).
    { destruct (bool_decide (i `mod` n = 0)); [|by apply st_frame_ret].
      eapply st_frame_bind; [by apply (st_frame_lift _ _ (λ _, True))|].
      intros ref _. eapply st_frame_bind; [apply st_frame_read|].
      intros item _. eapply st_frame_bind; [apply st_frame_alloc|].
      intros item_result Hnew. apply st_frame_ret.
      by apply map_Forall_insert_2. }
    intros results' Hfresh'.
    eapply (st_frame_bind _ _ _ fresh).
    { apply st_frame_lift. intros l Hl.
      destruct (results' !! (i `div` n)) as [l'|] eqn:Hlook; [|done].
      injection Hl as <-. by apply (Hfresh' _ _ Hlook). }
    intros item_result Hitem.
    eapply st_frame_bind; [apply st_frame_read|]. intros current _.
    eapply st_frame_bind; [by apply st_frame_write|]. intros _ _.
    by apply IH.
Qed.

Lemma pop_keys_st_frame (drop_keys : pyval) (ref : loc) :
  fresh ref →
  st_frame s0 (pop_keys_st drop_keys ref) (λ _, True).
Proof.
  intros Hfresh. unfold pop_keys_st.
  eapply st_frame_bind; [by apply (st_frame_lift _ _ (λ _, True))|].
  intros keys _. eapply st_frame_bind; [|intros; by apply st_frame_ret].
  apply (st_frame_foldlM _ _ _ _ (λ _, True)); [done|].
  intros [] key _.
  destruct key; cbn [hashable]; try (by apply st_frame_ret);
    (eapply st_frame_bind; [apply st_frame_read|]; intros item _).
  - by apply st_frame_write.
  - destruct (bool_decide (item = ∅));
      [by apply st_frame_ret|by apply st_frame_lift].
  - destruct (bool_decide (item = ∅));
      [by apply st_frame_ret|by apply st_frame_lift].
Qed.

Lemma pm_execute_st_frame (order : list nat) (cfg : config)
    (input_data : list loc) :
  (∀ tpl, pm_template cfg tpl → T tpl) →
  st_frame s0 (pm_execute_st order cfg input_data) (λ _, True).
Proof.
  intros HT. unfold pm_execute_st.
  eapply st_frame_bind; [by apply (st_frame_lift _ _ (λ _, True))|].
  intros output_schema _.
  assert (∀ prompts_opt drop_opt,
            (∀ prompts pcs pc src tpl,
               prompts_opt = Some prompts →
               py_iter prompts = inr pcs →
               pc ∈ pcs →
               py_getitem pc "prompt" = inr src →
               from_string true src = inr tpl → T tpl) →
            st_frame s0
              (rc <~ match prompts_opt with
                     | Some prompts =>
                         units <~ st_lift (pm_units_st prompts input_data) ;;
                         λ s,
                           let (all_futures, s') :=
                             pool_run_st order
                               (process_prompt_st cfg output_schema) units s in
                           pm_collect_st prompts input_data all_futures
                                         (seq 0 (length units)) ∅ cost_zero s'
                     | None =>
                         copies <~ st_mapM (λ ref, item <~ st_read ref ;;
                                                   st_alloc item)
                                           input_data ;;
                         st_ret (map_seq 0 copies, cost_zero)
                     end ;;
               _ <~ match drop_opt with
                    | Some drop_keys =>
                        refs <~ st_mapM (pop_keys_st drop_keys)
                                        (map_to_list rc.1).*2 ;;
                        st_ret ()
                    | None => st_ret ()
                    end ;;
               st_ret (omap (λ i, rc.1 !! i) (seq 0 (length input_data)), rc.2))
              (λ _, True)) as Hmain.
  { intros prompts_opt drop_opt Hprompts.
    eapply (st_frame_bind _ _ _ (λ rc, map_Forall (λ _, fresh) rc.1)).
    - destruct prompts_opt as [prompts|].
      + eapply (st_frame_bind _ _ _
                  (λ units, pm_units_st prompts input_data = inr units));
          [by apply st_frame_lift|].
        intros units Hunits s Hs.
        assert (∀ u, u ∈ units →
                     st_frame s0 (process_prompt_st cfg output_schema u)
                              (λ _, True)) as Hunit.
        { intros u Hu. apply process_prompt_st_frame. intros src tpl Hsrc Htpl.
          destruct (pm_units_st_elem _ _ _ _ Hunits Hu) as (pcs & Hpcs & Hpc).
          exact (Hprompts prompts pcs u.2 src tpl eq_refl Hpcs Hpc Hsrc
                          Htpl). }
        pose proof (pool_run_st_preserved order
                      (process_prompt_st cfg output_schema) units s
                      Hunit Hs) as Hpool.
        destruct (pool_run_st order (process_prompt_st cfg output_schema)
                              units s) as [all_futures s'].
        apply pm_collect_st_frame; [|done]. apply map_Forall_empty.
      + eapply (st_frame_bind _ _ _ (Forall fresh)).
        * apply st_frame_mapM. intros ref _.
          eapply st_frame_bind; [apply st_frame_read|]. intros item _.
          apply st_frame_alloc.
        * intros copies Hcopies. apply st_frame_ret. simpl.
          intros i l Hl. rewrite lookup_map_seq_0 in Hl.
          rewrite Forall_forall in Hcopies. apply Hcopies.
          apply list_elem_of_lookup. by exists i.
    - intros rc Hfresh.
      eapply st_frame_bind; [|intros; by apply st_frame_ret].
      instantiate (1 := λ _, True).
      destruct drop_opt as [drop_keys|]; [|by apply st_frame_ret].
      eapply st_frame_bind; [|intros; by apply st_frame_ret].
      apply (st_frame_mapM _ _ _ (λ _, True)).
      intros ref Href. apply pop_keys_st_frame.
      apply list_elem_of_fmap in Href as ([i l] & -> & Hil).
      apply elem_of_map_to_list in Hil. by apply (Hfresh _ _ Hil). }
  destruct (cfg !! "prompts") as [prompts|] eqn:Hprompts.
  { apply (Hmain (Some prompts) (cfg !! "drop_keys")).
    intros prompts' pcs pc src tpl [= <-] Hpcs Hpc Hsrc Htpl.
    apply HT. by exists prompts, pcs, pc, src. }
  destruct (cfg !! "drop_keys") as [drop_keys|];
    [|by apply (Hmain None None)].
  eapply st_frame_bind.
  - apply st_frame_mapM. intros ref _. apply drop_item_st_frame.
  - intros dropped _. by apply st_frame_ret.
Qed.

End preserved.

(** C9, as the code has it: when rendering the templates of the
    configuration leaves the record they are given as it was, [execute], in
    both variants, leaves every dict that exists when it is called as it
    was, whether it returns or raises: what it changes are dicts it
    allocated itself (the copies that the multi-prompt reassembly updates
    and pops from), and what it returns from the single-prompt merge and
    from the projections are new dicts. *)
Theorem execute_preserves_input `{Env} (order : list nat) (cfg : config)
    (input_data : list loc) (s0 : store) (l : loc) (r : record) :
  s0 !! l = Some r →
  (templates_keep_record (map_template cfg) →
   (map_execute_st order cfg input_data s0).2 !! l = Some r)
  ∧ (templates_keep_record (pm_template cfg) →
     (pm_execute_st order cfg input_data s0).2 !! l = Some r).
Proof.
  intros Hl. split; intros Hkeeps.
  - by apply (map_execute_st_frame s0 (map_template cfg) Hkeeps order cfg
                input_data (λ _ HT, HT) s0 (store_preserved_refl s0)).
  - by apply (pm_execute_st_frame s0 (pm_template cfg) Hkeeps order cfg
                input_data (λ _ HT, HT) s0 (store_preserved_refl s0)).
Qed.

Lemma execute_preserves_input_witness :
  (map_execute_st (H:=TestEnv.env TestEnv.echo_llm) [1; 0]
                  Fixtures.cfg_echo_drop [0; 1] Fixtures.store2).2 !! 0
  = Some Fixtures.item_hello
  ∧ (pm_execute_st (H:=TestEnv.env TestEnv.echo_llm) [1; 0]
                   Fixtures.cfg_pm_drop [0; 1] Fixtures.store2).2 !! 1
    = Some Fixtures.item_bad.
Proof.
  split.
  - apply (execute_preserves_input (H:=TestEnv.env TestEnv.echo_llm) [1; 0]
             Fixtures.cfg_echo_drop [0; 1] Fixtures.store2 0
             Fixtures.item_hello).
    + reflexivity.
    + intros tpl item _. reflexivity.
  - apply (execute_preserves_input (H:=TestEnv.env TestEnv.echo_llm) [1; 0]
             Fixtures.cfg_pm_drop [0; 1] Fixtures.store2 1
             Fixtures.item_bad).
    + reflexivity.
    + intros tpl item _. reflexivity.
Defined.

(** C9 as stated fails: the templates are rendered by jinja2's plain
    environment, with the caller's dict bound to [input], and may call its
    methods.  A prompt that prints [input.pop('text')] removes the field
    [text] from the caller's record, in the single-prompt variant and in
    the multi-prompt variant. *)
Lemma execute_template_changes_input :
  Fixtures.store2 !! 0 = Some Fixtures.item_hello
  ∧ (map_execute_st (H:=TestEnv.env_pop TestEnv.echo_llm) [0]
                    Fixtures.cfg_pop [0] Fixtures.store2).2 !! 0
    = Some {["id" := PInt 1]}
  ∧ (pm_execute_st (H:=TestEnv.env_pop TestEnv.echo_llm) [0]
                   Fixtures.cfg_pm_pop [0] Fixtures.store2).2 !! 0
    = Some {["id" := PInt 1]}
  ∧ ¬ (∀ l r, Fixtures.store2 !! l = Some r →
         (map_execute_st (H:=TestEnv.env_pop TestEnv.echo_llm) [0]
                         Fixtures.cfg_pop [0] Fixtures.store2).2 !! l = Some r
         ∧ (pm_execute_st (H:=TestEnv.env_pop TestEnv.echo_llm) [0]
                          Fixtures.cfg_pm_pop [0] Fixtures.store2).2 !! l
           = Some r).
Proof.
  assert ((map_execute_st (H:=TestEnv.env_pop TestEnv.echo_llm) [0]
             Fixtures.cfg_pop [0] Fixtures.store2).2 !! 0
          = Some ({["id" := PInt 1]} : record)) as Hmap
    by (vm_compute; reflexivity).
  split; [reflexivity|]. split; [exact Hmap|].
  split; [vm_compute; reflexivity|].
  intros Hall. destruct (Hall 0 Fixtures.item_hello eq_refl) as [Hsame _].
  rewrite Hmap in Hsame.
  apply (f_equal (λ o : option record, m ← o; m !! "text")) in Hsame.
  vm_compute in Hsame. discriminate.
Qed.

(** The multi-prompt variant on the store of the fixtures: the results are
    two new dicts, at locations 2 and 3, updated and popped in place; the
    caller's two dicts are as before. *)
Example pm_execute_st_store2 :
  pm_execute_st (H:=TestEnv.env TestEnv.echo_llm) [1; 0]
                Fixtures.cfg_pm_drop [0; 1] Fixtures.store2
  = (inr ([2; 3], 2%Z),
     [ Fixtures.item_hello; Fixtures.item_bad;
       {["echo" := PStr "hello"; "text" := PStr "hello"]};
       {["echo" := PStr "bad"; "text" := PStr "bad"]} ]).
Proof. vm_compute; reflexivity. Qed.

(** The same input dict given twice is copied twice. *)
Example pm_execute_st_aliased :
  pm_execute_st (H:=TestEnv.env TestEnv.echo_llm) [0; 1]
                Fixtures.cfg_pm_drop [0; 0] Fixtures.store2
  = (inr ([2; 3], 2%Z),
     [ Fixtures.item_hello; Fixtures.item_bad;
       {["echo" := PStr "hello"; "text" := PStr "hello"]};
       {["echo" := PStr "hello"; "text" := PStr "hello"]} ]).
Proof. vm_compute; reflexivity. Qed.

(** The single-prompt variant allocates the merged dict and then the
    projected one; the unvalidated item yields neither. *)
Example map_execute_st_store2 :
  map_execute_st (H:=TestEnv.env TestEnv.echo_llm) [1; 0]
                 Fixtures.cfg_echo_drop [0; 1] Fixtures.store2
  = (inr ([3], 2%Z),
     [ Fixtures.item_hello; Fixtures.item_bad;
       {["echo" := PStr "hello"; "id" := PInt 1; "text" := PStr "hello"]};
       {["echo" := PStr "hello"; "text" := PStr "hello"]} ]).
Proof. vm_compute; reflexivity. Qed.

(** The scenarios of the specification. *)
Example map_execute_echo :
  map_execute (H:=TestEnv.env (TestEnv.const_llm {["echo" := PStr "hello"]} 1%Z true))
              [0] Fixtures.cfg_echo [Fixtures.item_hello]
  = inr ([ {["id" := PInt 1; "text" := PStr "hello"; "echo" := PStr "hello"]} ],
         1%Z).
Proof. vm_compute; reflexivity. Qed.

Example map_execute_not_validated :
  map_execute (H:=TestEnv.env (TestEnv.const_llm {["echo" := PStr "hello"]} 1%Z false))
              [0] Fixtures.cfg_echo [Fixtures.item_hello]
  = inr ([], 1%Z).
Proof. vm_compute; reflexivity. Qed.

Example map_syntax_check_neither :
  map_syntax_check (H:=TestEnv.env TestEnv.echo_llm) {["name" := PStr "m"]}
  = inl (ValueError "If 'drop_keys' is not specified, both 'prompt' and 'output' must be present in the configuration").
Proof. vm_compute; reflexivity. Qed.

(** ** The store model against the functional model *)

(** The functional model renders with [render], which only reads the
    record.  It is compared with the store model for collaborators whose
    rendering leaves the record as it was and returns what [render]
    returns. *)

Lemma st_bind_run {A B} (m : st A) (k : A → st B) (s : store) :
  st_bind m k s = match m s with
                  | (inl e, s') => (inl e, s')
                  | (inr a, s') => k a s'
                  end.
Proof. done. Qed.

Section map_refinement.
Context `{Env}.
Hypothesis Hkeeps : render_keeps_record.
Hypothesis Hagrees : render_item_agrees.

(** Rendering the dict behind a reference, when rendering only reads. *)
Lemma st_render_run (tpl : template) (ref : loc) (item : record) (s : store) :
  s !! ref = Some item →
  st_render tpl ref s = (render tpl {["input" := PDict item]}, s).
Proof.
  intros Href. unfold st_render. rewrite Href.
  pose proof (Hkeeps tpl item) as Hitem. pose proof (Hagrees tpl item) as Hr.
  destruct (render_item tpl item) as [r item']. simpl in Hitem, Hr.
  subst r item'. by rewrite list_insert_id.
Qed.

Lemma reads_prefix (s s' : store) (refs : list loc) (items : list record) :
  s `prefix_of` s' → reads s refs items → reads s' refs items.
Proof.
  intros Hpre Hreads. eapply Forall2_impl; [exact Hreads|].
  intros ref item Hl. exact (prefix_lookup_Some _ _ _ _ Hl Hpre).
Qed.

Lemma outcome_rel_prefix (s s' : store) x y :
  s `prefix_of` s' → outcome_rel s x y → outcome_rel s' x y.
Proof.
  intros Hpre [Hrec Hcost]. split; [|done].
  destruct Hrec as [l r Hl|]; constructor.
  exact (prefix_lookup_Some _ _ _ _ Hl Hpre).
Qed.

Lemma slot_rel_prefix (s s' : store) a b :
  s `prefix_of` s' → slot_rel s a b → slot_rel s' a b.
Proof.
  intros Hpre Hrel. destruct Hrel as [x y Hxy|]; constructor.
  destruct x, y; try done. by eapply outcome_rel_prefix.
Qed.

Lemma process_map_item_st_run (cfg : config) (ref : loc) (item : record)
    (s : store) :
  s !! ref = Some item →
  process_map_item_st cfg ref s
  = match process_map_item cfg item with
    | inl e => (inl e, s)
    | inr (Some r, c) => (inr (Some (length s), c), s ++ [r])
    | inr (None, c) => (inr (None, c), s)
    end.
Proof.
  intros Href. unfold process_map_item_st, process_map_item.
  change (map_item_call cfg item)
    with (prompt <- map_item_prompt cfg item ;; map_item_invoke cfg item prompt).
  unfold map_item_prompt. rewrite st_bind_run. unfold st_lift at 1.
  destruct (cfg_item cfg "prompt") as [e|src]; [done|]. cbn [bind].
  rewrite st_bind_run. unfold st_lift at 1.
  destruct (Template src) as [e|tpl]; [done|]. cbn [bind].
  rewrite st_bind_run, (st_render_run _ _ item) by done.
  destruct (render tpl {["input" := PDict item]}) as [e|prompt]; [done|].
  cbn [bind]. rewrite st_bind_run. unfold st_read at 1. rewrite Href.
  rewrite st_bind_run. unfold st_lift at 1.
  destruct (map_item_invoke cfg item prompt) as [e|r]; [done|]. cbn [bind].
  destruct (validated r); [|done].
  rewrite st_bind_run. unfold st_lift at 1.
  by destruct (map_item_parse cfg (response_of r)).
Qed.

Lemma drop_item_st_run (drop_keys : pyval) (ref : loc) (r : record)
    (s : store) :
  s !! ref = Some r →
  drop_item_st drop_keys ref s
  = match dict_without drop_keys r with
    | inl e => (inl e, s)
    | inr r' => (inr (length s), s ++ [r'])
    end.
Proof.
  intros Href. unfold drop_item_st, st_bind, st_read, st_lift, st_alloc.
  rewrite Href. by destruct (dict_without drop_keys r).
Qed.

Lemma pool_fold_st_rel (cfg : config) (refs : list loc)
    (items : list record) (s0 : store) (order : list nat)
    (slots_st : list (option (result (option loc * cost))))
    (slots : list (option (result (option record * cost)))) (s : store) :
  reads s0 refs items →
  s0 `prefix_of` s →
  Forall2 (slot_rel s) slots_st slots →
  let run :=
    foldl (λ (acc : list (option (result (option loc * cost))) * store) i,
             match refs !! i with
             | Some u =>
                 let (r, s') := process_map_item_st cfg u acc.2 in
                 (<[i := Some r]> acc.1, s')
             | None => acc
             end) (slots_st, s) order in
  s0 `prefix_of` run.2
  ∧ Forall2 (slot_rel run.2) run.1
      (foldl (λ slots i,
                match items !! i with
                | Some u => <[i := Some (process_map_item cfg u)]> slots
                | None => slots
                end) slots order).
Proof.
  intros Hreads. revert slots_st slots s.
  induction order as [|i order IH]; intros slots_st slots s Hpre Hslots;
    [done|].
  cbn [foldl fst snd].
  destruct (refs !! i) as [ref|] eqn:Href.
  - destruct (Forall2_lookup_l _ _ _ _ _ Hreads Href) as (item & Hitem & Hs0).
    rewrite Hitem.
    rewrite (process_map_item_st_run cfg ref item s)
      by exact (prefix_lookup_Some _ _ _ _ Hs0 Hpre).
    destruct (process_map_item cfg item) as [e|[[r|] c]] eqn:Hproc.
    + apply IH; [done|]. apply Forall2_insert; [done|]. by constructor.
    + apply IH.
      * etrans; [exact Hpre|]. by apply prefix_app_r.
      * apply Forall2_insert.
        -- eapply Forall2_impl; [exact Hslots|]. intros a b.
           apply slot_rel_prefix. by apply prefix_app_r.
        -- constructor. split; [|done]. constructor.
           by rewrite lookup_app_r, Nat.sub_diag.
    + apply IH; [done|]. apply Forall2_insert; [done|].
      constructor. split; [constructor | done].
  - assert (items !! i = None) as ->.
    { apply lookup_ge_None. rewrite <- (Forall2_length _ _ _ Hreads).
      by apply lookup_ge_None. }
    by apply IH.
Qed.

(** The pool on the store against the pool of the functional model. *)
Lemma pool_run_st_rel (order : list nat) (cfg : config) (refs : list loc)
    (items : list record) (s0 : store) :
  reads s0 refs items →
  let run := pool_run_st order (process_map_item_st cfg) refs s0 in
  s0 `prefix_of` run.2
  ∧ Forall2 (slot_rel run.2) run.1
            (pool_run order (process_map_item cfg) items).
Proof.
  intros Hreads. unfold pool_run_st, pool_run.
  apply pool_fold_st_rel; [done|done|].
  rewrite <- (Forall2_length _ _ _ Hreads).
  apply Forall2_replicate. constructor.
Qed.

Lemma future_result_rel (s : store)
    (slots_st : list (option (result (option loc * cost))))
    (slots : list (option (result (option record * cost)))) (i : nat) :
  Forall2 (slot_rel s) slots_st slots →
  result_rel (outcome_rel s) (future_result slots_st i) (future_result slots i).
Proof.
  intros Hslots. unfold future_result.
  destruct (slots_st !! i) as [a|] eqn:Ha.
  - destruct (Forall2_lookup_l _ _ _ _ _ Hslots Ha) as (b & -> & Hab).
    by destruct Hab.
  - assert (slots !! i = None) as ->; [|done].
    apply lookup_ge_None. rewrite <- (Forall2_length _ _ _ Hslots).
    by apply lookup_ge_None.
Qed.

Lemma map_collect_st_refines (cfg : config)
    (slots_st : list (option (result (option loc * cost))))
    (slots : list (option (result (option record * cost))))
    (indices : list nat) (results_st : list loc) (results : list record)
    (total : cost) (s : store) :
  Forall2 (slot_rel s) slots_st slots →
  reads s results_st results →
  st_refines (λ s' a b, reads s' a.1 b.1 ∧ a.2 = b.2)
             (map_collect_st cfg slots_st indices results_st total s)
             (map_collect cfg slots indices results total).
Proof.
  revert results_st results total s.
  induction indices as [|i indices IH];
    intros results_st results total s Hslots Hreads.
  - unfold st_refines. simpl. by eexists.
  - cbn [map_collect_st map_collect]. unfold st_bind at 1, st_lift at 1.
    pose proof (future_result_rel s slots_st slots i Hslots) as Hfut.
    destruct (future_result slots_st i) as [e|[ol c]],
             (future_result slots i) as [e'|[orec c']]; try done.
    { simpl in Hfut. subst e'. done. }
    destruct Hfut as [Hrec Hcost]. simpl in Hrec, Hcost. subst c'.
    cbn [bind fst snd]. unfold st_bind at 1.
    destruct Hrec as [l r Hl|].
    + unfold map_emit. destruct (cfg !! "drop_keys") as [drop_keys|].
      * unfold st_bind at 1. rewrite (drop_item_st_run _ _ r) by done.
        destruct (dict_without drop_keys r) as [e|r']; [done|].
        cbn [bind st_ret]. apply IH.
        -- eapply Forall2_impl; [exact Hslots|]. intros a b.
           apply slot_rel_prefix. by apply prefix_app_r.
        -- apply Forall2_app.
           ++ eapply reads_prefix; [|exact Hreads]. by apply prefix_app_r.
           ++ constructor; [|constructor].
              by rewrite lookup_app_r, Nat.sub_diag.
      * cbn [bind st_ret]. apply IH; [done|].
        apply Forall2_app; [done|]. by constructor.
    + cbn [st_ret]. by apply IH.
Qed.

Lemma drop_items_st_refines (drop_keys : pyval) (refs : list loc)
    (items : list record) (s : store) (run : result (list loc) * store) :
  reads s refs items →
  st_mapM (drop_item_st drop_keys) refs s = run →
  s `prefix_of` run.2
  ∧ st_refines (λ s' a b, reads s' a b) run
               (mapM (dict_without drop_keys) items).
Proof.
  revert items s run.
  induction refs as [|ref refs IH]; intros items s run Hreads <-.
  - inversion Hreads; subst. split; [done|].
    unfold st_refines. simpl. eexists. split; [done|constructor].
  - inversion Hreads as [|? item ? items' Href Hrest]; subst.
    cbn [st_mapM mapM]. rewrite st_bind_run.
    rewrite (drop_item_st_run _ _ item) by done.
    destruct (dict_without drop_keys item) as [e|r']; [by split|].
    cbn [bind]. rewrite st_bind_run.
    destruct (IH items' (s ++ [r']) _
                (reads_prefix _ _ _ _ (prefix_app_r s s [r'] (reflexivity s))
                              Hrest) eq_refl) as [Hpre Href'].
    unfold st_refines in *.
    destruct (st_mapM (drop_item_st drop_keys) refs (s ++ [r']))
      as [[e|bs] s'] eqn:Hrun; simpl in *.
    + split; [etrans; [|exact Hpre]; by apply prefix_app_r|].
      by rewrite Href'.
    + destruct Href' as (outs & -> & Houts).
      split; [etrans; [|exact Hpre]; by apply prefix_app_r|].
      eexists. split; [done|]. constructor; [|done].
      eapply prefix_lookup_Some; [|exact Hpre].
      by rewrite lookup_app_r, Nat.sub_diag.
Qed.

(** [MapOperation.execute] on the store computes what the functional model
    computes: the same exception, or references to the same records and
    the same cost. *)
Lemma map_execute_st_refines (order : list nat) (cfg : config)
    (refs : list loc) (items : list record) (s0 : store) :
  reads s0 refs items →
  st_refines (λ s' a b, reads s' a.1 b.1 ∧ a.2 = b.2)
             (map_execute_st order cfg refs s0)
             (map_execute order cfg items).
Proof.
  intros Hreads.
  assert (st_refines (λ s' a b, reads s' a.1 b.1 ∧ a.2 = b.2)
            ((_ <~ st_lift (thread_pool (map_max_batch_size cfg)) ;;
              λ s, let (futures, s') :=
                     pool_run_st order (process_map_item_st cfg) refs s in
                   (_ <~ st_lift (cfg_item cfg "name") ;;
                    map_collect_st cfg futures (seq 0 (length refs)) []
                                   cost_zero) s') s0)
            (thread_pool (map_max_batch_size cfg) ;;;
             cfg_item cfg "name" ;;;
             map_collect cfg (pool_run order (process_map_item cfg) items)
                         (seq 0 (length items)) [] cost_zero)) as Hmain.
  { rewrite st_bind_run. unfold st_lift at 1.
    destruct (thread_pool (map_max_batch_size cfg)) as [e|[] ]; [done|].
    cbn [bind].
    destruct (pool_run_st_rel order cfg refs items s0 Hreads) as [_ Hslots].
    destruct (pool_run_st order (process_map_item_st cfg) refs s0)
      as [futures s'].
    rewrite st_bind_run. unfold st_lift at 1.
    destruct (cfg_item cfg "name") as [e|v]; [done|]. cbn [bind].
    rewrite <- (Forall2_length _ _ _ Hreads).
    apply map_collect_st_refines; [done | constructor]. }
  unfold map_execute_st, map_execute.
  destruct (cfg !! "prompt"); [done|].
  destruct (cfg !! "drop_keys") as [drop_keys|]; [|done].
  rewrite st_bind_run.
  destruct (drop_items_st_refines drop_keys refs items s0 _ Hreads eq_refl)
    as [_ Href].
  unfold st_refines in *.
  destruct (st_mapM (drop_item_st drop_keys) refs s0) as [[e|bs] s'];
    simpl in *.
  - by rewrite Href.
  - destruct Href as (outs & -> & Houts). simpl. by eexists.
Qed.

End map_refinement.

Section pm_refinement.
Context `{Env}.
Hypothesis Hkeeps : render_keeps_record.
Hypothesis Hagrees : render_item_agrees.

Lemma process_prompt_st_run (cfg : config) (output_schema : pyval)
    (a : loc * pyval) (b : record * pyval) (s : store) :
  unit_rel s a b →
  process_prompt_st cfg output_schema a s
  = (process_prompt cfg output_schema b, s).
Proof.
  destruct a as [ref pc], b as [item pc']. intros [Href Hpc]. simpl in *.
  subst pc'.
  change (process_prompt cfg output_schema (item, pc))
    with (src <- py_getitem pc "prompt" ;;
          prompt <- render_jinja_template src item ;;
          process_prompt_call cfg output_schema pc prompt).
  unfold process_prompt_st, render_jinja_template_st, render_jinja_template.
  cbn [fst snd]. rewrite st_bind_run. unfold st_lift at 1.
  destruct (py_getitem pc "prompt") as [e|src]; [done|]. cbn [bind].
  rewrite !st_bind_run. unfold st_read at 1. rewrite Href.
  destruct (negb (truthy (PDict item))); [done|].
  rewrite st_bind_run. unfold st_lift at 1.
  destruct (from_string true src) as [e|tpl]; [done|]. cbn [bind].
  rewrite (st_render_run Hkeeps Hagrees _ _ item) by done.
  by destruct (render tpl {["input" := PDict item]}).
Qed.

Lemma pm_units_st_rel (prompts : pyval) (refs : list loc)
    (items : list record) (s : store) :
  reads s refs items →
  result_rel (Forall2 (unit_rel s)) (pm_units_st prompts refs)
             (pm_units prompts items).
Proof.
  intros Hreads. unfold pm_units_st, pm_units.
  destruct (py_iter prompts) as [e|pcs] eqn:Hiter.
  - destruct Hreads; simpl; [constructor | done].
  - rewrite (mapM_ext _ (λ ref : loc, ret ((λ pc, (ref, pc)) <$> pcs)) refs)
      by done.
    rewrite (mapM_ext _ (λ item : record, ret ((λ pc, (item, pc)) <$> pcs)) items)
      by done.
    rewrite (mapM_total (λ ref : loc, (λ pc, (ref, pc)) <$> pcs)).
    rewrite (mapM_total (λ item : record, (λ pc, (item, pc)) <$> pcs)).
    simpl. induction Hreads as [|ref item refs items Href _ IH]; [constructor|].
    simpl. apply Forall2_app; [|done].
    apply Forall2_fmap, Forall_Forall2_diag, Forall_forall.
    by intros pc _.
Qed.

Lemma pm_pool_fold_st (cfg : config) (output_schema : pyval)
    (units_st : list (loc * pyval)) (units : list (record * pyval))
    (s : store) (order : list nat)
    (slots : list (option (result (record * cost)))) :
  Forall2 (unit_rel s) units_st units →
  foldl (λ (acc : list (option (result (record * cost))) * store) i,
           match units_st !! i with
           | Some u =>
               let (r, s') := process_prompt_st cfg output_schema u acc.2 in
               (<[i := Some r]> acc.1, s')
           | None => acc
           end) (slots, s) order
  = (foldl (λ slots i,
              match units !! i with
              | Some u => <[i := Some (process_prompt cfg output_schema u)]> slots
              | None => slots
              end) slots order, s).
Proof.
  intros Hunits. revert slots.
  induction order as [|i order IH]; intros slots; [done|].
  cbn [foldl fst snd].
  destruct (units_st !! i) as [a|] eqn:Ha.
  - destruct (Forall2_lookup_l _ _ _ _ _ Hunits Ha) as (b & -> & Hab).
    rewrite (process_prompt_st_run _ _ a b) by done. apply IH.
  - assert (units !! i = None) as ->; [|apply IH].
    apply lookup_ge_None. rewrite <- (Forall2_length _ _ _ Hunits).
    by apply lookup_ge_None.
Qed.

(** The units of the multi-prompt variant only read the store. *)
Lemma pm_pool_run_st (order : list nat) (cfg : config) (output_schema : pyval)
    (units_st : list (loc * pyval)) (units : list (record * pyval))
    (s : store) :
  Forall2 (unit_rel s) units_st units →
  pool_run_st order (process_prompt_st cfg output_schema) units_st s
  = (pool_run order (process_prompt cfg output_schema) units, s).
Proof.
  intros Hunits. unfold pool_run_st, pool_run.
  rewrite (Forall2_length _ _ _ Hunits). by apply pm_pool_fold_st.
Qed.

Lemma option_Forall2_cases {A B} (P : A → B → Prop) (x : option A)
    (y : option B) :
  option_Forall2 P x y →
  (x = None ∧ y = None) ∨ ∃ a b, x = Some a ∧ y = Some b ∧ P a b.
Proof. intros [a b Hab|]; [right; by exists a, b | by left]. Qed.

Lemma pm_inv_alloc (n0 : nat) (refs : list loc) (items : list record)
    (s : store) (results_st : gmap nat loc) (results : gmap nat record)
    (k : nat) (item : record) :
  pm_inv n0 refs items s results_st results →
  pm_inv n0 refs items (s ++ [item]) (<[k := length s]> results_st)
         (<[k := item]> results).
Proof.
  intros (Hreads & Hlen & Hacc & Hfresh & Hinj).
  assert (s `prefix_of` s ++ [item]) as Hpre by (by apply prefix_app_r).
  split; [by eapply reads_prefix|]. split; [rewrite length_app; lia|].
  split; [|split].
  - intros k'. destruct (decide (k = k')) as [->|Hne].
    + rewrite !lookup_insert_eq. constructor.
      by rewrite lookup_app_r, Nat.sub_diag.
    + rewrite !lookup_insert_ne by done.
      destruct (Hacc k') as [l r Hl|]; constructor.
      exact (prefix_lookup_Some _ _ _ _ Hl Hpre).
  - intros k' l. destruct (decide (k = k')) as [->|Hne].
    + rewrite lookup_insert_eq. by intros [= <-].
    + rewrite lookup_insert_ne by done. apply Hfresh.
  - assert (∀ k' l, results_st !! k' = Some l → l < length s) as Hbound.
    { intros k' l Hl. pose proof (Hacc k') as Hk'. rewrite Hl in Hk'.
      inversion Hk' as [? r Hr|]; subst. by eapply lookup_lt_Some. }
    intros k1 k2 l.
    destruct (decide (k = k1)) as [Heq1|Hne1],
             (decide (k = k2)) as [Heq2|Hne2]; subst;
      rewrite ?lookup_insert_eq, ?lookup_insert_ne by done; try done.
    + intros [= <-] Hl%Hbound. lia.
    + intros Hl%Hbound [= <-]. lia.
    + apply Hinj.
Qed.

Lemma reads_insert_fresh (n0 : nat) (refs : list loc) (items : list record)
    (s : store) (l : loc) (r : record) :
  Forall (λ ref, ref < n0) refs →
  n0 ≤ l →
  reads s refs items →
  reads (<[l := r]> s) refs items.
Proof.
  intros Hrefs Hl Hreads.
  induction Hreads as [|ref item refs items Href _ IH]; [constructor|].
  inversion Hrefs; subst. constructor; [|by apply IH].
  rewrite list_lookup_insert_ne by lia. done.
Qed.

Lemma pm_inv_write (n0 : nat) (refs : list loc) (items : list record)
    (s : store) (results_st : gmap nat loc) (results : gmap nat record)
    (k : nat) (l : loc) (r : record) :
  Forall (λ ref, ref < n0) refs →
  pm_inv n0 refs items s results_st results →
  results_st !! k = Some l →
  pm_inv n0 refs items (<[l := r]> s) results_st (<[k := r]> results).
Proof.
  intros Hrefs (Hreads & Hlen & Hacc & Hfresh & Hinj) Hk.
  assert (l < length s) as Hl.
  { pose proof (Hacc k) as Hk'. rewrite Hk in Hk'.
    inversion Hk' as [? r' Hr|]; subst. by eapply lookup_lt_Some. }
  split; [|split; [by rewrite length_insert|split; [|done] ] ].
  - eapply reads_insert_fresh; [done| |done]. by eapply Hfresh.
  - intros k'. destruct (decide (k = k')) as [<-|Hne].
    + rewrite Hk, lookup_insert_eq. constructor.
      by apply list_lookup_insert_eq.
    + rewrite lookup_insert_ne by done.
      destruct (option_Forall2_cases _ _ _ (Hacc k'))
        as [[-> ->]|(l' & r' & Hst & -> & Hl')]; [constructor|].
      rewrite Hst. constructor.
      rewrite list_lookup_insert_ne; [done|].
      intros <-. apply Hne. by apply (Hinj k k' l).
Qed.

Lemma list_item_rel (s : store) (refs : list loc) (items : list record)
    (k : nat) :
  reads s refs items →
  result_rel (λ ref item, s !! ref = Some item)
             (list_item refs k) (list_item items k).
Proof.
  intros Hreads. unfold list_item.
  destruct (refs !! k) as [ref|] eqn:Href.
  - by destruct (Forall2_lookup_l _ _ _ _ _ Hreads Href) as (item & -> & Hs).
  - assert (items !! k = None) as ->; [|done].
    apply lookup_ge_None. rewrite <- (Forall2_length _ _ _ Hreads).
    by apply lookup_ge_None.
Qed.

(** The copy made at the first prompt of an item. *)
Lemma pm_copy_refines (n0 : nat) (refs : list loc) (items : list record)
    (s : store) (results_st : gmap nat loc) (results : gmap nat record)
    (first_prompt : bool) (k : nat) :
  pm_inv n0 refs items s results_st results →
  st_refines (λ s' a b, pm_inv n0 refs items s' a b)
    ((if first_prompt
      then ref <~ st_lift (list_item refs k) ;;
           item <~ st_read ref ;;
           item_result <~ st_alloc item ;;
           st_ret (<[k := item_result]> results_st)
      else st_ret results_st) s)
    (if first_prompt
     then item <- list_item items k ;; ret (<[k := item]> results)
     else ret results).
Proof.
  intros Hinv. destruct first_prompt.
  - rewrite st_bind_run. unfold st_lift at 1.
    pose proof (list_item_rel s refs items k (proj1 Hinv)) as Hit.
    destruct (list_item refs k) as [e|ref],
             (list_item items k) as [e'|item]; try done.
    + simpl in Hit. by subst e'.
    + simpl in Hit. rewrite st_bind_run. unfold st_read. rewrite Hit.
      unfold st_refines. simpl. eexists. split; [done|].
      by apply pm_inv_alloc.
  - unfold st_refines. simpl. by eexists.
Qed.

(** The reassembly loop on the store against the loop of the functional
    model. *)
Lemma pm_collect_st_refines (n0 : nat) (prompts : pyval) (refs : list loc)
    (items : list record) (slots : list (option (result (record * cost))))
    (indices : list nat) (results_st : gmap nat loc)
    (results : gmap nat record) (total : cost) (s : store) :
  Forall (λ ref, ref < n0) refs →
  pm_inv n0 refs items s results_st results →
  st_refines (λ s' a b, pm_inv n0 refs items s' a.1 b.1 ∧ a.2 = b.2)
             (pm_collect_st prompts refs slots indices results_st total s)
             (pm_collect prompts items slots indices results total).
Proof.
  intros Hrefs. revert results_st results total s.
  induction indices as [|i indices IH]; intros results_st results total s Hinv.
  - unfold st_refines. simpl. by eexists.
  - cbn [pm_collect_st pm_collect]. rewrite st_bind_run. unfold st_lift at 1.
    destruct (future_result slots i) as [e|r]; [done|]. cbn [bind].
    rewrite st_bind_run. unfold st_lift at 1.
    destruct (py_len prompts) as [e|n]; [done|]. cbn [bind].
    rewrite st_bind_run. unfold st_lift at 1.
    destruct (bool_decide (n = 0)); [done|]. cbn [bind ret].
    rewrite st_bind_run.
    pose proof (pm_copy_refines n0 refs items s results_st results
                  (bool_decide (i `mod` n = 0)) (i `div` n) Hinv) as Hcopy.
    unfold st_refines in Hcopy.
    destruct ((if bool_decide (i `mod` n = 0)
               then ref <~ st_lift (list_item refs (i `div` n)) ;;
                    item <~ st_read ref ;;
                    item_result <~ st_alloc item ;;
                    st_ret (<[i `div` n := item_result]> results_st)
               else st_ret results_st) s) as [[e|rst1] s1];
      simpl in Hcopy.
    { by rewrite Hcopy. }
    destruct Hcopy as (res1 & -> & Hinv1). cbn [bind].
    rewrite st_bind_run. unfold st_lift at 1.
    destruct (option_Forall2_cases _ _ _ (proj1 (proj2 (proj2 Hinv1)) (i `div` n)))
      as [[-> ->]|(l & acc & Hst & -> & Hl)]; [done|].
    rewrite Hst. cbn [bind ret].
    rewrite st_bind_run. unfold st_read at 1. rewrite Hl.
    rewrite st_bind_run. unfold st_write at 1.
    apply IH. by apply pm_inv_write.
Qed.

(** An empty dict stays empty, whatever is popped from it. *)
Lemma pop_keys_empty (keys : list pyval) : pop_keys (PList keys) ∅ = inr ∅.
Proof.
  unfold pop_keys. cbn [py_iter bind ret].
  induction keys as [|key keys IH]; [done|].
  cbn [foldlM].
  destruct key; cbn [hashable orb bind ret];
    rewrite ?delete_empty, ?bool_decide_eq_true_2 by done; cbn [bind ret];
    exact IH.
Qed.

(** What [pop_keys] raises, when it raises, does not depend on the
    record: it is the error of the first key that cannot be hashed. *)
Lemma pop_keys_error (drop_keys : pyval) :
  ∃ e0, ∀ r e, pop_keys drop_keys r = inl e → e = e0.
Proof.
  unfold pop_keys. destruct (py_iter drop_keys) as [e0|keys].
  { exists e0. by intros r e [= <-]. }
  cbn [bind]. induction keys as [|key keys [e0 IH] ].
  { exists ZeroDivisionError. by intros r e. }
  destruct (hashable key) eqn:Hhash.
  - exists e0. intros r e. cbn [foldlM].
    destruct key; try discriminate; cbn [hashable orb bind ret]; apply IH.
  - exists (unhashable_error key). intros r e. cbn [foldlM].
    destruct key; try discriminate; cbn [hashable orb];
      (destruct (bool_decide (r = ∅)) eqn:Hempty; cbn [bind ret raise];
       [|by intros [= <-] ]);
      apply bool_decide_eq_true_1 in Hempty; subst r;
      intros Hfold;
      pose proof (pop_keys_empty keys) as Hnone;
      unfold pop_keys in Hnone; cbn [py_iter bind ret] in Hnone;
      by rewrite Hnone in Hfold.
Qed.

Lemma pop_keys_st_run (drop_keys : pyval) (ref : loc) (r : record) (s : store) :
  s !! ref = Some r →
  match pop_keys_st drop_keys ref s with
  | (inr _, s') => ∃ r', pop_keys drop_keys r = inr r' ∧ s' = <[ref := r']> s
  | (inl e, _) => pop_keys drop_keys r = inl e
  end.
Proof.
  intros Href. unfold pop_keys_st, pop_keys. rewrite st_bind_run.
  unfold st_lift at 1. destruct (py_iter drop_keys) as [e|keys]; [done|].
  cbn [bind]. rewrite st_bind_run.
  assert (match st_foldlM
                  (λ (_ : ()) (key : pyval),
                     match key with
                     | PStr k => item <~ st_read ref ;;
                                 st_write ref (delete k item)
                     | _ =>
                         if hashable key then st_ret ()
                         else
                           item <~ st_read ref ;;
                           if bool_decide (item = ∅) then st_ret ()
                           else st_lift (raise (unhashable_error key))
                     end) () keys s with
          | (inr _, s') =>
              ∃ r', foldlM (λ (it : record) (key : pyval),
                              match key with
                              | PStr k => ret (delete k it)
                              | _ => if hashable key || bool_decide (it = ∅)
                                     then ret it
                                     else raise (unhashable_error key)
                              end) r keys = inr r'
                    ∧ s' = <[ref := r']> s
          | (inl e, _) =>
              foldlM (λ (it : record) (key : pyval),
                        match key with
                        | PStr k => ret (delete k it)
                        | _ => if hashable key || bool_decide (it = ∅)
                               then ret it
                               else raise (unhashable_error key)
                        end) r keys = inl e
          end) as Hfold.
  { clear -Href. revert r s Href.
    induction keys as [|key keys IH]; intros r s Href.
    - simpl. exists r. split; [done|]. by rewrite list_insert_id.
    - cbn [st_foldlM foldlM]. rewrite st_bind_run.
      destruct key as [| | |k| |];
        cbn [hashable orb bind ret raise st_ret st_lift];
        try (by apply IH).
      + unfold st_bind, st_read, st_write. rewrite Href.
        specialize (IH (delete k r) (<[ref := delete k r]> s)).
        rewrite list_lookup_insert_eq in IH by (by eapply lookup_lt_Some).
        specialize (IH eq_refl).
        destruct (st_foldlM _ () keys (<[ref := delete k r]> s))
          as [ [e|[] ] s'']; [done|].
        destruct IH as (r' & Hr' & ->). exists r'. split; [done|].
        by rewrite list_insert_insert_eq.
      + rewrite st_bind_run. unfold st_read at 1. rewrite Href.
        destruct (bool_decide (r = ∅)); cbn [bind ret raise st_ret st_lift];
          [by apply IH|done].
      + rewrite st_bind_run. unfold st_read at 1. rewrite Href.
        destruct (bool_decide (r = ∅)); cbn [bind ret raise st_ret st_lift];
          [by apply IH|done]. }
  destruct (st_foldlM _ () keys s) as [ [e|[] ] s']; [done|].
  destruct Hfold as (r' & -> & ->). by exists r'.
Qed.

Lemma popped_inr (drop_keys : pyval) (r r' : record) :
  pop_keys drop_keys r = inr r' → popped drop_keys r = r'.
Proof. intros Hr. unfold popped. by rewrite Hr. Qed.

(** Popping on distinct dicts of the store: the loop raises what the
    first dict that raises does, or pops from every dict. *)
Lemma pop_all_run (drop_keys : pyval) (L : list loc) (s : store) :
  NoDup L →
  (∀ l, l ∈ L → is_Some (s !! l)) →
  match st_mapM (pop_keys_st drop_keys) L s with
  | (inr _, s') =>
      length s' = length s
      ∧ (∀ l r, l ∈ L → s !! l = Some r →
                pop_keys drop_keys r = inr (popped drop_keys r))
      ∧ (∀ l, l ∈ L → s' !! l = popped drop_keys <$> s !! l)
      ∧ (∀ l, l ∉ L → s' !! l = s !! l)
  | (inl e, _) =>
      ∃ l r, l ∈ L ∧ s !! l = Some r ∧ pop_keys drop_keys r = inl e
  end.
Proof.
  revert s. induction L as [|l L IH]; intros s Hnd Hvalid.
  - simpl. split; [done|]. split; [by intros l r ?%elem_of_nil|].
    split; [by intros l ?%elem_of_nil|done].
  - apply NoDup_cons in Hnd as [Hl Hnd].
    destruct (Hvalid l) as [r Hr]; [by left|].
    cbn [st_mapM]. rewrite st_bind_run.
    pose proof (pop_keys_st_run drop_keys l r s Hr) as Hrun.
    destruct (pop_keys_st drop_keys l s) as [ [e|u] s1].
    { exists l, r. split; [by left|done]. }
    destruct Hrun as (r' & Hr' & ->).
    pose proof (popped_inr _ _ _ Hr') as Hpopped.
    assert (∀ l', l' ∈ L → <[l := r']> s !! l' = s !! l') as Hother.
    { intros l' Hl'. apply list_lookup_insert_ne. by intros ->. }
    specialize (IH (<[l := r']> s) Hnd).
    rewrite st_bind_run.
    destruct (st_mapM (pop_keys_st drop_keys) L (<[l := r']> s))
      as [ [e|us] s'].
    + destruct IH as (l' & r'' & Hl' & Hr'' & Hpop).
      { intros l' Hl'. rewrite Hother by done. apply Hvalid. by right. }
      exists l', r''. split; [by right|]. split; [|done].
      by rewrite <- Hother.
    + destruct IH as (Hlen & Hok & Hin & Hout).
      { intros l' Hl'. rewrite Hother by done. apply Hvalid. by right. }
      cbn [st_ret]. split; [by rewrite Hlen, length_insert|]. split; [|split].
      * intros l' r'' [->|Hl']%elem_of_cons Hr''.
        -- rewrite Hr in Hr''. injection Hr'' as <-. by rewrite Hpopped.
        -- apply (Hok l'); [done|]. by rewrite Hother.
      * intros l' [->|Hl']%elem_of_cons.
        -- rewrite Hout by done. rewrite Hr. simpl. rewrite Hpopped.
           apply list_lookup_insert_eq. by eapply lookup_lt_Some.
        -- rewrite Hin by done. by rewrite Hother.
      * intros l' Hl'. apply not_elem_of_cons in Hl' as [Hne Hl'].
        rewrite Hout by done. by rewrite list_lookup_insert_ne.
Qed.

(** The same loop in the functional model. *)
Lemma pop_entries_run (drop_keys : pyval) (L : list (nat * record)) :
  match mapM (λ ir : nat * record,
                item <- pop_keys drop_keys ir.2 ;; ret (ir.1, item)) L with
  | inr entries =>
      entries = prod_map id (popped drop_keys) <$> L
      ∧ ∀ ir, ir ∈ L → pop_keys drop_keys ir.2 = inr (popped drop_keys ir.2)
  | inl e => ∃ ir, ir ∈ L ∧ pop_keys drop_keys ir.2 = inl e
  end.
Proof.
  induction L as [|[k r] L IH].
  - simpl. split; [done|]. by intros ir ?%elem_of_nil.
  - cbn [mapM fst snd].
    destruct (pop_keys drop_keys r) as [e|r'] eqn:Hr; cbn [bind].
    { exists (k, r). split; [by left|done]. }
    pose proof (popped_inr _ _ _ Hr) as Hpopped.
    destruct (mapM _ L) as [e|entries]; cbn [bind ret].
    + destruct IH as (ir & Hir & Hpop). exists ir. split; [by right|done].
    + destruct IH as [-> Hok]. split.
      * simpl. by rewrite Hpopped.
      * intros ir [->|Hir]%elem_of_cons; [|by apply Hok].
        simpl. by rewrite Hr, Hpopped.
Qed.

(** The loop that pops [drop_keys] from the accumulators. *)
Lemma pm_pop_refines (n0 : nat) (refs : list loc) (items : list record)
    (s : store) (results_st : gmap nat loc) (results : gmap nat record)
    (drop_keys : pyval) :
  Forall (λ ref, ref < n0) refs →
  pm_inv n0 refs items s results_st results →
  st_refines (λ s' _ res', pm_inv n0 refs items s' results_st res')
    (st_mapM (pop_keys_st drop_keys) (map_to_list results_st).*2 s)
    (entries <- mapM (λ ir : nat * record,
                        item <- pop_keys drop_keys ir.2 ;; ret (ir.1, item))
                     (map_to_list results) ;;
     ret (list_to_map entries)).
Proof.
  intros Hrefs Hinv.
  pose proof Hinv as (Hreads & Hlen & Hacc & Hfresh & Hinj).
  assert (NoDup (map_to_list results_st).*2) as Hnd.
  { apply NoDup_fmap_2_strong; [|apply NoDup_map_to_list].
    intros [k1 l1] [k2 l2] H1%elem_of_map_to_list H2%elem_of_map_to_list.
    simpl. intros <-. f_equal. by eapply Hinj. }
  assert (∀ l, l ∈ (map_to_list results_st).*2 ↔
               ∃ k, results_st !! k = Some l) as Hmem.
  { intros l. rewrite list_elem_of_fmap. split.
    - intros ([k l'] & -> & Hkl%elem_of_map_to_list). by exists k.
    - intros [k Hk]. exists (k, l). by rewrite elem_of_map_to_list. }
  assert (∀ k l, results_st !! k = Some l →
                 ∃ r, results !! k = Some r ∧ s !! l = Some r) as Hst.
  { intros k l Hk.
    destruct (option_Forall2_cases _ _ _ (Hacc k))
      as [ [Hnone _]|(l' & r' & Hst & Hres & Hl')]; [by rewrite Hk in Hnone|].
    rewrite Hk in Hst. injection Hst as <-. by exists r'. }
  assert (∀ k r, results !! k = Some r →
                 ∃ l, results_st !! k = Some l ∧ s !! l = Some r) as Hres.
  { intros k r Hk.
    destruct (option_Forall2_cases _ _ _ (Hacc k))
      as [ [_ Hnone]|(l' & r' & Hst' & Hres & Hl')]; [by rewrite Hk in Hnone|].
    rewrite Hk in Hres. injection Hres as <-. by exists l'. }
  pose proof (pop_all_run drop_keys (map_to_list results_st).*2 s Hnd) as Hrun.
  pose proof (pop_entries_run drop_keys (map_to_list results)) as Hfun.
  destruct (pop_keys_error drop_keys) as [e0 He0].
  unfold st_refines.
  destruct (st_mapM (pop_keys_st drop_keys) (map_to_list results_st).*2 s)
    as [ [e|us] s']; cbn [fst snd].
  - (* a dict of the store raises *)
    destruct Hrun as (l & r & [k Hk]%Hmem & Hr & Hpop).
    { intros l [k Hk]%Hmem. destruct (Hst k l Hk) as (r & _ & Hr).
      by rewrite Hr. }
    destruct (Hst k l Hk) as (r' & Hkr & Hr'). rewrite Hr in Hr'.
    injection Hr' as <-.
    destruct (mapM _ (map_to_list results)) as [e'|entries]; cbn [bind].
    + destruct Hfun as (ir & _ & Hir).
      by rewrite (He0 _ _ Hir), (He0 _ _ Hpop).
    + destruct Hfun as [_ Hok].
      specialize (Hok (k, r)). rewrite elem_of_map_to_list in Hok.
      specialize (Hok Hkr). simpl in Hok. by rewrite Hpop in Hok.
  - (* every dict is popped *)
    destruct Hrun as (Hlen' & Hok & Hin & Hout).
    { intros l [k Hk]%Hmem. destruct (Hst k l Hk) as (r & _ & Hr).
      by rewrite Hr. }
    destruct (mapM _ (map_to_list results)) as [e'|entries]; cbn [bind ret].
    { destruct Hfun as ([k r] & Hir%elem_of_map_to_list & Hpop).
      destruct (Hres k r Hir) as (l & Hl & Hr). simpl in Hpop.
      rewrite (Hok l r) in Hpop; [done| |done]. apply Hmem. by exists k. }
    destruct Hfun as [-> _].
    rewrite list_to_map_fmap, list_to_map_to_list.
    eexists. split; [done|].
    split; [|split; [lia|split; [|done] ] ].
    + assert (∀ ref, ref < n0 → s' !! ref = s !! ref) as Hsame.
      { intros ref Href. apply Hout. intros [k Hk]%Hmem.
        apply Hfresh in Hk. lia. }
      clear -Hreads Hrefs Hsame.
      induction Hreads as [|ref item refs items Href _ IH]; [constructor|].
      inversion Hrefs; subst. constructor; [|by apply IH].
      by rewrite Hsame.
    + intros k. rewrite lookup_fmap.
      destruct (option_Forall2_cases _ _ _ (Hacc k))
        as [ [-> ->]|(l & r & Hst' & -> & Hl)]; [constructor|].
      rewrite Hst'. constructor.
      rewrite Hin by (apply Hmem; by exists k). by rewrite Hl.
Qed.

Lemma omap_lookup_rel {A B} (P : A → B → Prop) (m1 : gmap nat A)
    (m2 : gmap nat B) (l : list nat) :
  (∀ k, option_Forall2 P (m1 !! k) (m2 !! k)) →
  Forall2 P (omap (λ i, m1 !! i) l) (omap (λ i, m2 !! i) l).
Proof.
  intros Hrel. induction l as [|i l IH]; [constructor|].
  simpl. destruct (Hrel i); [by constructor | done].
Qed.

Lemma copy_all_run (refs : list loc) (items : list record) (s : store) :
  reads s refs items →
  st_mapM (λ ref, item <~ st_read ref ;; st_alloc item) refs s
  = (inr (seq (length s) (length refs)), s ++ items).
Proof.
  revert items s. induction refs as [|ref refs IH]; intros items s Hreads.
  - inversion Hreads; subst. simpl. by rewrite app_nil_r.
  - inversion Hreads as [|? item ? items' Href Hrest]; subst.
    cbn [st_mapM]. rewrite !st_bind_run. unfold st_read at 1. rewrite Href.
    unfold st_alloc at 1. rewrite st_bind_run.
    rewrite (IH items' (s ++ [item])).
    + simpl. rewrite length_app. simpl. unfold st_ret.
      rewrite <- app_assoc. simpl. by rewrite Nat.add_1_r.
    + eapply reads_prefix; [|exact Hrest]. by apply prefix_app_r.
Qed.

(** [ParallelMapOperation.execute] on the store computes what the
    functional model computes: the same exception, or references to the
    same records and the same cost. *)
Lemma pm_execute_st_refines (order : list nat) (cfg : config)
    (refs : list loc) (items : list record) (s0 : store) :
  reads s0 refs items →
  st_refines (λ s' a b, reads s' a.1 b.1 ∧ a.2 = b.2)
             (pm_execute_st order cfg refs s0)
             (pm_execute order cfg items).
Proof.
  intros Hreads.
  assert (Forall (λ ref, ref < length s0) refs) as Hrefs.
  { clear -Hreads. induction Hreads as [|ref item refs items Href _ IH];
      constructor; [by eapply lookup_lt_Some | done]. }
  assert (pm_inv (length s0) refs items s0 ∅ ∅) as Hinv0.
  { split; [done|]. split; [done|]. split; [|split].
    - intros k. rewrite !lookup_empty. constructor.
    - intros k l. by rewrite lookup_empty.
    - intros k k' l. by rewrite lookup_empty. }
  unfold pm_execute_st, pm_execute. rewrite st_bind_run. unfold st_lift at 1.
  destruct (pm_output_schema cfg) as [e|os]; [done|]. cbn [bind].
  (* the part after the fast path, from related accumulators *)
  assert (∀ drop_opt s (rst : gmap nat loc) (res : gmap nat record) (c : cost),
            pm_inv (length s0) refs items s rst res →
            st_refines (λ s' a b, reads s' a.1 b.1 ∧ a.2 = b.2)
              ((_ <~ match drop_opt with
                     | Some drop_keys =>
                         refs0 <~ st_mapM (pop_keys_st drop_keys)
                                          (map_to_list rst).*2 ;;
                         st_ret ()
                     | None => st_ret ()
                     end ;;
                st_ret (omap (λ i, rst !! i) (seq 0 (length refs)), c)) s)
              (results <- match drop_opt with
                          | Some drop_keys =>
                              entries <- mapM (λ ir : nat * record,
                                                 item <- pop_keys drop_keys ir.2 ;;
                                                 ret (ir.1, item))
                                              (map_to_list res) ;;
                              ret (list_to_map entries)
                          | None => ret res
                          end ;;
               ret (omap (λ i, results !! i) (seq 0 (length items)), c)))
    as Htail.
  { intros drop_opt s rst res c Hinv. rewrite st_bind_run.
    rewrite <- (Forall2_length _ _ _ Hreads).
    destruct drop_opt as [drop_keys|].
    - rewrite st_bind_run.
      pose proof (pm_pop_refines _ _ _ _ _ _ drop_keys Hrefs Hinv) as Hpop.
      unfold st_refines in Hpop.
      destruct (st_mapM (pop_keys_st drop_keys) (map_to_list rst).*2 s)
        as [[e|us] s']; simpl in Hpop.
      + unfold st_refines. simpl. by rewrite Hpop.
      + destruct Hpop as (res' & -> & Hinv').
        unfold st_refines. simpl. eexists. split; [done|]. split; [|done].
        apply omap_lookup_rel. apply Hinv'.
    - unfold st_refines. simpl. eexists. split; [done|]. split; [|done].
      apply omap_lookup_rel. apply Hinv. }
  destruct (cfg !! "prompts") as [prompts|].
  - rewrite st_bind_run. rewrite (st_bind_run (st_lift _)). unfold st_lift at 1.
    pose proof (pm_units_st_rel prompts refs items s0 Hreads) as Hunits.
    destruct (pm_units_st prompts refs) as [e|units_st],
             (pm_units prompts items) as [e'|units]; try done.
    { simpl in Hunits. by subst. }
    simpl in Hunits. cbn [bind].
    rewrite (pm_pool_run_st order cfg os units_st units s0 Hunits).
    rewrite (Forall2_length _ _ _ Hunits).
    pose proof (pm_collect_st_refines (length s0) prompts refs items
                  (pool_run order (process_prompt cfg os) units)
                  (seq 0 (length units)) ∅ ∅ cost_zero s0 Hrefs Hinv0)
      as Hcollect.
    unfold st_refines in Hcollect.
    destruct (pm_collect_st prompts refs _ _ ∅ cost_zero s0)
      as [[e|[rst c]] s1]; simpl in Hcollect.
    + unfold st_refines. simpl. by rewrite Hcollect.
    + destruct Hcollect as ([res c'] & -> & Hinv1 & Hc). simpl in Hinv1, Hc.
      subst c'. cbn [bind fst snd]. by apply Htail.
  - destruct (cfg !! "drop_keys") as [drop_keys|].
    + rewrite st_bind_run.
      destruct (drop_items_st_refines drop_keys refs items s0 _ Hreads eq_refl)
        as [_ Href].
      unfold st_refines in *.
      destruct (st_mapM (drop_item_st drop_keys) refs s0) as [[e|bs] s'];
        simpl in *.
      * by rewrite Href.
      * destruct Href as (outs & -> & Houts). simpl. by eexists.
    + rewrite st_bind_run, st_bind_run, (copy_all_run refs items s0 Hreads).
      cbn [st_ret bind ret fst snd].
      rewrite <- (Forall2_length _ _ _ Hreads).
      unfold st_refines. simpl. eexists. split; [done|]. split; [|done].
      apply omap_lookup_rel. intros k. rewrite !lookup_map_seq_0.
      destruct (items !! k) as [item|] eqn:Hitem.
      * rewrite lookup_seq_lt
          by (rewrite (Forall2_length _ _ _ Hreads); by eapply lookup_lt_Some).
        constructor. rewrite lookup_app_r by lia.
        by replace (length s0 + k - length s0) with k by lia.
      * rewrite lookup_seq_ge; [constructor|].
        rewrite (Forall2_length _ _ _ Hreads). by apply lookup_ge_None.
Qed.

End pm_refinement.

(** * Further properties *)

(** ** MapOperation.syntax_check, check by check *)

Section map_checks.
Context `{Env}.

(** The first block of the check when [drop_keys] is absent or a list of
    strings. *)
Lemma map_drop_keys_block (c : map_schema) (names : list string) :
  sc_drop_keys c = PNone ∧ names = [] ∨ sc_drop_keys c = PList (PStr <$> names) →
  (if truthy (sc_drop_keys c)
   then keys <- py_iter (sc_drop_keys c) ;;
        if existsb (λ key, negb (is_str key)) keys
        then raise (TypeError "All items in 'drop_keys' must be strings")
        else ret ()
   else if negb (truthy (sc_prompt c) && truthy (sc_output c))
        then raise (ValueError "If 'drop_keys' is not specified, both 'prompt' and 'output' must be present in the configuration")
        else ret ())
  = match names with
    | _ :: _ => inr ()
    | [] => if truthy (sc_prompt c) && truthy (sc_output c) then inr ()
            else inl (ValueError "If 'drop_keys' is not specified, both 'prompt' and 'output' must be present in the configuration")
    end.
Proof.
  intros [[-> ->] | ->].
  - simpl. by destruct (truthy (sc_prompt c) && truthy (sc_output c)).
  - destruct names as [|n names].
    + simpl. by destruct (truthy (sc_prompt c) && truthy (sc_output c)).
    + change (truthy (PList (PStr <$> n :: names))) with true. cbn [py_iter bind ret].
      by rewrite existsb_not_str_names.
Qed.

(** X1: [prompt] and [output] go together: with neither, the configuration is
    accepted when [drop_keys] names at least one field and refused
    otherwise; with one of the two, it is refused, the message naming the
    one that is missing when [drop_keys] is given. *)
Theorem map_syntax_check_prompt_output_pair (cfg : config) (c : map_schema)
    (names : list string) :
  schema_init cfg = inr c →
  sc_drop_keys c = PNone ∧ names = [] ∨ sc_drop_keys c = PList (PStr <$> names) →
  truthy (sc_prompt c) && truthy (sc_output c) = false →
  map_syntax_check cfg
  = match names with
    | [] => inl (ValueError "If 'drop_keys' is not specified, both 'prompt' and 'output' must be present in the configuration")
    | _ :: _ =>
        if truthy (sc_prompt c)
        then inl (ValueError "Missing required key 'output' in MapOperation configuration")
        else if truthy (sc_output c)
        then inl (ValueError "Missing required key 'prompt' in MapOperation configuration")
        else inr ()
    end.
Proof.
  intros Hinit Hdrop Hpair.
  unfold map_syntax_check. rewrite Hinit. cbn [bind].
  unfold map_syntax_check_body.
  rewrite (map_drop_keys_block c names Hdrop), Hpair.
  destruct names as [|n names]; [done|]. cbn [bind].
  destruct (truthy (sc_prompt c)) eqn:Hp, (truthy (sc_output c)) eqn:Ho;
    try done; cbn [orb bind forM_ snd ret]; rewrite ?Hp, ?Ho; done.
Qed.

(** The checks that remain for a configuration with a prompt and an output
    that has a schema. *)
Lemma map_syntax_check_generative (cfg : config) (c : map_schema)
    (names : list string) (out : gmap string pyval) (schema : pyval) :
  schema_init cfg = inr c →
  sc_drop_keys c = PNone ∧ names = [] ∨ sc_drop_keys c = PList (PStr <$> names) →
  truthy (sc_prompt c) = true →
  sc_output c = PDict out →
  out !! "schema" = Some schema →
  map_syntax_check cfg
  = ((if negb (truthy schema)
      then raise (ValueError "Missing 'schema' in 'output' configuration")
      else ret ()) ;;;
     match Template (sc_prompt c) with
     | inl e => raise (ValueError ("Invalid Jinja2 template in 'prompt': "
                                   +:+ exn_str e))
     | inr _ => ret ()
     end ;;;
     (if truthy (sc_model c) && negb (is_str (sc_model c))
      then raise (TypeError "'model' in configuration must be a string")
      else ret ()) ;;;
     (if truthy (sc_tools c)
      then tools <- py_iter (sc_tools c) ;; forM_ check_tool tools
      else ret ()) ;;;
     gleaning_check cfg).
Proof.
  intros Hinit Hdrop Hprompt Hout Hschema.
  assert (truthy (sc_output c) = true) as Houtput.
  { rewrite Hout. simpl. rewrite bool_decide_eq_false_2; [done|].
    rewrite map_size_empty_iff. intros ->. by rewrite lookup_empty in Hschema. }
  unfold map_syntax_check. rewrite Hinit. cbn [bind].
  unfold map_syntax_check_body.
  rewrite (map_drop_keys_block c names Hdrop), Hprompt, Houtput.
  destruct names as [|n names];
    cbn [andb bind orb forM_ snd negb ret]; rewrite Hprompt, Houtput;
    cbn [negb bind ret]; rewrite Hout; cbn [py_getitem]; rewrite Hschema;
    cbn [bind ret]; by destruct (truthy schema).
Qed.

(** X2: A prompt that jinja2 cannot compile is refused with a [ValueError] that
    carries jinja2's message, whatever exception jinja2 raised. *)
Theorem map_syntax_check_invalid_template (cfg : config) (c : map_schema)
    (names : list string) (out : gmap string pyval) (schema : pyval) (e : exn) :
  schema_init cfg = inr c →
  sc_drop_keys c = PNone ∧ names = [] ∨ sc_drop_keys c = PList (PStr <$> names) →
  truthy (sc_prompt c) = true →
  sc_output c = PDict out →
  out !! "schema" = Some schema →
  truthy schema = true →
  Template (sc_prompt c) = inl e →
  map_syntax_check cfg
  = inl (ValueError ("Invalid Jinja2 template in 'prompt': " +:+ exn_str e)).
Proof.
  intros Hinit Hdrop Hprompt Hout Hschema Htruthy Htpl.
  rewrite (map_syntax_check_generative cfg c names out schema) by done.
  by rewrite Htruthy, Htpl.
Qed.

(** X3: A configuration with a prompt and an output that has a schema is
    accepted exactly when the schema is not empty, the prompt compiles,
    the model, when given, is a string, every tool passes the tool checks
    and the gleaning check of the base class passes. *)
Theorem map_syntax_check_accepts (cfg : config) (c : map_schema)
    (names : list string) (out : gmap string pyval) (schema : pyval)
    (tools : list pyval) :
  schema_init cfg = inr c →
  sc_drop_keys c = PNone ∧ names = [] ∨ sc_drop_keys c = PList (PStr <$> names) →
  truthy (sc_prompt c) = true →
  sc_output c = PDict out →
  out !! "schema" = Some schema →
  sc_tools c = PNone ∧ tools = [] ∨ sc_tools c = PList tools →
  map_syntax_check cfg = inr ()
  ↔ truthy schema = true
    ∧ (∃ tpl, Template (sc_prompt c) = inr tpl)
    ∧ (truthy (sc_model c) = true → is_str (sc_model c) = true)
    ∧ Forall (λ t, check_tool t = inr ()) tools
    ∧ gleaning_check cfg = inr ().
Proof.
  intros Hinit Hdrop Hprompt Hout Hschema Htools.
  rewrite (map_syntax_check_generative cfg c names out schema) by done.
  assert ((if truthy (sc_tools c)
           then tools <- py_iter (sc_tools c) ;; forM_ check_tool tools
           else ret ()) = forM_ check_tool tools) as ->.
  { destruct Htools as [[-> ->] | ->]; [done|]. by destruct tools. }
  rewrite <- forM__inr.
  destruct (truthy schema); cbn [negb bind ret raise];
    [|split; [done|by intros [? _] ] ].
  destruct (Template (sc_prompt c)) as [e|tpl]; cbn [bind ret raise];
    [split; [done|by intros (_ & [? ?] & _)]|].
  destruct (truthy (sc_model c)), (is_str (sc_model c));
    cbn [andb negb bind ret raise].
  2:{ split; [done|]. intros (_ & _ & Hm & _). by specialize (Hm eq_refl). }
  all: destruct (forM_ check_tool tools) as [e|[] ]; cbn [bind ret raise];
    [split; [done|by intros (_ & _ & _ & ? & _)]|].
  all: split; [intros Hg; repeat split; eauto|by intros (_ & _ & _ & _ & ?)].
Qed.

(** X4: A tool passes exactly when it builds into a [Tool] whose [function] is
    a [ToolFunction] and whose [code], [name], [description] and
    [parameters] are all non-empty. *)
Theorem check_tool_accepts (t : pyval) :
  check_tool t = inr ()
  ↔ ∃ code name description parameters,
      tool_init t = inr (Tool code (ToolFunction name description parameters))
      ∧ truthy code = true ∧ truthy name = true
      ∧ truthy description = true ∧ truthy parameters = true.
Proof.
  unfold check_tool. split.
  - destruct (tool_init t) as [e|[code fn]]; [done|]. cbn [bind ret tool_fn tool_code].
    destruct fn as [name description parameters|v].
    + destruct (truthy code) eqn:Hc; [|done].
      cbn [andb negb bind ret forM_ snd].
      destruct (truthy name) eqn:Hn; [|done]. cbn [negb bind ret].
      destruct (truthy description) eqn:Hd; [|done]. cbn [negb bind ret].
      destruct (truthy parameters) eqn:Hp; [|done]. intros _.
      by exists code, name, description, parameters.
    + by destruct (negb (truthy code && truthy v)).
  - intros (code & name & description & parameters & -> & Hc & Hn & Hd & Hp).
    cbn [bind ret tool_fn tool_code]. rewrite Hc. cbn [andb negb bind ret forM_ snd].
    by rewrite Hn, Hd, Hp.
Qed.

End map_checks.

(** ** What the check guarantees to [execute] *)

Section check_and_execute.
Context `{Env}.

(** X5: When the schema object carries the [prompt] and [output] of the
    configuration, a configuration with a prompt that passes the check has
    a prompt that compiles and an output schema that is not empty: in
    [execute] the reads of the configuration and the compilation of the
    template succeed for every item, and the prompt of an item is the
    rendering of that template. *)
Theorem map_syntax_check_prepares_execute (cfg : config) (c : map_schema) :
  schema_init cfg = inr c →
  sc_prompt c = dict_get cfg "prompt" PNone →
  sc_output c = dict_get cfg "output" PNone →
  truthy (sc_prompt c) = true →
  map_syntax_check cfg = inr () →
  ∃ src tpl schema,
    cfg !! "prompt" = Some src
    ∧ Template src = inr tpl
    ∧ cfg_output_schema cfg = inr schema
    ∧ truthy schema = true
    ∧ ∀ item, map_item_prompt cfg item = render tpl {["input" := PDict item]}.
Proof.
  intros Hinit Hp Ho Hprompt Hcheck.
  unfold map_syntax_check in Hcheck. rewrite Hinit in Hcheck.
  cbn [bind] in Hcheck. unfold map_syntax_check_body in Hcheck.
  apply bind_inr in Hcheck as (_ & _ & Hcheck).
  rewrite Hprompt in Hcheck. cbn [orb forM_ snd] in Hcheck.
  rewrite Hprompt in Hcheck. cbn [negb bind ret] in Hcheck.
  destruct (truthy (sc_output c)) eqn:Houtput; [|done].
  cbn [negb bind ret] in Hcheck.
  apply bind_inr in Hcheck as ([] & Hschema & Hcheck).
  apply bind_inr in Hschema as (schema & Hget & Htruthy).
  destruct (truthy schema) eqn:Hts; [|done].
  apply bind_inr in Hcheck as ([] & Htpl & _).
  destruct (Template (sc_prompt c)) as [e|tpl] eqn:Htemplate; [done|].
  assert (cfg !! "prompt" = Some (sc_prompt c)) as Hsrc.
  { rewrite Hp in *. unfold dict_get in *.
    by destruct (cfg !! "prompt"). }
  assert (cfg !! "output" = Some (sc_output c)) as Hout.
  { rewrite Ho in *. unfold dict_get in *.
    by destruct (cfg !! "output"). }
  exists (sc_prompt c), tpl, schema.
  split; [done|]. split; [done|]. split; [|split; [done|] ].
  - unfold cfg_output_schema, cfg_item. by rewrite Hout.
  - intros item. unfold map_item_prompt, cfg_item. rewrite Hsrc.
    cbn [bind ret]. by rewrite Htemplate.
Qed.

(** A unit whose configuration has no [prompt] key raises [KeyError]. *)
Lemma process_map_item_no_prompt (cfg : config) (item : record) :
  cfg !! "prompt" = None →
  process_map_item cfg item = inl (KeyError (PStr "prompt")).
Proof.
  intros Hp. unfold process_map_item, map_item_call, map_item_prompt, cfg_item.
  by rewrite Hp.
Qed.

(** The loop over the futures, past a run of units that returned. *)
Lemma map_collect_prefix (cfg : config)
    (slots : list (option (result (option record * cost))))
    (items : list record) (rs : list (option record * cost))
    (emitted : list record) (k : nat) (rest : list nat)
    (results : list record) (total : cost) :
  (∀ j item, items !! j = Some item →
             future_result slots (k + j) = process_map_item cfg item) →
  Forall2 (λ item r, process_map_item cfg item = inr r) items rs →
  mapM (map_emit cfg) (omap fst rs) = inr emitted →
  map_collect cfg slots (seq k (length items) ++ rest) results total
  = map_collect cfg slots rest (results ++ emitted)
                (foldl cost_add total rs.*2).
Proof.
  intros Hslots Hrs. revert k results total emitted Hslots.
  induction Hrs as [|item r items rs Hr Hrs IH];
    intros k results total emitted Hslots Hem.
  - injection Hem as <-. simpl. by rewrite app_nil_r.
  - assert (∀ j it, items !! j = Some it →
                    future_result slots (S k + j) = process_map_item cfg it)
      as Hslots'.
    { intros j it Hj. rewrite <- (Hslots (S j) it) by done. f_equal. lia. }
    change (seq k (length (item :: items)) ++ rest)
      with (k :: (seq (S k) (length items) ++ rest)).
    cbn [map_collect]. rewrite <- (Nat.add_0_r k) at 1.
    rewrite (Hslots 0 item) by done. rewrite Hr. cbn [bind].
    destruct r as [[res|] c]; cbn [fst snd] in *.
    + rewrite omap_fst_cons_Some, mapM_cons in Hem.
      apply bind_inr in Hem as (res' & Hres' & (em' & Hem' & [= <-])%bind_inr).
      rewrite Hres'. cbn [bind ret].
      rewrite (IH _ _ _ em') by done. by rewrite <- app_assoc.
    + cbn [bind ret]. by rewrite (IH _ _ _ emitted).
Qed.

Lemma map_execute_raises (order : list nat) (cfg : config)
    (before : list record) (x : record) (after : list record)
    (rs : list (option record * cost)) (emitted : list record) (e : exn) :
  (cfg !! "prompt" = None → cfg !! "drop_keys" = None) →
  (∀ j, j < length (before ++ x :: after) → j ∈ order) →
  Forall2 (λ item r, process_map_item cfg item = inr r) before rs →
  mapM (map_emit cfg) (omap fst rs) = inr emitted →
  process_map_item cfg x = inl e →
  map_execute order cfg (before ++ x :: after)
  = (thread_pool (map_max_batch_size cfg) ;;; cfg_item cfg "name" ;;; inl e).
Proof.
  intros Hmain Hall Hrs Hem Hx. rewrite map_execute_main by done.
  assert (map_collect cfg
            (pool_run order (process_map_item cfg) (before ++ x :: after))
            (seq 0 (length (before ++ x :: after))) [] cost_zero = inl e)
    as ->; [|done].
  rewrite length_app. cbn [length]. rewrite seq_app.
  rewrite (map_collect_prefix cfg _ before rs emitted); [|..|done|done].
  - cbn [seq map_collect]. rewrite Nat.add_0_l.
    rewrite (future_result_pool _ _ _ (length before) x);
      [|done|by apply list_lookup_middle].
    by rewrite Hx.
  - intros j item Hj. apply future_result_pool; [done|].
    by apply lookup_app_l_Some.
Qed.

(** What is raised before the first future is awaited comes first. *)
Lemma raises_after_setup {A B C} (setup : result B) (name : result C)
    (e : exn) :
  ∃ e', (setup ;;; name ;;; inl e) = (inl e' : result A).
Proof.
  destruct setup as [e1|b]; [by exists e1|].
  destruct name as [e2|c]; [by exists e2|]. by exists e.
Qed.

(** X6: The first item, in input order, whose processing raises decides the
    outcome of [execute]: when the items before it are processed and
    projected without an exception, [execute] raises, in whatever order
    the units complete and whatever the later items do.  What it raises
    is the exception of the pool's constructor when [max_batch_size] is
    not usable, else [KeyError] for [name] when the configuration has no
    name, else what that item raised. *)
Theorem map_execute_first_failure (order : list nat) (cfg : config)
    (before : list record) (x : record) (after : list record)
    (rs : list (option record * cost)) (emitted : list record) (e : exn) :
  order ≡ₚ seq 0 (length (before ++ x :: after)) →
  (cfg !! "prompt" = None → cfg !! "drop_keys" = None) →
  Forall2 (λ item r, process_map_item cfg item = inr r) before rs →
  mapM (map_emit cfg) (omap fst rs) = inr emitted →
  process_map_item cfg x = inl e →
  map_execute order cfg (before ++ x :: after)
  = (thread_pool (map_max_batch_size cfg) ;;; cfg_item cfg "name" ;;; inl e).
Proof.
  intros Hperm Hmain Hrs Hem Hx.
  eapply map_execute_raises; try done. by apply perm_seq_covers.
Qed.

(** X7: Without [prompt] and without [drop_keys], [execute] on a collection
    that is not empty always raises: the exception of the pool's
    constructor when [max_batch_size] is not usable, else [KeyError] for
    [name] when the configuration has no name, else [KeyError] for the key
    [prompt]. *)
Theorem map_execute_no_prompt (order : list nat) (cfg : config)
    (item : record) (rest : list record) :
  order ≡ₚ seq 0 (S (length rest)) →
  cfg !! "prompt" = None →
  cfg !! "drop_keys" = None →
  map_execute order cfg (item :: rest)
  = (thread_pool (map_max_batch_size cfg) ;;; cfg_item cfg "name" ;;;
     inl (KeyError (PStr "prompt")))
  ∧ ∃ e, map_execute order cfg (item :: rest) = inl e.
Proof.
  intros Hperm Hp Hd.
  assert (map_execute order cfg (item :: rest)
          = (thread_pool (map_max_batch_size cfg) ;;; cfg_item cfg "name" ;;;
             inl (KeyError (PStr "prompt")))) as Hexec.
  { apply (map_execute_raises order cfg [] item rest [] []); try done.
    - by apply perm_seq_covers.
    - by apply process_map_item_no_prompt. }
  split; [done|]. rewrite Hexec. apply raises_after_setup.
Qed.

(** X8: The check tests whether [prompt] and [output] are empty, [execute]
    whether the key [prompt] is there.  A configuration with [drop_keys]
    and an empty prompt, without [output], passes the check; [execute]
    then takes the generative path and, on a collection that is not empty,
    always raises: the exception of the pool's constructor when
    [max_batch_size] is not usable, else [KeyError] for [name] when the
    configuration has no name, else [KeyError] for the key [output]. *)
Theorem map_empty_prompt_check_and_execute (order : list nat) (cfg : config)
    (c : map_schema) (names : list string) (src : pyval) (tpl : template)
    (p : string) (item : record) (rest : list record) :
  schema_init cfg = inr c →
  names ≠ [] →
  sc_drop_keys c = PList (PStr <$> names) →
  truthy (sc_prompt c) = false →
  truthy (sc_output c) = false →
  cfg !! "prompt" = Some src →
  cfg !! "output" = None →
  Template src = inr tpl →
  render tpl {["input" := PDict item]} = inr p →
  order ≡ₚ seq 0 (S (length rest)) →
  map_syntax_check cfg = inr ()
  ∧ map_execute order cfg (item :: rest)
    = (thread_pool (map_max_batch_size cfg) ;;; cfg_item cfg "name" ;;;
       inl (KeyError (PStr "output")))
  ∧ ∃ e, map_execute order cfg (item :: rest) = inl e.
Proof.
  intros Hinit Hne Hdrop Hp Ho Hsrc Hout Htpl Hrender Hperm. split.
  { unfold map_syntax_check. rewrite Hinit. cbn [bind].
    unfold map_syntax_check_body.
    rewrite (map_drop_keys_block c names) by (by right).
    destruct names as [|n names]; [done|]. cbn [bind].
    by rewrite Hp, Ho. }
  assert (map_execute order cfg (item :: rest)
          = (thread_pool (map_max_batch_size cfg) ;;; cfg_item cfg "name" ;;;
             inl (KeyError (PStr "output")))) as Hexec.
  { apply (map_execute_raises order cfg [] item rest [] []); try done.
    + by rewrite Hsrc.
    + by apply perm_seq_covers.
    + unfold process_map_item, map_item_call, map_item_prompt, cfg_item.
      rewrite Hsrc. cbn [bind ret]. rewrite Htpl. cbn [bind]. rewrite Hrender.
      cbn [bind]. unfold cfg_output_schema, cfg_item. by rewrite Hout. }
  split; [done|]. rewrite Hexec. apply raises_after_setup.
Qed.


End check_and_execute.

(** ** The validation function *)

Section validation_fn.
Context `{Env}.

Lemma backfill_fold (sd : gmap string pyval) (l : list (string * pyval))
    (out : record) (P : string * pyval → Prop) `{!∀ kv, Decision (P kv)} :
  (∀ kv, P kv ↔ sd !! kv.1 = None) →
  NoDup l.*1 →
  foldlM (λ (out : record) (kv : string * pyval),
            b <- py_in kv.1 (PDict sd) ;;
            ret (if b then out else <[kv.1 := kv.2]> out)) out l
  = inr (list_to_map (filter P l) ∪ out).
Proof.
  intros HP. revert out. induction l as [|[k v] l IH]; intros out Hnd.
  - simpl. by rewrite (left_id_L ∅ (∪)).
  - apply NoDup_cons in Hnd as [Hk Hnd]. cbn [foldlM py_in bind ret fst snd].
    rewrite IH by done. f_equal. rewrite filter_cons.
    destruct (decide (P (k, v))) as [HPk|HPk].
    + apply HP in HPk. simpl in HPk.
      rewrite bool_decide_eq_false_2 by (rewrite HPk; by intros [? ?]).
      cbn [list_to_map foldr uncurry]. simpl.
      rewrite <- insert_union_l, <- insert_union_r; [done|].
      apply not_elem_of_list_to_map_1. intros Hin. apply Hk.
      apply list_elem_of_fmap in Hin as (kv & -> & Hkv%list_elem_of_filter).
      apply list_elem_of_fmap. exists kv. split; [done|]. apply Hkv.
    + rewrite bool_decide_eq_true_2; [done|].
      destruct (sd !! k) eqn:Hsd; [done|]. exfalso. by apply HPk, HP.
Qed.

(** X10: The function handed to the model call parses the response, then copies
    from the item every field whose name is not a key of the schema, over
    whatever the parser gave for that name, and reports the verdict of
    [validate_output] on the record so completed: there the item wins for
    the names outside the schema, and the item's value for a name of the
    schema is left out. *)
Theorem map_validation_fn_backfill (cfg : config) (item : record)
    (resp : response) (sd : gmap string pyval) (output : record)
    (more : list record) :
  cfg_output_schema cfg = inr (PDict sd) →
  parse_llm_response resp (PDict sd) (dict_get cfg "tools" PNone)
                     manually_fix_errors = inr (output :: more) →
  let completed :=
    filter (λ kv : string * pyval, sd !! kv.1 = None) item ∪ output in
  map_validation_fn cfg item resp
  = (ok <- validate_output cfg completed ;; ret (completed, ok))
  ∧ ∀ k, completed !! k
         = match sd !! k, item !! k with
           | None, Some x => Some x
           | _, _ => output !! k
           end.
Proof.
  intros Hschema Hparse. split.
  2:{ intros k. rewrite lookup_union, map_lookup_filter. simpl.
      destruct (item !! k) as [x|] eqn:Hx; simpl;
        [|by destruct (sd !! k), (output !! k)].
      destruct (sd !! k) as [y|] eqn:Hsd.
      - rewrite option_guard_False by done. by destruct (output !! k).
      - rewrite option_guard_True by done. by destruct (output !! k). }
  unfold map_validation_fn.
  rewrite Hschema. cbn [bind]. rewrite Hparse. cbn [bind first ret].
  rewrite (backfill_fold sd (map_to_list item) output
             (λ kv, sd !! kv.1 = None)); [|done|apply NoDup_fst_map_to_list].
  cbn [bind]. by rewrite <- map_filter_alt.
Qed.

End validation_fn.

(** ** ParallelMapOperation.syntax_check, check by check *)

Lemma Forall_is_str (keys : list pyval) :
  Forall (λ key, is_str key = true) keys ↔ ∃ names, keys = PStr <$> names.
Proof.
  split.
  - induction 1 as [|key keys Hkey _ [names ->]]; [by exists []|].
    destruct key; try discriminate. by eexists (_ :: names).
  - intros [names ->]. by apply Forall_fmap, Forall_true.
Qed.

Lemma forM__first_failure {A} (f : A → result unit) (good : list A) (bad : A)
    (rest : list A) :
  Forall (λ a, f a = inr ()) good →
  forM_ f (good ++ bad :: rest) = (f bad ;;; forM_ f rest).
Proof.
  induction 1 as [|a good Ha _ IH]; [done|]. simpl. by rewrite Ha.
Qed.

Section pm_checks.
Context `{Env}.

(** X11: The first block of the check accepts [drop_keys] when it is a list of
    strings, and its absence when the key [prompts] is there; nothing
    else.  A bare string is refused here. *)
Theorem pm_check_drop_keys_accepts (cfg : config) :
  pm_check_drop_keys cfg = inr ()
  ↔ (∃ names, cfg !! "drop_keys" = Some (PList (PStr <$> names)))
    ∨ (cfg !! "drop_keys" = None ∧ is_Some (cfg !! "prompts")).
Proof.
  unfold pm_check_drop_keys, has_key.
  destruct (cfg !! "drop_keys") as [dk|].
  - split.
    + intros Hchk. left.
      destruct dk as [| | | |keys|]; try discriminate. simpl in Hchk.
      apply forM__inr in Hchk.
      destruct (proj1 (Forall_is_str keys)) as [names ->]; [|by exists names].
      eapply Forall_impl; [exact Hchk|]. intros key. simpl.
      by destruct (is_str key).
    + intros [[names [= ->]]|[? _]]; [|done]. simpl.
      apply forM__inr, Forall_fmap, Forall_true. by intros k.
  - split.
    + intros Hchk. right. split; [done|].
      by destruct (decide (is_Some (cfg !! "prompts")));
        [|rewrite bool_decide_eq_false_2 in Hchk].
    + intros [[names ?]|[_ Hp]]; [done|]. by rewrite bool_decide_eq_true_2.
Qed.

(** The per-entry checks, whatever the position of the entry. *)
Lemma pm_check_prompt_config_accepts (i : nat) (pc : pyval) :
  pm_check_prompt_config i pc = inr () ↔ pm_entry_ok pc.
Proof.
  split.
  - destruct pc as [| | | | |d]; try discriminate.
    unfold pm_check_prompt_config, has_key. simpl.
    destruct (d !! "prompt") as [prompt|] eqn:Hp;
      [rewrite bool_decide_eq_true_2 by done
      |rewrite bool_decide_eq_false_2 by (by intros [? ?])]; [|done].
    destruct (d !! "output_keys") as [oks|] eqn:Ho;
      [rewrite bool_decide_eq_true_2 by done
      |rewrite bool_decide_eq_false_2 by (by intros [? ?])]; [|done].
    simpl. destruct prompt as [| | |src| |]; try discriminate. simpl.
    destruct oks as [| | | |keys|]; try discriminate. simpl.
    destruct keys as [|key keys]; [done|]. simpl.
    destruct (Template (PStr src)) as [e|tpl] eqn:Htpl; [done|]. simpl.
    intros Hmodel. exists d, src, (key :: keys).
    repeat split; [done..|by exists tpl|].
    intros model Hm. rewrite Hm in Hmodel. by destruct (is_str model).
  - intros (d & src & keys & -> & Hp & Ho & Hne & [tpl Htpl] & Hmodel).
    unfold pm_check_prompt_config, has_key. simpl.
    rewrite Hp, Ho. rewrite !bool_decide_eq_true_2 by done. simpl.
    destruct keys as [|key keys]; [done|]. simpl. rewrite Htpl. simpl.
    destruct (d !! "model") as [model|] eqn:Hm; [|done].
    by rewrite (Hmodel model).
Qed.

Lemma pm_check_entries_forall (prompts : list pyval) :
  Forall pm_entry_ok prompts
  ↔ Forall (λ ip : nat * pyval, pm_check_prompt_config ip.1 ip.2 = inr ())
           (imap pair prompts).
Proof.
  rewrite !Forall_lookup. split.
  - intros Hall i [j pc]. rewrite list_lookup_imap.
    destruct (prompts !! i) as [pc'|] eqn:Hi; [|done]. intros [= <- <-].
    apply pm_check_prompt_config_accepts. by apply (Hall i).
  - intros Hall i pc Hi. apply (pm_check_prompt_config_accepts i).
    apply (Hall i (i, pc)). by rewrite list_lookup_imap, Hi.
Qed.

(** X12: The checks on [prompts] accept a list that is not empty and whose
    entries are each a dict with a string [prompt] that compiles, a
    non-empty list [output_keys] and, when given, a string [model]. *)
Theorem pm_check_entries_accepts (prompts : list pyval) :
  pm_check_entries prompts = inr ()
  ↔ prompts ≠ [] ∧ Forall pm_entry_ok prompts.
Proof.
  unfold pm_check_entries. rewrite pm_check_entries_forall, <- forM__inr.
  destruct prompts as [|pc prompts]; [by split; [|intros [? _]]|].
  change (truthy (PList (pc :: prompts))) with true. cbn [negb bind ret].
  by split; [|intros [_ ?]].
Qed.

(** X13: The entries are checked in order: the exception raised is the one the
    first refused entry gets, and its message carries the position of that
    entry in the list. *)
Theorem pm_check_entries_first_refused (good : list pyval) (bad : pyval)
    (rest : list pyval) :
  Forall pm_entry_ok good →
  ¬ pm_entry_ok bad →
  pm_check_entries (good ++ bad :: rest)
  = pm_check_prompt_config (length good) bad
  ∧ ∃ e, pm_check_prompt_config (length good) bad = inl e.
Proof.
  intros Hgood Hbad.
  assert (∃ e, pm_check_prompt_config (length good) bad = inl e) as [e He].
  { destruct (pm_check_prompt_config (length good) bad) as [e|[]] eqn:Hchk;
      [by exists e|]. by apply pm_check_prompt_config_accepts in Hchk. }
  split; [|by exists e]. unfold pm_check_entries.
  replace (truthy (PList (good ++ bad :: rest))) with true
    by (by destruct good).
  cbn [negb bind ret]. rewrite imap_app. cbn [imap].
  rewrite forM__first_failure.
  - rewrite Nat.add_0_r. simpl. by rewrite He.
  - by apply pm_check_entries_forall.
Qed.

(** X14: With [prompts], the check reads [output] and its [schema] by
    subscript: a configuration whose entries are all accepted and that has
    no [output] is refused with a [KeyError], no message of the check. *)
Theorem pm_syntax_check_needs_output (cfg : config) (prompts : list pyval) :
  cfg !! "prompts" = Some (PList prompts) →
  pm_check_drop_keys cfg = inr () →
  prompts ≠ [] →
  Forall pm_entry_ok prompts →
  cfg !! "output" = None →
  pm_syntax_check cfg = inl (KeyError (PStr "output")).
Proof.
  intros Hprompts Hdrop Hne Hall Hout. unfold pm_syntax_check.
  rewrite Hdrop, Hprompts. cbn [bind].
  assert (pm_check_entries prompts = inr ()) as ->.
  { unfold pm_check_entries. destruct prompts as [|pc prompts]; [done|].
    change (truthy (PList (pc :: prompts))) with true. cbn [negb bind ret].
    by apply forM__inr, pm_check_entries_forall. }
  cbn [bind].
  unfold pm_check_coverage, cfg_output_schema, cfg_item. by rewrite Hout.
Qed.

End pm_checks.

(** ** ParallelMapOperation.execute, unit by unit *)

Lemma omap_lookup_seq {B} (R : gmap nat B) (l : list B) (k : nat) :
  (∀ j x, l !! j = Some x → R !! (k + j) = Some x) →
  omap (λ i, R !! i) (seq k (length l)) = l.
Proof.
  revert k. induction l as [|x l IH]; intros k Hl; [done|].
  pose proof (Hl 0 x eq_refl) as H0. rewrite Nat.add_0_r in H0.
  simpl. rewrite H0. f_equal. apply IH. intros j y Hj.
  replace (S k + j) with (k + S j) by lia. by apply Hl.
Qed.

Lemma remove_fields_delete (names : list string) (k : string) (r : record) :
  remove_fields names (delete k r) = delete k (remove_fields names r).
Proof.
  induction names as [|n names IH]; [done|].
  change (remove_fields (n :: names) ?x) with (delete n (remove_fields names x)).
  rewrite IH. apply delete_delete.
Qed.

Section local_schema.
Context `{Env}.

Lemma local_schema_fold (sd : gmap string pyval) (names : list string)
    (acc : gmap string pyval) :
  Forall (λ k, is_Some (sd !! k)) names →
  foldlM (λ (acc : gmap string pyval) (key : pyval),
            v <- schema_item (PDict sd) key ;;
            ret (match key with PStr k => <[k := v]> acc | _ => acc end))
         acc (PStr <$> names)
  = inr (filter (λ kv : string * pyval, kv.1 ∈ names) sd ∪ acc).
Proof.
  intros Hall. revert acc.
  induction Hall as [|k names [v Hv] _ IH]; intros acc.
  - simpl. f_equal. rewrite map_empty_filter_2; [by rewrite (left_id_L ∅ (∪))|].
    apply map_Forall_lookup. intros i x _. simpl. apply not_elem_of_nil.
  - cbn [fmap list_fmap foldlM schema_item py_getitem]. rewrite Hv.
    cbn [bind ret]. rewrite IH. f_equal. apply map_eq. intros x.
    rewrite !lookup_union, !map_lookup_filter.
    destruct (decide (x = k)) as [->|Hne].
    + rewrite Hv, lookup_insert_eq. simpl.
      rewrite (option_guard_True (k ∈ k :: names)) by left.
      destruct (guard (k ∈ names)); simpl; by destruct (acc !! k).
    + rewrite lookup_insert_ne by done.
      destruct (sd !! x) as [y|]; [|done]. simpl.
      destruct (decide (x ∈ names)) as [Hin|Hnin].
      * rewrite !option_guard_True; [done|by right|done].
      * rewrite !option_guard_False; [done| |done].
        by intros [?|?]%elem_of_cons.
Qed.

(** X15: The schema handed to the model for one prompt is the slice of the
    output schema at the prompt's [output_keys]; a key the output schema
    does not have raises [KeyError] for the first such key. *)
Theorem local_schema_slice (sd : gmap string pyval) (names : list string) :
  (Forall (λ k, is_Some (sd !! k)) names →
   local_schema (PDict sd) (PStr <$> names)
   = inr (filter (λ kv : string * pyval, kv.1 ∈ names) sd))
  ∧ (∀ pre k rest,
       names = pre ++ k :: rest →
       Forall (λ k, is_Some (sd !! k)) pre →
       sd !! k = None →
       local_schema (PDict sd) (PStr <$> names) = inl (KeyError (PStr k))).
Proof.
  split.
  - intros Hall. unfold local_schema. rewrite local_schema_fold by done.
    by rewrite (right_id_L ∅ (∪)).
  - intros pre k rest -> Hpre Hk. unfold local_schema.
    generalize (∅ : gmap string pyval).
    induction Hpre as [|p pre [v Hv] _ IH]; intros acc.
    + cbn [app fmap list_fmap foldlM schema_item py_getitem]. by rewrite Hk.
    + cbn [app fmap list_fmap foldlM schema_item py_getitem]. rewrite Hv.
      cbn [bind ret]. apply IH.
Qed.

End local_schema.

Section pm_drop.
Context `{Env}.

Lemma pop_keys_fold (l : list pyval) (r : record) :
  forallb hashable l = true →
  pop_keys (PList l) r = inr (remove_fields (str_elements l) r).
Proof.
  unfold pop_keys. cbn [py_iter bind ret].
  revert r. induction l as [|key l IH]; intros r Hh; [done|].
  simpl in Hh. apply andb_true_iff in Hh as [Hkey Hl].
  destruct key; try discriminate; cbn [foldlM hashable orb bind ret];
    rewrite IH by done; try done.
  unfold str_elements. simpl. fold (str_elements l).
  change (foldr delete r (s :: str_elements l))
    with (delete s (remove_fields (str_elements l) r)).
  by rewrite remove_fields_delete.
Qed.

(** The [pop] loop up to the first key that cannot be hashed: the keys before
    it are popped, and [pop] hashes the key only when fields are left. *)
Lemma pop_keys_first_unhashable (pre : list pyval) (bad : pyval)
    (rest : list pyval) (r : record) :
  forallb hashable pre = true →
  hashable bad = false →
  pop_keys (PList (pre ++ bad :: rest)) r
  = if decide (remove_fields (str_elements pre) r = ∅) then inr ∅
    else inl (unhashable_error bad).
Proof.
  intros Hpre Hbad. revert r Hpre.
  induction pre as [|key pre IH]; intros r Hpre.
  - change (remove_fields (str_elements []) r) with r.
    destruct (decide (r = ∅)) as [->|Hne]; [apply pop_keys_empty|].
    unfold pop_keys. cbn [py_iter bind ret app foldlM].
    destruct bad; try discriminate; cbn [hashable orb];
      by rewrite bool_decide_eq_false_2.
  - simpl in Hpre. apply andb_true_iff in Hpre as [Hkey Hpre].
    specialize (IH (match key with PStr k => delete k r | _ => r end) Hpre).
    unfold pop_keys in *. cbn [py_iter bind ret app foldlM] in *.
    destruct key; try discriminate; cbn [hashable orb bind ret];
      rewrite IH; try done.
    rewrite remove_fields_delete. done.
Qed.

Lemma first_unhashable (l : list pyval) :
  forallb hashable l = false →
  ∃ pre bad rest, l = pre ++ bad :: rest
                  ∧ forallb hashable pre = true ∧ hashable bad = false.
Proof.
  induction l as [|key l IH]; [done|]. simpl.
  destruct (hashable key) eqn:Hkey.
  - intros (pre & bad & rest & -> & Hpre & Hbad)%IH.
    exists (key :: pre), bad, rest. simpl. by rewrite Hkey, Hpre.
  - intros _. by exists [], key, l.
Qed.

(** X16: The two ways of dropping fields in [ParallelMapOperation.execute], the
    comprehension of the path without prompts and the [pop] loop after the
    prompts, give the same record when [drop_keys] is a list of hashable
    values.  At the first element that cannot be hashed, which the
    comprehension accepts, the [pop] loop returns the empty record when the
    elements before it have removed every field, and raises [TypeError] with
    the name of the element's type otherwise.  Whenever the [pop] loop
    returns, it returns the record of the comprehension. *)
Theorem pm_drop_paths (l : list pyval) (r : record) :
  dict_without (PList l) r = inr (remove_fields (str_elements l) r)
  ∧ (forallb hashable l = true →
     pop_keys (PList l) r = dict_without (PList l) r)
  ∧ (∀ pre bad rest,
       l = pre ++ bad :: rest →
       forallb hashable pre = true →
       hashable bad = false →
       pop_keys (PList l) r
       = if decide (remove_fields (str_elements pre) r = ∅) then inr ∅
         else inl (TypeError ("unhashable type: '" +:+ type_name bad +:+ "'")))
  ∧ (∀ r', pop_keys (PList l) r = inr r' → dict_without (PList l) r = inr r').
Proof.
  split; [apply dict_without_list|]. split; [|split].
  - intros Hh. rewrite dict_without_list. by apply pop_keys_fold.
  - intros pre bad rest -> Hpre Hbad.
    by apply pop_keys_first_unhashable.
  - intros r' Hpop. rewrite dict_without_list.
    destruct (forallb hashable l) eqn:Hh.
    { by rewrite pop_keys_fold in Hpop. }
    apply first_unhashable in Hh as (pre & bad & rest & -> & Hpre & Hbad).
    rewrite (pop_keys_first_unhashable pre bad rest r Hpre Hbad) in Hpop.
    destruct (decide (remove_fields (str_elements pre) r = ∅)) as [Hem|];
      [|done].
    injection Hpop as <-. f_equal. apply map_eq. intros k.
    rewrite lookup_empty, lookup_remove_fields.
    destruct (decide (k ∈ str_elements (pre ++ bad :: rest))) as [|Hk]; [done|].
    apply (f_equal (.!! k)) in Hem.
    rewrite lookup_empty, lookup_remove_fields in Hem.
    destruct (decide (k ∈ str_elements pre)) as [Hin|]; [|done].
    exfalso. apply Hk. unfold str_elements in *. rewrite omap_app.
    apply elem_of_app. by left.
Qed.

End pm_drop.

Section pm_reassembly.
Context `{Env}.




(** X18: A [prompts] list without entries, which the check refuses, makes
    [execute] return no record at all, at no cost: the input is dropped,
    and no exception is raised, whatever [drop_keys] is. *)
Theorem pm_execute_no_entries (order : list nat) (cfg : config)
    (output_schema : pyval) (input_data : list record) :
  pm_output_schema cfg = inr output_schema →
  cfg !! "prompts" = Some (PList []) →
  pm_execute order cfg input_data = inr ([], cost_zero).
Proof.
  intros Hschema Hprompts. unfold pm_execute.
  rewrite Hschema, Hprompts. cbn [bind].
  rewrite (pm_units_inr _ []) by done. cbn [bind]. rewrite units_nil.
  cbn [length seq pm_collect ret bind fst snd].
  destruct (cfg !! "drop_keys") as [dk|].
  - rewrite map_to_list_empty. cbn [mapM bind ret list_to_map foldr].
    by rewrite omap_lookup_empty.
  - cbn [bind ret]. by rewrite omap_lookup_empty.
Qed.

(** X19: With neither [prompts] nor [drop_keys], which the check refuses too,
    [execute] returns the records of the input as they are, at no cost. *)
Theorem pm_execute_copies (order : list nat) (cfg : config)
    (output_schema : pyval) (input_data : list record) :
  pm_output_schema cfg = inr output_schema →
  cfg !! "prompts" = None →
  cfg !! "drop_keys" = None →
  pm_execute order cfg input_data = inr (input_data, cost_zero).
Proof.
  intros Hschema Hprompts Hdrop. unfold pm_execute.
  rewrite Hschema, Hprompts, Hdrop. cbn [bind ret fst snd].
  f_equal. f_equal. apply omap_lookup_seq. intros j x Hx.
  by rewrite lookup_map_seq_0.
Qed.

End pm_reassembly.

(** ** The dicts [execute] returns *)

Section grows.
Context (n0 : nat).

Lemma st_grows_ret {A} (a : A) (Q : A → Prop) :
  Q a → st_grows n0 (st_ret a) Q.
Proof. intros HQ s Hs. split; [done|]. by intros ? [= <-]. Qed.

Lemma st_grows_lift {A} (r : result A) (Q : A → Prop) :
  (∀ a, r = inr a → Q a) → st_grows n0 (st_lift r) Q.
Proof. intros HQ s Hs. split; [done|]. exact HQ. Qed.

Lemma st_grows_bind {A B} (m : st A) (k : A → st B) (P : A → Prop)
    (Q : B → Prop) :
  st_grows n0 m P →
  (∀ a, P a → st_grows n0 (k a) Q) →
  st_grows n0 (st_bind m k) Q.
Proof.
  intros Hm Hk s Hs. unfold st_bind.
  destruct (Hm s Hs) as [Hs' HP].
  destruct (m s) as [[e|a] s']; simpl in *; [by split|].
  apply Hk; [by apply HP | done].
Qed.

Lemma st_grows_read (l : loc) : st_grows n0 (st_read l) (λ _, True).
Proof.
  intros s Hs. unfold st_read. by destruct (s !! l).
Qed.

(** A new dict is none of the first [n0]. *)
Lemma st_grows_alloc (r : record) :
  st_grows n0 (st_alloc r) (λ l, n0 ≤ l).
Proof.
  intros s Hs. unfold st_alloc. simpl. split.
  - rewrite length_app. lia.
  - by intros a [= <-].
Qed.

Lemma st_grows_write (l : loc) (r : record) :
  st_grows n0 (st_write l r) (λ _, True).
Proof.
  intros s Hs. unfold st_write. simpl. split; [|done].
  by rewrite length_insert.
Qed.

Lemma st_grows_mapM {A B} (f : A → st B) (l : list A) (Q : B → Prop) :
  (∀ a, a ∈ l → st_grows n0 (f a) Q) →
  st_grows n0 (st_mapM f l) (Forall Q).
Proof.
  induction l as [|a l IH]; intros Hf.
  - by apply st_grows_ret.
  - simpl. eapply st_grows_bind; [apply Hf; by left|].
    intros b Hb. eapply st_grows_bind.
    + apply IH. intros a' Ha'. apply Hf. by right.
    + intros bs Hbs. apply st_grows_ret. by constructor.
Qed.

Lemma st_grows_foldlM {A B} (f : B → A → st B) (l : list A) (acc : B)
    (Q : B → Prop) :
  Q acc →
  (∀ b a, Q b → st_grows n0 (f b a) Q) →
  st_grows n0 (st_foldlM f acc l) Q.
Proof.
  intros Hacc Hf. revert acc Hacc.
  induction l as [|a l IH]; intros acc Hacc.
  - by apply st_grows_ret.
  - simpl. eapply st_grows_bind; [by apply Hf|]. intros b Hb. by apply IH.
Qed.

End grows.

Section returned.
Context `{Env} (n0 : nat).

Local Abbreviation fresh := (λ l : loc, n0 ≤ l).

(** Whatever the template does to the dict it renders, the dict stays where
    it is. *)
Lemma st_grows_render (tpl : template) (ref : loc) :
  st_grows n0 (st_render tpl ref) (λ _, True).
Proof.
  intros s Hs. unfold st_render.
  destruct (s !! ref) as [item|]; [|done].
  destruct (render_item tpl item) as [r item']. simpl.
  by rewrite length_insert.
Qed.

Lemma drop_item_st_fresh (drop_keys : pyval) (ref : loc) :
  st_grows n0 (drop_item_st drop_keys ref) fresh.
Proof.
  unfold drop_item_st.
  eapply st_grows_bind; [apply st_grows_read|]. intros item _.
  eapply st_grows_bind; [by apply (st_grows_lift _ _ (λ _, True))|].
  intros new_item _. apply st_grows_alloc.
Qed.

Lemma process_map_item_st_fresh (cfg : config) (ref : loc) :
  st_grows n0 (process_map_item_st cfg ref)
           (λ r, ∀ l, r.1 = Some l → fresh l).
Proof.
  unfold process_map_item_st.
  eapply st_grows_bind; [by apply (st_grows_lift _ _ (λ _, True))|].
  intros src _.
  eapply st_grows_bind; [by apply (st_grows_lift _ _ (λ _, True))|].
  intros tpl _.
  eapply st_grows_bind; [apply st_grows_render|]. intros prompt _.
  eapply st_grows_bind; [apply st_grows_read|]. intros item _.
  eapply st_grows_bind; [by apply (st_grows_lift _ _ (λ _, True))|].
  intros llm_result _. destruct (validated llm_result).
  - eapply st_grows_bind; [by apply (st_grows_lift _ _ (λ _, True))|].
    intros output _. eapply st_grows_bind; [apply st_grows_alloc|].
    intros merged Hmerged. apply st_grows_ret. by intros l [= <-].
  - by apply st_grows_ret.
Qed.

(** The pool keeps the dicts of the store where they are, and what its
    units return satisfies what each unit guarantees. *)
Lemma pool_run_st_slots {T A} (order : list nat) (f : T → st A)
    (units : list T) (s : store) (Q : A → Prop) :
  (∀ u, st_grows n0 (f u) Q) →
  n0 ≤ length s →
  n0 ≤ length (pool_run_st order f units s).2
  ∧ Forall (λ slot, ∀ a, slot = Some (inr a) → Q a)
           (pool_run_st order f units s).1.
Proof.
  intros Hf. unfold pool_run_st.
  assert (Forall (λ slot : option (result A), ∀ a, slot = Some (inr a) → Q a)
                 (replicate (length units) None)) as Hinit
    by (by apply Forall_replicate).
  revert Hinit. generalize (replicate (length units) (@None (result A))).
  revert s. induction order as [|i order IH]; intros s slots Hslots Hs; [done|].
  simpl. destruct (units !! i) as [u|]; [|by apply IH].
  destruct (Hf u s Hs) as [Hs' HQ].
  destruct (f u s) as [r s']. apply IH; [|done].
  apply Forall_insert; [done|]. intros a [= ->]. by apply HQ.
Qed.

Lemma map_collect_st_fresh (cfg : config)
    (slots : list (option (result (option loc * cost))))
    (indices : list nat) (results : list loc) (total : cost) :
  Forall (λ slot, ∀ r : option loc * cost,
            slot = Some (inr r) → ∀ l, r.1 = Some l → fresh l) slots →
  Forall fresh results →
  st_grows n0 (map_collect_st cfg slots indices results total)
           (λ rc, Forall fresh rc.1).
Proof.
  intros Hslots. revert results total.
  induction indices as [|i indices IH]; intros results total Hresults.
  - by apply st_grows_ret.
  - cbn [map_collect_st].
    eapply (st_grows_bind _ _ _ (λ r, ∀ l, r.1 = Some l → fresh l)).
    { apply st_grows_lift. intros r Hr. unfold future_result in Hr.
      destruct (slots !! i) as [[slot|]|] eqn:Hi; try discriminate.
      rewrite Forall_lookup in Hslots. apply (Hslots i _ Hi). by rewrite Hr. }
    intros r Hr. eapply st_grows_bind; [|intros results' Hres'; by apply IH].
    destruct r.1 as [ref|]; [|by apply st_grows_ret].
    destruct (cfg !! "drop_keys") as [drop_keys|].
    + eapply st_grows_bind; [apply drop_item_st_fresh|].
      intros new Hnew. apply st_grows_ret. apply Forall_app. by split; [|constructor].
    + apply st_grows_ret. apply Forall_app. split; [done|].
      constructor; [by apply Hr|done].
Qed.

Lemma map_execute_st_fresh (order : list nat) (cfg : config)
    (input_data : list loc) :
  st_grows n0 (map_execute_st order cfg input_data) (λ rc, Forall fresh rc.1).
Proof.
  assert (st_grows n0
            (_ <~ st_lift (thread_pool (map_max_batch_size cfg)) ;;
             λ s, let (futures, s') :=
                    pool_run_st order (process_map_item_st cfg) input_data s in
                  (_ <~ st_lift (cfg_item cfg "name") ;;
                   map_collect_st cfg futures (seq 0 (length input_data)) []
                                  cost_zero) s')
            (λ rc, Forall fresh rc.1)) as Hmain.
  { eapply st_grows_bind; [by apply (st_grows_lift _ _ (λ _, True))|].
    intros _ _ s Hs.
    destruct (pool_run_st_slots order (process_map_item_st cfg)
                input_data s _ (process_map_item_st_fresh cfg) Hs)
      as [Hpool Hslots].
    destruct (pool_run_st order (process_map_item_st cfg) input_data s)
      as [futures s'].
    assert (st_grows n0
              (_ <~ st_lift (cfg_item cfg "name") ;;
               map_collect_st cfg futures (seq 0 (length input_data)) []
                              cost_zero) (λ rc, Forall fresh rc.1)) as Hcollect.
    { eapply st_grows_bind; [by apply (st_grows_lift _ _ (λ _, True))|].
      intros _ _. by apply map_collect_st_fresh. }
    exact (Hcollect s' Hpool). }
  unfold map_execute_st.
  destruct (cfg !! "prompt"); [done|].
  destruct (cfg !! "drop_keys") as [drop_keys|]; [|done].
  eapply st_grows_bind.
  - apply st_grows_mapM. intros ref _. apply drop_item_st_fresh.
  - intros dropped Hdropped. by apply st_grows_ret.
Qed.

Lemma process_prompt_st_grows (cfg : config) (output_schema : pyval)
    (u : loc * pyval) :
  st_grows n0 (process_prompt_st cfg output_schema u) (λ _, True).
Proof.
  unfold process_prompt_st, render_jinja_template_st.
  eapply st_grows_bind; [by apply (st_grows_lift _ _ (λ _, True))|].
  intros src _.
  eapply st_grows_bind; [|intros prompt _; by apply st_grows_lift].
  instantiate (1 := λ _, True).
  eapply st_grows_bind; [apply st_grows_read|]. intros data _.
  destruct (negb (truthy (PDict data))); [by apply st_grows_ret|].
  eapply st_grows_bind; [by apply (st_grows_lift _ _ (λ _, True))|].
  intros tpl _. apply st_grows_render.
Qed.

(** The accumulators of the reassembly loop are dicts allocated by the
    loop. *)
Lemma pm_collect_st_fresh (prompts : pyval) (input_data : list loc)
    (slots : list (option (result (record * cost)))) (indices : list nat)
    (results : gmap nat loc) (total : cost) :
  map_Forall (λ _, fresh) results →
  st_grows n0 (pm_collect_st prompts input_data slots indices results total)
           (λ rc, map_Forall (λ _, fresh) rc.1).
Proof.
  revert results total.
  induction indices as [|i indices IH]; intros results total Hfresh.
  - by apply st_grows_ret.
  - cbn [pm_collect_st].
    eapply st_grows_bind; [by apply (st_grows_lift _ _ (λ _, True))|].
    intros r _.
    eapply st_grows_bind; [by apply (st_grows_lift _ _ (λ _, True))|].
    intros n _.
    eapply st_grows_bind; [by apply (st_grows_lift _ _ (λ _, True))|].
    intros _ _.
    eapply (st_grows_bind _ _ _ (λ results', map_Forall (λ _, fresh) results')).
    { destruct (bool_decide (i `mod` n = 0)); [|by apply st_grows_ret].
      eapply st_grows_bind; [by apply (st_grows_lift _ _ (λ _, True))|].
      intros ref _. eapply st_grows_bind; [apply st_grows_read|].
      intros item _. eapply st_grows_bind; [apply st_grows_alloc|].
      intros item_result Hnew. apply st_grows_ret.
      by apply map_Forall_insert_2. }
    intros results' Hfresh'.
    eapply st_grows_bind; [by apply (st_grows_lift _ _ (λ _, True))|].
    intros item_result _.
    eapply st_grows_bind; [apply st_grows_read|]. intros current _.
    eapply st_grows_bind; [apply st_grows_write|]. intros _ _.
    by apply IH.
Qed.

Lemma pop_keys_st_grows (drop_keys : pyval) (ref : loc) :
  st_grows n0 (pop_keys_st drop_keys ref) (λ _, True).
Proof.
  unfold pop_keys_st.
  eapply st_grows_bind; [by apply (st_grows_lift _ _ (λ _, True))|].
  intros keys _. eapply st_grows_bind; [|intros; by apply st_grows_ret].
  apply (st_grows_foldlM _ _ _ _ (λ _, True)); [done|].
  intros [] key _.
  destruct key; cbn [hashable]; try (by apply st_grows_ret);
    (eapply st_grows_bind; [apply st_grows_read|]; intros item _).
  - apply st_grows_write.
  - destruct (bool_decide (item = ∅));
      [by apply st_grows_ret|by apply st_grows_lift].
  - destruct (bool_decide (item = ∅));
      [by apply st_grows_ret|by apply st_grows_lift].
Qed.

Lemma pm_execute_st_fresh (order : list nat) (cfg : config)
    (input_data : list loc) :
  st_grows n0 (pm_execute_st order cfg input_data) (λ rc, Forall fresh rc.1).
Proof.
  unfold pm_execute_st.
  eapply st_grows_bind; [by apply (st_grows_lift _ _ (λ _, True))|].
  intros output_schema _.
  assert (∀ prompts_opt drop_opt,
            st_grows n0
              (rc <~ match prompts_opt with
                     | Some prompts =>
                         units <~ st_lift (pm_units_st prompts input_data) ;;
                         λ s,
                           let (all_futures, s') :=
                             pool_run_st order
                               (process_prompt_st cfg output_schema) units s in
                           pm_collect_st prompts input_data all_futures
                                         (seq 0 (length units)) ∅ cost_zero s'
                     | None =>
                         copies <~ st_mapM (λ ref, item <~ st_read ref ;;
                                                   st_alloc item)
                                           input_data ;;
                         st_ret (map_seq 0 copies, cost_zero)
                     end ;;
               _ <~ match drop_opt with
                    | Some drop_keys =>
                        refs <~ st_mapM (pop_keys_st drop_keys)
                                        (map_to_list rc.1).*2 ;;
                        st_ret ()
                    | None => st_ret ()
                    end ;;
               st_ret (omap (λ i, rc.1 !! i) (seq 0 (length input_data)), rc.2))
              (λ rc, Forall fresh rc.1)) as Hmain.
  { intros prompts_opt drop_opt.
    eapply (st_grows_bind _ _ _ (λ rc, map_Forall (λ _, fresh) rc.1)).
    - destruct prompts_opt as [prompts|].
      + eapply st_grows_bind; [by apply (st_grows_lift _ _ (λ _, True))|].
        intros units _ s Hs.
        destruct (pool_run_st_slots order
                    (process_prompt_st cfg output_schema) units s _
                    (process_prompt_st_grows cfg output_schema) Hs)
          as [Hpool _].
        destruct (pool_run_st order (process_prompt_st cfg output_schema)
                              units s) as [all_futures s'].
        apply pm_collect_st_fresh; [|done]. apply map_Forall_empty.
      + eapply (st_grows_bind _ _ _ (Forall fresh)).
        * apply st_grows_mapM. intros ref _.
          eapply st_grows_bind; [apply st_grows_read|]. intros item _.
          apply st_grows_alloc.
        * intros copies Hcopies. apply st_grows_ret. simpl.
          intros i l Hl. rewrite lookup_map_seq_0 in Hl.
          rewrite Forall_forall in Hcopies. apply Hcopies.
          apply list_elem_of_lookup. by exists i.
    - intros rc Hfresh.
      eapply st_grows_bind.
      + instantiate (1 := λ _, True).
        destruct drop_opt as [drop_keys|]; [|by apply st_grows_ret].
        eapply st_grows_bind; [|intros; by apply st_grows_ret].
        apply (st_grows_mapM _ _ _ (λ _, True)).
        intros ref Href. apply pop_keys_st_grows.
      + intros _ _. apply st_grows_ret. simpl.
        apply Forall_forall. intros l Hl.
        apply list_elem_of_omap in Hl as (i & _ & Hi).
        by apply (Hfresh _ _ Hi). }
  destruct (cfg !! "prompts") as [prompts|];
    [exact (Hmain (Some prompts) (cfg !! "drop_keys"))|].
  destruct (cfg !! "drop_keys") as [drop_keys|]; [|exact (Hmain None None)].
  eapply st_grows_bind.
  - apply st_grows_mapM. intros ref _. apply drop_item_st_fresh.
  - intros dropped Hdropped. by apply st_grows_ret.
Qed.

End returned.

(** X20: No dict that [execute] returns, in either variant, is a dict that
    existed when it was called: the records of the result are objects of
    their own, which the caller can change without touching the input. *)
Theorem execute_returns_new_dicts `{Env} (order : list nat) (cfg : config)
    (input_data : list loc) (s0 : store) (refs : list loc) (tot : cost) :
  (map_execute_st order cfg input_data s0).1 = inr (refs, tot)
  ∨ (pm_execute_st order cfg input_data s0).1 = inr (refs, tot) →
  ∀ l, l ∈ refs → s0 !! l = None.
Proof.
  intros Hrun l Hl. apply lookup_ge_None.
  assert (Forall (λ l, length s0 ≤ l) refs) as Hfresh.
  { destruct Hrun as [Hrun|Hrun].
    - by apply (proj2 (map_execute_st_fresh (length s0) order cfg input_data s0
                         (le_n _)) (refs, tot)).
    - by apply (proj2 (pm_execute_st_fresh (length s0) order cfg input_data s0
                         (le_n _)) (refs, tot)). }
  rewrite Forall_forall in Hfresh. by apply Hfresh.
Qed.

(** ** Validation and the multi-prompt variant *)

Lemma pool_run_ext {T A} (order : list nat) (f g : T → A) (units : list T) :
  (∀ u, f u = g u) → pool_run order f units = pool_run order g units.
Proof.
  intros Hfg. unfold pool_run.
  generalize (replicate (length units) (@None A)).
  induction order as [|i order IH]; intros slots; [done|].
  simpl. destruct (units !! i) as [u|]; [|apply IH]. by rewrite Hfg.
Qed.

Section pm_validation.
Context (E : Env) (b : bool) (v : config → record → result bool).

Lemma process_prompt_with_validation (cfg : config) (output_schema : pyval)
    (u : record * pyval) :
  process_prompt (H:=with_validation E b v) cfg output_schema u
  = process_prompt (H:=E) cfg output_schema u.
Proof.
  unfold process_prompt.
  destruct (py_getitem u.2 "prompt") as [e|src]; [done|]. cbn [bind].
  change (render_jinja_template (H:=with_validation E b v) src u.1)
    with (render_jinja_template (H:=E) src u.1).
  destruct (render_jinja_template src u.1) as [e|prompt]; [done|]. cbn [bind].
  destruct (py_getitem u.2 "output_keys") as [e|oks]; [done|]. cbn [bind].
  destruct (py_iter oks) as [e|keys]; [done|]. cbn [bind].
  destruct (local_schema output_schema keys) as [e|ls]; [done|]. cbn [bind].
  change (@default_model (with_validation E b v)) with (@default_model E).
  destruct (py_get u.2 "model" default_model) as [e|model]; [done|]. cbn [bind].
  destruct (py_get u.2 "tools" PNone) as [e|tools]; [done|]. cbn [bind].
  cbn [call_llm with_validation].
  by destruct (call_llm _ _ _ _ _ _) as [e|r].
Qed.

Lemma pm_collect_with_validation (prompts : pyval) (input_data : list record)
    (slots : list (option (result (record * @cost E))))
    (indices : list nat) (results : gmap nat record) (total : @cost E) :
  pm_collect (H:=with_validation E b v) prompts input_data slots indices
             results total
  = pm_collect (H:=E) prompts input_data slots indices results total.
Proof.
  revert results total.
  induction indices as [|i indices IH]; intros results total; [done|].
  cbn [pm_collect].
  change (@cost (with_validation E b v)) with (@cost E).
  change (@cost_add (with_validation E b v)) with (@cost_add E).
  destruct (future_result slots i) as [e|r]; [done|]. cbn [bind].
  destruct (py_len prompts) as [e|n]; [done|]. cbn [bind].
  destruct (if bool_decide (n = 0) then raise ZeroDivisionError else ret ())
    as [e|[]]; [done|]. cbn [bind].
  destruct (if bool_decide (i `mod` n = 0)
            then item <- list_item input_data (i `div` n) ;;
                 ret (<[i `div` n := item]> results)
            else ret results) as [e|results']; [done|]. cbn [bind].
  destruct (match results' !! (i `div` n) with
            | Some it => ret it
            | None => raise (KeyError (PInt (Z.of_nat (i `div` n))))
            end) as [e|item_result]; [done|]. cbn [bind].
  apply IH.
Qed.

(** X21: [ParallelMapOperation.execute] does not validate: neither the
    [validated] flag of an invocation result nor [validate_output] has any
    part in what it returns or raises.  (The single-prompt variant omits
    the items whose result is not validated.) *)
Theorem pm_execute_no_validation (order : list nat) (cfg : config)
    (input_data : list record) :
  pm_execute (H:=with_validation E b v) order cfg input_data
  = pm_execute (H:=E) order cfg input_data.
Proof.
  unfold pm_execute.
  destruct (pm_output_schema cfg) as [e|os]; [done|]. cbn [bind].
  destruct (cfg !! "prompts") as [prompts|]; [|done].
  destruct (pm_units prompts input_data) as [e|units]; [done|]. cbn [bind].
  rewrite pm_collect_with_validation.
  change (@cost (with_validation E b v)) with (@cost E).
  change (@cost_zero (with_validation E b v)) with (@cost_zero E).
  by rewrite (pool_run_ext order _ (process_prompt (H:=E) cfg os) units
                (process_prompt_with_validation cfg os)).
Qed.

End pm_validation.

(** ** The dicts [execute] returns are distinct *)

Lemma st_mapM_alloc {A} (f : A → st loc) (l : list A) (s s' : store)
    (ls : list loc) :
  (∀ a s l s', f a s = (inr l, s') → l = length s ∧ length s' = S (length s)) →
  st_mapM f l s = (inr ls, s') →
  ls = seq (length s) (length l) ∧ length s' = length s + length l.
Proof.
  intros Hf. revert s ls. induction l as [|a l IH]; intros s ls Hrun.
  - injection Hrun as <- <-. simpl. split; [done|lia].
  - cbn [st_mapM] in Hrun. rewrite st_bind_run in Hrun.
    destruct (f a s) as [[e|x] s1] eqn:Hfa; [done|].
    rewrite st_bind_run in Hrun.
    destruct (st_mapM f l s1) as [[e|xs] s2] eqn:Hrest; [done|].
    injection Hrun as <- <-.
    destruct (Hf _ _ _ _ Hfa) as [-> Hlen].
    destruct (IH _ _ Hrest) as [-> Hlen2]. rewrite Hlen. simpl.
    split; [done|lia].
Qed.

Lemma NoDup_omap_lookup (m : gmap nat loc) (l : list nat) :
  (∀ k k' x, m !! k = Some x → m !! k' = Some x → k = k') →
  NoDup l →
  NoDup (omap (λ i, m !! i) l).
Proof.
  intros Hinj. induction 1 as [|a l Ha Hl IH]; [constructor|].
  simpl. destruct (m !! a) as [x|] eqn:Hx; [|done].
  constructor; [|done]. intros Hin.
  apply list_elem_of_omap in Hin as (b & Hb & Hmb).
  by rewrite (Hinj a b x Hx Hmb) in Ha.
Qed.

Section distinct.
Context `{Env}.

Lemma drop_item_st_alloc (drop_keys : pyval) (ref : loc) (s : store) (l : loc)
    (s' : store) :
  drop_item_st drop_keys ref s = (inr l, s') →
  l = length s ∧ length s' = S (length s).
Proof.
  unfold drop_item_st. rewrite st_bind_run. unfold st_read.
  destruct (s !! ref) as [item|]; [|done]. rewrite st_bind_run.
  unfold st_lift. destruct (dict_without drop_keys item) as [e|new]; [done|].
  unfold st_alloc. intros [= <- <-]. rewrite length_app. simpl. split; [done|lia].
Qed.

Lemma copy_item_st_alloc (ref : loc) (s : store) (l : loc) (s' : store) :
  (item <~ st_read ref ;; st_alloc item) s = (inr l, s') →
  l = length s ∧ length s' = S (length s).
Proof.
  rewrite st_bind_run. unfold st_read.
  destruct (s !! ref) as [item|]; [|done].
  unfold st_alloc. intros [= <- <-]. rewrite length_app. simpl. split; [done|lia].
Qed.

(** Rendering keeps every dict of the store where it is. *)
Lemma st_render_length (tpl : template) (ref : loc) (s : store)
    (r : result string) (s' : store) :
  st_render tpl ref s = (r, s') → length s' = length s.
Proof.
  unfold st_render. destruct (s !! ref) as [item|]; [|by intros [= <- <-] ].
  destruct (render_item tpl item) as [r0 item']. intros [= <- <-].
  by rewrite length_insert.
Qed.

Lemma process_map_item_st_alloc (cfg : config) (ref : loc) (s : store)
    (r : result (option loc * cost)) (s' : store) :
  process_map_item_st cfg ref s = (r, s') →
  length s ≤ length s'
  ∧ ∀ x l, r = inr x → x.1 = Some l → l = length s ∧ length s' = S (length s).
Proof.
  unfold process_map_item_st. rewrite st_bind_run. unfold st_lift at 1.
  destruct (cfg_item cfg "prompt") as [e|src]; [by intros [= <- <-]|].
  rewrite st_bind_run. unfold st_lift at 1.
  destruct (Template src) as [e|tpl]; [by intros [= <- <-]|].
  rewrite st_bind_run.
  destruct (st_render tpl ref s) as [rp s1] eqn:Hrender.
  apply st_render_length in Hrender. rewrite <- Hrender.
  destruct rp as [e|prompt]; [by intros [= <- <-]|].
  rewrite st_bind_run. unfold st_read.
  destruct (s1 !! ref) as [item|]; [|by intros [= <- <-] ].
  rewrite st_bind_run. unfold st_lift.
  destruct (map_item_invoke cfg item prompt) as [e|res]; [by intros [= <- <-]|].
  destruct (validated res); [|by intros [= <- <-]; split; [|intros ? ? [= <-] ] ].
  rewrite st_bind_run.
  destruct (map_item_parse cfg (response_of res)) as [e|output];
    [by intros [= <- <-]|].
  rewrite st_bind_run. unfold st_alloc, st_ret. intros [= <- <-].
  rewrite length_app. simpl. split; [lia|].
  intros x l [= <-] [= <-]. split; [done|lia].
Qed.

Lemma slot_ref_insert (slots : list (option (result (option loc * cost))))
    (i j : nat) (r : result (option loc * cost)) (l : loc) :
  slot_ref (<[i := Some r]> slots) j l →
  (j = i ∧ ∃ x, r = inr x ∧ x.1 = Some l) ∨ (j ≠ i ∧ slot_ref slots j l).
Proof.
  intros (x & Hx & Hl). apply list_lookup_insert_Some in Hx as [(-> & Hr & _)|[? ?] ].
  - left. split; [done|]. exists x. split; [congruence|done].
  - right. split; [done|]. by exists x.
Qed.

(** The references the units of the pool return are distinct dicts of the
    store the pool leaves. *)
Lemma pool_run_st_distinct (order : list nat) (cfg : config)
    (units : list loc) (s : store) :
  slots_distinct (pool_run_st order (process_map_item_st cfg) units s).1
                 (length (pool_run_st order (process_map_item_st cfg) units s).2).
Proof.
  unfold pool_run_st.
  assert (slots_distinct
            (replicate (length units) (@None (result (option loc * cost))))
            (length s)) as Hinit.
  { split.
    - intros i l (r & Hr & _). by apply lookup_replicate in Hr as [? _].
    - intros i j l (r & Hr & _). by apply lookup_replicate in Hr as [? _]. }
  revert Hinit.
  generalize (replicate (length units) (@None (result (option loc * cost)))).
  revert s. induction order as [|i order IH]; intros s slots Hslots; [done|].
  cbn [foldl]. destruct (units !! i) as [u|]; [|by apply IH].
  cbn [fst snd].
  destruct (process_map_item_st cfg u s) as [r s1] eqn:Hrun.
  apply process_map_item_st_alloc in Hrun as [Hle Hnew].
  apply IH. destruct Hslots as [Hbound Hinj]. split.
  - intros j l [(-> & x & -> & Hx)|[_ Hj] ]%slot_ref_insert.
    + destruct (Hnew x l eq_refl Hx) as [-> ->]. lia.
    + specialize (Hbound j l Hj). lia.
  - intros j j' l [(-> & x & -> & Hx)|[Hne Hj] ]%slot_ref_insert
                  [(-> & x' & Hr' & Hx')|[Hne' Hj'] ]%slot_ref_insert.
    + done.
    + destruct (Hnew x l eq_refl Hx) as [-> _].
      specialize (Hbound j' _ Hj'). lia.
    + subst r. destruct (Hnew x' l eq_refl Hx') as [-> _].
      specialize (Hbound j _ Hj). lia.
    + by apply (Hinj j j' l).
Qed.

Lemma future_result_slot_ref
    (slots : list (option (result (option loc * cost)))) (i : nat)
    (r : option loc * cost) (l : loc) :
  future_result slots i = inr r → r.1 = Some l → slot_ref slots i l.
Proof.
  unfold future_result. intros Hr Hl.
  destruct (slots !! i) as [ [slot|]|] eqn:Hi; try discriminate.
  simpl in Hr. subst slot. by exists r.
Qed.

(** Without [drop_keys] the loop returns the references of the slots. *)
Lemma map_collect_st_slots (cfg : config)
    (slots : list (option (result (option loc * cost)))) (n : nat)
    (indices : list nat) (results : list loc) (total : cost) (s : store)
    (rc : list loc * cost) (s' : store) :
  cfg !! "drop_keys" = None →
  slots_distinct slots n →
  NoDup indices →
  NoDup results →
  (∀ l, l ∈ results → ∃ j, (j ∉ indices) ∧ slot_ref slots j l) →
  map_collect_st cfg slots indices results total s = (inr rc, s') →
  NoDup rc.1.
Proof.
  intros Hdrop [_ Hinj]. revert results total s.
  induction indices as [|i indices IH];
    intros results total s Hnd Hres Hfrom Hrun.
  - by injection Hrun as <- <-.
  - apply NoDup_cons in Hnd as [Hi Hnd].
    cbn [map_collect_st] in Hrun. rewrite st_bind_run in Hrun.
    unfold st_lift in Hrun.
    destruct (future_result slots i) as [e|r] eqn:Hfut; [done|].
    rewrite st_bind_run in Hrun.
    destruct r.1 as [ref|] eqn:Href.
    + rewrite Hdrop in Hrun. cbn [st_ret] in Hrun.
      pose proof (future_result_slot_ref _ _ _ _ Hfut Href) as Hslot.
      apply (IH _ _ _ Hnd) in Hrun; [done| |].
      * apply NoDup_app. split; [done|]. split; [|apply NoDup_singleton].
        intros l Hl ->%list_elem_of_singleton.
        destruct (Hfrom _ Hl) as (j & Hj & Hjl).
        apply Hj. rewrite (Hinj j i ref Hjl Hslot). left.
      * intros l [Hl| ->%list_elem_of_singleton]%elem_of_app.
        -- destruct (Hfrom _ Hl) as (j & Hj & Hjl). exists j.
           split; [|done]. intros Hin. apply Hj. by right.
        -- by exists i.
    + cbn [st_ret] in Hrun. apply (IH _ _ _ Hnd) in Hrun; [done|done|].
      intros l Hl. destruct (Hfrom _ Hl) as (j & Hj & Hjl). exists j.
      split; [|done]. intros Hin. apply Hj. by right.
Qed.

(** With [drop_keys] the loop returns the projections it allocates. *)
Lemma map_collect_st_projections (cfg : config) (drop_keys : pyval)
    (slots : list (option (result (option loc * cost))))
    (indices : list nat) (results : list loc) (total : cost) (s : store)
    (rc : list loc * cost) (s' : store) :
  cfg !! "drop_keys" = Some drop_keys →
  NoDup results →
  (∀ l, l ∈ results → l < length s) →
  map_collect_st cfg slots indices results total s = (inr rc, s') →
  NoDup rc.1.
Proof.
  intros Hdrop. revert results total s.
  induction indices as [|i indices IH]; intros results total s Hres Hlt Hrun.
  - by injection Hrun as <- <-.
  - cbn [map_collect_st] in Hrun. rewrite st_bind_run in Hrun.
    unfold st_lift in Hrun.
    destruct (future_result slots i) as [e|r] eqn:Hfut; [done|].
    rewrite st_bind_run in Hrun.
    destruct r.1 as [ref|] eqn:Href.
    + rewrite Hdrop, st_bind_run in Hrun.
      destruct (drop_item_st drop_keys ref s) as [ [e|new] s1] eqn:Hnew; [done|].
      cbn [st_ret] in Hrun.
      apply drop_item_st_alloc in Hnew as [-> Hlen].
      apply IH in Hrun; [done| |].
      * apply NoDup_app. split; [done|]. split; [|apply NoDup_singleton].
        intros l Hl ->%list_elem_of_singleton. specialize (Hlt _ Hl). lia.
      * intros l [Hl| ->%list_elem_of_singleton]%elem_of_app; [|lia].
        specialize (Hlt _ Hl). lia.
    + cbn [st_ret] in Hrun. by apply IH in Hrun.
Qed.

Lemma map_execute_st_distinct (order : list nat) (cfg : config)
    (input_data : list loc) (s : store) (rc : list loc * cost) (s' : store) :
  map_execute_st order cfg input_data s = (inr rc, s') → NoDup rc.1.
Proof.
  assert ((_ <~ st_lift (thread_pool (map_max_batch_size cfg)) ;;
           λ s, let (futures, s1) :=
                  pool_run_st order (process_map_item_st cfg) input_data s in
                (_ <~ st_lift (cfg_item cfg "name") ;;
                 map_collect_st cfg futures (seq 0 (length input_data)) []
                                cost_zero) s1) s
          = (inr rc, s') → NoDup rc.1) as Hmain.
  { rewrite st_bind_run. unfold st_lift at 1.
    destruct (thread_pool (map_max_batch_size cfg)) as [e|[] ]; [done|].
    pose proof (pool_run_st_distinct order cfg input_data s) as Hslots.
    destruct (pool_run_st order (process_map_item_st cfg) input_data s)
      as [futures s1].
    rewrite st_bind_run. unfold st_lift at 1.
    destruct (cfg_item cfg "name") as [e|name]; [done|].
    intros Hrun. destruct (cfg !! "drop_keys") as [drop_keys|] eqn:Hdrop.
    - eapply map_collect_st_projections;
        [exact Hdrop|constructor| |exact Hrun].
      by intros l ?%elem_of_nil.
    - eapply map_collect_st_slots;
        [exact Hdrop|exact Hslots|apply NoDup_seq|constructor| |exact Hrun].
      by intros l ?%elem_of_nil. }
  unfold map_execute_st.
  destruct (cfg !! "prompt"); [done|].
  destruct (cfg !! "drop_keys") as [drop_keys|]; [|done].
  rewrite st_bind_run.
  destruct (st_mapM (drop_item_st drop_keys) input_data s)
    as [ [e|dropped] s1] eqn:Hdropped; [done|].
  intros [= <- <-].
  apply st_mapM_alloc in Hdropped as [-> _];
    [apply NoDup_seq|apply drop_item_st_alloc].
Qed.

(** The accumulators of the reassembly loop are distinct dicts of the
    store. *)
Lemma pm_collect_st_distinct (prompts : pyval) (input_data : list loc)
    (slots : list (option (result (record * cost)))) (indices : list nat)
    (results : gmap nat loc) (total : cost) (s : store)
    (rc : gmap nat loc * cost) (s' : store) :
  (∀ k l, results !! k = Some l → l < length s) →
  (∀ k k' l, results !! k = Some l → results !! k' = Some l → k = k') →
  pm_collect_st prompts input_data slots indices results total s
  = (inr rc, s') →
  ∀ k k' l, rc.1 !! k = Some l → rc.1 !! k' = Some l → k = k'.
Proof.
  revert results total s.
  induction indices as [|i indices IH]; intros results total s Hlt Hinj Hrun.
  - by injection Hrun as <- <-.
  - cbn [pm_collect_st] in Hrun. rewrite st_bind_run in Hrun.
    unfold st_lift in Hrun.
    destruct (future_result slots i) as [e|r]; [done|].
    rewrite st_bind_run in Hrun.
    destruct (py_len prompts) as [e|n]; [done|].
    rewrite st_bind_run in Hrun.
    destruct (if bool_decide (n = 0) then raise ZeroDivisionError else ret ())
      as [e|[] ]; [done|].
    rewrite st_bind_run in Hrun.
    destruct ((if bool_decide (i `mod` n = 0)
               then ref <~ (λ s, (list_item input_data (i `div` n), s)) ;;
                    item <~ st_read ref ;;
                    item_result <~ st_alloc item ;;
                    st_ret (<[i `div` n := item_result]> results)
               else st_ret results) s) as [ [e|results1] s1] eqn:Hcopy;
      [done|].
    assert ((∀ k l, results1 !! k = Some l → l < length s1)
            ∧ (∀ k k' l, results1 !! k = Some l → results1 !! k' = Some l →
                         k = k')) as [Hlt1 Hinj1].
    { destruct (bool_decide (i `mod` n = 0)).
      - rewrite st_bind_run in Hcopy.
        destruct (list_item input_data (i `div` n)) as [e|ref]; [done|].
        rewrite st_bind_run in Hcopy. unfold st_read in Hcopy.
        destruct (s !! ref) as [item|]; [|done].
        rewrite st_bind_run in Hcopy. unfold st_alloc, st_ret in Hcopy.
        injection Hcopy as <- <-. rewrite length_app. simpl. split.
        + intros k l [ [_ <-]|[_ Hk] ]%lookup_insert_Some; [lia|].
          specialize (Hlt _ _ Hk). lia.
        + intros k k' l [ [<- <-]|[Hne Hk] ]%lookup_insert_Some
                        [ [<- Hl]|[Hne' Hk'] ]%lookup_insert_Some.
          * done.
          * specialize (Hlt _ _ Hk'). lia.
          * specialize (Hlt _ _ Hk). lia.
          * by apply (Hinj k k' l).
      - by injection Hcopy as <- <-. }
    rewrite st_bind_run in Hrun.
    destruct (results1 !! (i `div` n)) as [item_result|]; [|done].
    cbn [ret] in Hrun. rewrite st_bind_run in Hrun. unfold st_read in Hrun.
    destruct (s1 !! item_result) as [current|]; [|done].
    rewrite st_bind_run in Hrun. unfold st_write in Hrun.
    eapply IH; [|exact Hinj1|exact Hrun].
    intros k l Hk. rewrite length_insert. by apply (Hlt1 k l).
Qed.

Lemma pm_execute_st_distinct (order : list nat) (cfg : config)
    (input_data : list loc) (s : store) (rc : list loc * cost) (s' : store) :
  pm_execute_st order cfg input_data s = (inr rc, s') → NoDup rc.1.
Proof.
  unfold pm_execute_st. rewrite st_bind_run. unfold st_lift at 1.
  destruct (pm_output_schema cfg) as [e|output_schema]; [done|].
  assert (∀ prompts_opt drop_opt,
            (acc <~ match prompts_opt with
                    | Some prompts =>
                        units <~ st_lift (pm_units_st prompts input_data) ;;
                        λ s,
                          let (all_futures, s') :=
                            pool_run_st order
                              (process_prompt_st cfg output_schema) units s in
                          pm_collect_st prompts input_data all_futures
                                        (seq 0 (length units)) ∅ cost_zero s'
                    | None =>
                        copies <~ st_mapM (λ ref, item <~ st_read ref ;;
                                                  st_alloc item)
                                          input_data ;;
                        st_ret (map_seq 0 copies, cost_zero)
                    end ;;
             _ <~ match drop_opt with
                  | Some drop_keys =>
                      refs <~ st_mapM (pop_keys_st drop_keys)
                                      (map_to_list acc.1).*2 ;;
                      st_ret ()
                  | None => st_ret ()
                  end ;;
             st_ret (omap (λ i, acc.1 !! i) (seq 0 (length input_data)), acc.2))
              s = (inr rc, s') → NoDup rc.1) as Hmain.
  { intros prompts_opt drop_opt. rewrite st_bind_run.
    destruct (match prompts_opt with
              | Some prompts =>
                  units <~ st_lift (pm_units_st prompts input_data) ;;
                  λ s,
                    let (all_futures, s') :=
                      pool_run_st order
                        (process_prompt_st cfg output_schema) units s in
                    pm_collect_st prompts input_data all_futures
                                  (seq 0 (length units)) ∅ cost_zero s'
              | None =>
                  copies <~ st_mapM (λ ref, item <~ st_read ref ;;
                                            st_alloc item)
                                    input_data ;;
                  st_ret (map_seq 0 copies, cost_zero)
              end s) as [ [e|acc] s1] eqn:Hacc; [done|].
    assert (∀ k k' l, acc.1 !! k = Some l → acc.1 !! k' = Some l → k = k')
      as Hinj.
    { destruct prompts_opt as [prompts|].
      - rewrite st_bind_run in Hacc. unfold st_lift in Hacc.
        destruct (pm_units_st prompts input_data) as [e|units]; [done|].
        destruct (pool_run_st order (process_prompt_st cfg output_schema)
                              units s) as [all_futures s0].
        eapply pm_collect_st_distinct; [| |exact Hacc].
        + by intros k l ?%lookup_empty_Some.
        + by intros k k' l ?%lookup_empty_Some.
      - rewrite st_bind_run in Hacc.
        destruct (st_mapM (λ ref, item <~ st_read ref ;; st_alloc item)
                          input_data s) as [ [e|copies] s0] eqn:Hcopies;
          [done|].
        injection Hacc as <- <-.
        apply st_mapM_alloc in Hcopies as [-> _]; [|apply copy_item_st_alloc].
        intros k k' l. simpl. rewrite !lookup_map_seq_0.
        intros [Hk _]%lookup_seq [Hk' _]%lookup_seq. lia. }
    rewrite st_bind_run.
    destruct (match drop_opt with
              | Some drop_keys =>
                  refs <~ st_mapM (pop_keys_st drop_keys)
                                  (map_to_list acc.1).*2 ;;
                  st_ret ()
              | None => st_ret ()
              end s1) as [ [e|u] s2]; [done|].
    intros [= <- <-]. simpl. apply NoDup_omap_lookup; [done|apply NoDup_seq]. }
  destruct (cfg !! "prompts") as [prompts|];
    [exact (Hmain (Some prompts) (cfg !! "drop_keys"))|].
  destruct (cfg !! "drop_keys") as [drop_keys|]; [|exact (Hmain None None)].
  rewrite st_bind_run.
  destruct (st_mapM (drop_item_st drop_keys) input_data s)
    as [ [e|dropped] s1] eqn:Hdropped; [done|].
  intros [= <- <-].
  apply st_mapM_alloc in Hdropped as [-> _];
    [apply NoDup_seq|apply drop_item_st_alloc].
Qed.

End distinct.

(** X22: The dicts that [execute] returns, in either variant, are pairwise
    distinct objects, also when the input lists the same dict more than
    once: no two records of the result share a dict. *)
Theorem execute_returns_distinct_dicts `{Env} (order : list nat)
    (cfg : config) (input_data : list loc) (s0 : store) (refs : list loc)
    (tot : cost) :
  (map_execute_st order cfg input_data s0).1 = inr (refs, tot)
  ∨ (pm_execute_st order cfg input_data s0).1 = inr (refs, tot) →
  NoDup refs.
Proof.
  intros [Hrun|Hrun].
  - destruct (map_execute_st order cfg input_data s0) as [r s'] eqn:Hexec.
    simpl in Hrun. subst r.
    exact (map_execute_st_distinct order cfg input_data s0 (refs, tot) s' Hexec).
  - destruct (pm_execute_st order cfg input_data s0) as [r s'] eqn:Hexec.
    simpl in Hrun. subst r.
    exact (pm_execute_st_distinct order cfg input_data s0 (refs, tot) s' Hexec).
Qed.

(** ** The further properties on the test environment *)

Lemma map_syntax_check_prompt_output_pair_witness :
  map_syntax_check (H:=TestEnv.env TestEnv.echo_llm) Fixtures.cfg_prompt_only
  = inl (ValueError "Missing required key 'output' in MapOperation configuration").
Proof.
  apply (map_syntax_check_prompt_output_pair (H:=TestEnv.env TestEnv.echo_llm)
           Fixtures.cfg_prompt_only
           (MapSchema PNone (PStr "Hello") PNone PNone Fixtures.drop_id)
           ["id"]).
  - vm_compute; reflexivity.
  - right; reflexivity.
  - reflexivity.
Defined.

Lemma map_syntax_check_invalid_template_witness :
  map_syntax_check (H:=TestEnv.env TestEnv.echo_llm) Fixtures.cfg_broken
  = inl (ValueError "Invalid Jinja2 template in 'prompt': unexpected end of template").
Proof.
  apply (map_syntax_check_invalid_template (H:=TestEnv.env TestEnv.echo_llm)
           Fixtures.cfg_broken
           (MapSchema Fixtures.output_echo (PStr "Echo: {{input.text")
                      PNone PNone PNone)
           [] {["schema" := Fixtures.schema_echo]} Fixtures.schema_echo
           (External "jinja2" "unexpected end of template")).
  - vm_compute; reflexivity.
  - left; split; reflexivity.
  - reflexivity.
  - reflexivity.
  - vm_compute; reflexivity.
  - vm_compute; reflexivity.
  - vm_compute; reflexivity.
Defined.

Lemma map_syntax_check_accepts_witness :
  map_syntax_check (H:=TestEnv.env TestEnv.echo_llm) Fixtures.cfg_echo = inr ().
Proof.
  apply (map_syntax_check_accepts (H:=TestEnv.env TestEnv.echo_llm)
           Fixtures.cfg_echo
           (MapSchema Fixtures.output_echo (PStr "Echo: {{input.text}}")
                      PNone PNone PNone)
           [] {["schema" := Fixtures.schema_echo]} Fixtures.schema_echo []).
  - vm_compute; reflexivity.
  - left; split; reflexivity.
  - reflexivity.
  - reflexivity.
  - vm_compute; reflexivity.
  - left; split; reflexivity.
  - split; [vm_compute; reflexivity|].
    split; [exists (false, "Echo: {{input.text}}"); vm_compute; reflexivity|].
    split; [intros Hm; vm_compute in Hm; discriminate|].
    split; [constructor|reflexivity].
Defined.

Lemma map_syntax_check_prepares_execute_witness :
  ∃ src tpl schema,
    Fixtures.cfg_echo !! "prompt" = Some src
    ∧ Template (H:=TestEnv.env TestEnv.echo_llm) src = inr tpl
    ∧ cfg_output_schema Fixtures.cfg_echo = inr schema
    ∧ truthy schema = true
    ∧ ∀ item, map_item_prompt (H:=TestEnv.env TestEnv.echo_llm)
                Fixtures.cfg_echo item
              = render tpl {["input" := PDict item]}.
Proof.
  apply (map_syntax_check_prepares_execute (H:=TestEnv.env TestEnv.echo_llm)
           Fixtures.cfg_echo
           (MapSchema Fixtures.output_echo (PStr "Echo: {{input.text}}")
                      PNone PNone PNone)).
  - vm_compute; reflexivity.
  - vm_compute; reflexivity.
  - vm_compute; reflexivity.
  - reflexivity.
  - vm_compute; reflexivity.
Defined.

Lemma map_execute_first_failure_witness :
  map_execute (H:=TestEnv.env TestEnv.echo_llm) [2; 0; 1] Fixtures.cfg_echo
              [Fixtures.item_hello; Fixtures.item_unprintable; Fixtures.item_bad]
  = inl (External "jinja2" "value not supported by the stub")
  ∧ map_execute (H:=TestEnv.env TestEnv.echo_llm) [2; 0; 1]
                Fixtures.cfg_echo_no_worker
                [Fixtures.item_hello; Fixtures.item_unprintable;
                 Fixtures.item_bad]
    = inl (ValueError "max_workers must be greater than 0")
  ∧ map_execute (H:=TestEnv.env TestEnv.echo_llm) [2; 0; 1]
                Fixtures.cfg_echo_unnamed
                [Fixtures.item_hello; Fixtures.item_unprintable;
                 Fixtures.item_bad]
    = inl (KeyError (PStr "name")).
Proof.
  split; [|split].
  - apply (map_execute_first_failure (H:=TestEnv.env TestEnv.echo_llm)
             [2; 0; 1] Fixtures.cfg_echo
             [Fixtures.item_hello] Fixtures.item_unprintable [Fixtures.item_bad]
             [(Some ({["echo" := PStr "hello"]} ∪ Fixtures.item_hello), 1%Z)]
             [{["echo" := PStr "hello"]} ∪ Fixtures.item_hello]
             (External "jinja2" "value not supported by the stub")).
    + apply (bool_decide_unpack _). vm_compute. exact I.
    + intros Hp. vm_compute in Hp. discriminate.
    + constructor; [vm_compute; reflexivity|constructor].
    + vm_compute; reflexivity.
    + vm_compute; reflexivity.
  - apply (map_execute_first_failure (H:=TestEnv.env TestEnv.echo_llm)
             [2; 0; 1] Fixtures.cfg_echo_no_worker
             [Fixtures.item_hello] Fixtures.item_unprintable [Fixtures.item_bad]
             [(Some ({["echo" := PStr "hello"]} ∪ Fixtures.item_hello), 1%Z)]
             [{["echo" := PStr "hello"]} ∪ Fixtures.item_hello]
             (External "jinja2" "value not supported by the stub")).
    + apply (bool_decide_unpack _). vm_compute. exact I.
    + intros Hp. vm_compute in Hp. discriminate.
    + constructor; [vm_compute; reflexivity|constructor].
    + vm_compute; reflexivity.
    + vm_compute; reflexivity.
  - apply (map_execute_first_failure (H:=TestEnv.env TestEnv.echo_llm)
             [2; 0; 1] Fixtures.cfg_echo_unnamed
             [Fixtures.item_hello] Fixtures.item_unprintable [Fixtures.item_bad]
             [(Some ({["echo" := PStr "hello"]} ∪ Fixtures.item_hello), 1%Z)]
             [{["echo" := PStr "hello"]} ∪ Fixtures.item_hello]
             (External "jinja2" "value not supported by the stub")).
    + apply (bool_decide_unpack _). vm_compute. exact I.
    + intros Hp. vm_compute in Hp. discriminate.
    + constructor; [vm_compute; reflexivity|constructor].
    + vm_compute; reflexivity.
    + vm_compute; reflexivity.
Defined.

Lemma map_execute_no_prompt_witness :
  map_execute (H:=TestEnv.env TestEnv.echo_llm) [0] Fixtures.cfg_bare
              [Fixtures.item_hello]
  = inl (KeyError (PStr "prompt")).
Proof.
  apply (map_execute_no_prompt (H:=TestEnv.env TestEnv.echo_llm)
           [0] Fixtures.cfg_bare Fixtures.item_hello []).
  - apply (bool_decide_unpack _). vm_compute. exact I.
  - vm_compute; reflexivity.
  - vm_compute; reflexivity.
Defined.

Lemma map_empty_prompt_check_and_execute_witness :
  map_syntax_check (H:=TestEnv.env TestEnv.echo_llm) Fixtures.cfg_empty_prompt
  = inr ()
  ∧ map_execute (H:=TestEnv.env TestEnv.echo_llm) [0] Fixtures.cfg_empty_prompt
                [Fixtures.item_hello]
    = inl (KeyError (PStr "output")).
Proof.
  destruct (map_empty_prompt_check_and_execute
              (H:=TestEnv.env TestEnv.echo_llm)
              [0] Fixtures.cfg_empty_prompt
              (MapSchema PNone (PStr "") PNone PNone Fixtures.drop_id)
              ["id"] (PStr "") (false, "") "" Fixtures.item_hello [])
    as (Hcheck & Hexec & _);
    try (vm_compute; reflexivity); try discriminate;
    try (apply (bool_decide_unpack _); vm_compute; exact I).
  split; [exact Hcheck|exact Hexec].
Defined.


Lemma map_validation_fn_backfill_witness :
  map_validation_fn (H:=TestEnv.env TestEnv.echo_llm) Fixtures.cfg_echo
                    Fixtures.item_hello
                    {["echo" := PStr "x"; "id" := PInt 9]}
  = inr ({["echo" := PStr "x"; "id" := PInt 1; "text" := PStr "hello"]}, true).
Proof.
  destruct (map_validation_fn_backfill (H:=TestEnv.env TestEnv.echo_llm)
              Fixtures.cfg_echo Fixtures.item_hello
              {["echo" := PStr "x"; "id" := PInt 9]}
              {["echo" := PStr "string"]}
              {["echo" := PStr "x"; "id" := PInt 9]} [])
    as [Hfn _].
  - vm_compute; reflexivity.
  - vm_compute; reflexivity.
  - rewrite Hfn. vm_compute; reflexivity.
Defined.

Lemma pm_check_entries_first_refused_witness :
  pm_check_entries (H:=TestEnv.env TestEnv.echo_llm)
                   [Fixtures.pc_echo; PStr "x"]
  = inl (TypeError "Prompt configuration 1 must be a dictionary").
Proof.
  destruct (pm_check_entries_first_refused (H:=TestEnv.env TestEnv.echo_llm)
              [Fixtures.pc_echo] (PStr "x") [])
    as [Hchk _].
  - constructor; [|constructor].
    exists {["prompt" := PStr "Echo: {{ input.text }}";
             "output_keys" := Fixtures.keys_echo]},
           "Echo: {{ input.text }}", [PStr "echo"].
    split; [reflexivity|]. split; [vm_compute; reflexivity|].
    split; [vm_compute; reflexivity|]. split; [discriminate|].
    split; [exists (false, "Echo: {{ input.text }}"); vm_compute; reflexivity|].
    intros model Hm. vm_compute in Hm. discriminate.
  - intros (d & src & keys & Heq & _). discriminate.
  - etrans; [exact Hchk|]. vm_compute; reflexivity.
Defined.

Lemma pm_syntax_check_needs_output_witness :
  pm_syntax_check (H:=TestEnv.env TestEnv.echo_llm) Fixtures.cfg_pm_no_output
  = inl (KeyError (PStr "output")).
Proof.
  apply (pm_syntax_check_needs_output (H:=TestEnv.env TestEnv.echo_llm)
           Fixtures.cfg_pm_no_output [Fixtures.pc_echo]).
  - vm_compute; reflexivity.
  - vm_compute; reflexivity.
  - discriminate.
  - constructor; [|constructor].
    exists {["prompt" := PStr "Echo: {{ input.text }}";
             "output_keys" := Fixtures.keys_echo]},
           "Echo: {{ input.text }}", [PStr "echo"].
    split; [reflexivity|]. split; [vm_compute; reflexivity|].
    split; [vm_compute; reflexivity|]. split; [discriminate|].
    split; [exists (false, "Echo: {{ input.text }}"); vm_compute; reflexivity|].
    intros model Hm. vm_compute in Hm. discriminate.
  - vm_compute; reflexivity.
Defined.

Lemma local_schema_slice_witness :
  local_schema (PDict {["echo" := PStr "string"; "n" := PStr "integer"]})
               [PStr "echo"]
  = inr {["echo" := PStr "string"]}
  ∧ local_schema (PDict {["echo" := PStr "string"; "n" := PStr "integer"]})
                 [PStr "echo"; PStr "b"; PStr "n"]
    = inl (KeyError (PStr "b")).
Proof.
  split.
  - destruct (local_schema_slice
                {["echo" := PStr "string"; "n" := PStr "integer"]} ["echo"])
      as [Hslice _].
    change [PStr "echo"] with (PStr <$> ["echo"]).
    rewrite Hslice; [vm_compute; reflexivity|].
    constructor; [|constructor]. eexists. vm_compute; reflexivity.
  - destruct (local_schema_slice
                {["echo" := PStr "string"; "n" := PStr "integer"]}
                ["echo"; "b"; "n"])
      as [_ Hmissing].
    apply (Hmissing ["echo"] "b" ["n"]).
    + reflexivity.
    + constructor; [|constructor]. eexists. vm_compute; reflexivity.
    + vm_compute; reflexivity.
Defined.

Lemma pm_drop_paths_witness :
  pop_keys (PList [PStr "id"; PInt 3]) Fixtures.item_hello
  = dict_without (PList [PStr "id"; PInt 3]) Fixtures.item_hello
  ∧ pop_keys (PList [PStr "id"; PList [] ]) Fixtures.item_hello
    = inl (TypeError "unhashable type: 'list'")
  ∧ pop_keys (PList [PStr "id"; PList [] ]) {["id" := PInt 1]} = inr ∅.
Proof.
  split; [|split].
  - destruct (pm_drop_paths [PStr "id"; PInt 3] Fixtures.item_hello)
      as (_ & Hsame & _).
    apply Hsame. reflexivity.
  - destruct (pm_drop_paths [PStr "id"; PList [] ] Fixtures.item_hello)
      as (_ & _ & Hraise & _).
    rewrite (Hraise [PStr "id"] (PList []) [] eq_refl eq_refl eq_refl).
    clear Hraise. destruct (decide _) as [Hempty|_]; [|reflexivity].
    apply (f_equal (.!! "text")) in Hempty. vm_compute in Hempty.
    discriminate Hempty.
  - destruct (pm_drop_paths [PStr "id"; PList [] ] {["id" := PInt 1]})
      as (_ & _ & Hgone & _).
    rewrite (Hgone [PStr "id"] (PList []) [] eq_refl eq_refl eq_refl).
    clear Hgone. destruct (decide _) as [_|Hleft]; [reflexivity|].
    exfalso. apply Hleft. vm_compute. reflexivity.
Defined.


Lemma pm_execute_no_entries_witness :
  pm_execute (H:=TestEnv.env TestEnv.echo_llm) [] Fixtures.cfg_pm_no_entries
             [Fixtures.item_hello]
  = inr ([], 0%Z).
Proof.
  apply (pm_execute_no_entries (H:=TestEnv.env TestEnv.echo_llm)
           [] Fixtures.cfg_pm_no_entries Fixtures.schema_echo
           [Fixtures.item_hello]).
  - vm_compute; reflexivity.
  - vm_compute; reflexivity.
Defined.

Lemma pm_execute_copies_witness :
  pm_execute (H:=TestEnv.env TestEnv.echo_llm) [] Fixtures.cfg_bare
             [Fixtures.item_hello; Fixtures.item_bad]
  = inr ([Fixtures.item_hello; Fixtures.item_bad], 0%Z).
Proof.
  apply (pm_execute_copies (H:=TestEnv.env TestEnv.echo_llm)
           [] Fixtures.cfg_bare (PDict ∅)
           [Fixtures.item_hello; Fixtures.item_bad]).
  - vm_compute; reflexivity.
  - vm_compute; reflexivity.
  - vm_compute; reflexivity.
Defined.

Lemma execute_returns_new_dicts_witness :
  (map_execute_st (H:=TestEnv.env TestEnv.echo_llm) [1; 0]
                  Fixtures.cfg_echo_drop [0; 1] Fixtures.store2).1
  = inr ([3], 2%Z)
  ∧ Fixtures.store2 !! 3 = None.
Proof.
  assert ((map_execute_st (H:=TestEnv.env TestEnv.echo_llm) [1; 0]
             Fixtures.cfg_echo_drop [0; 1] Fixtures.store2).1
          = inr ([3], 2%Z)) as Hrun by (vm_compute; reflexivity).
  split; [exact Hrun|].
  apply (execute_returns_new_dicts (H:=TestEnv.env TestEnv.echo_llm)
           [1; 0] Fixtures.cfg_echo_drop [0; 1] Fixtures.store2 [3] 2%Z).
  - left. exact Hrun.
  - apply list_elem_of_singleton. reflexivity.
Defined.

Lemma execute_returns_distinct_dicts_witness :
  (pm_execute_st (H:=TestEnv.env TestEnv.echo_llm) [0; 1]
                 Fixtures.cfg_pm_drop [0; 0] Fixtures.store2).1
  = inr ([2; 3], 2%Z)
  ∧ NoDup [2; 3].
Proof.
  assert ((pm_execute_st (H:=TestEnv.env TestEnv.echo_llm) [0; 1]
             Fixtures.cfg_pm_drop [0; 0] Fixtures.store2).1
          = inr ([2; 3], 2%Z)) as Hrun by (vm_compute; reflexivity).
  split; [exact Hrun|].
  apply (execute_returns_distinct_dicts (H:=TestEnv.env TestEnv.echo_llm)
           [0; 1] Fixtures.cfg_pm_drop [0; 0] Fixtures.store2 [2; 3] 2%Z).
  right. exact Hrun.
Defined.
